(** * Sfc4q: space-filling curves on 4-partitioned grids and sized integers

    A shallow embedding of [src/GSfc4q.js] (classes [GSfc4q], [GSfc4qLbl],
    [GSfc4qLbl_Morton], [GSfc4qLbl_Hilbert] and [SizedBigInt]) and the
    properties of its key/coordinate translations and radix conversions.

    Conventions of the embedding.
    - A JavaScript [BigInt] and an integer-valued [Number] are both values
      of [Z]; [BigInt(n)] of an integer-valued Number is the identity, and
      [Number(b)] of a BigInt is the rounding [JS.Number] to the nearest
      double.
    - BigInt operators: [/] is [Z.quot] (truncation), [>>] is [Z.shiftr],
      [<<] is [Z.shiftl], [&], [|], [^] are [Z.land], [Z.lor], [Z.lxor]
      (two's complement of unbounded width, as in the language).
    - The level of a grid is a rational ([Q]); a finite double is a
      rational and the code only takes its ceiling, compares it and
      subtracts one half from it.
    - Methods that mutate [this] and return it are functions returning the
      new object; exceptions are the [Throw] outcome.
    - Loops carry a bound; [Unfinished] (or [None]) is the bound being
      reached, which the lemmas below exclude. *)

From Stdlib Require Import ZArith QArith Qround Bool List String Ascii Lia.
Import ListNotations.
Local Open Scope Z_scope.

(* ================================================================== *)
(** * Part I: the embedding                                            *)
(* ================================================================== *)

(** ** Language primitives *)

Module JS.

(** Exceptions the embedded code can raise. [Error msg] is
    [new Error(msg)] with the code of the message. *)
Inductive error : Type :=
| RangeError
| SyntaxError
| TypeError
| Error (msg : string).

Inductive outcome (A : Type) : Type :=
| Return (a : A)
| Throw (e : error)
| Unfinished.
Arguments Return {A} a.
Arguments Throw {A} e.
Arguments Unfinished {A}.

Definition bind {A B} (m : outcome A) (k : A -> outcome B) : outcome B :=
  match m with
  | Return a => k a
  | Throw e => Throw e
  | Unfinished => Unfinished
  end.

Definition of_option {A} (o : option A) : outcome A :=
  match o with Some a => Return a | None => Unfinished end.

(** A call fails when it raises an exception. *)
Definition throws {A} (m : outcome A) : Prop := exists e, m = Throw e.

(** [Number(b)] for a BigInt [b]: the nearest double, ties to even
    (53 significant bits).  Magnitudes from [2^1024] on, which the
    language maps to an infinity, are outside the embedding. *)
Definition Number (z : Z) : Z :=
  let a := Z.abs z in
  let e := Z.log2 a - 52 in
  if e <=? 0 then z
  else
    let q := Z.shiftr a e in
    let r := Z.land a (Z.ones e) in
    let h := Z.shiftl 1 (e - 1) in
    let q' := if r <? h then q
              else if h <? r then q + 1
              else if Z.even q then q else q + 1 in
    Z.sgn z * Z.shiftl q' e.

(** *** Strings *)

Local Open Scope string_scope.
Local Open Scope Z_scope.

(** Binary digits of a positive number, most significant first. *)
Fixpoint pos_toString2 (p : positive) (acc : string) : string :=
  match p with
  | xH => String "1" acc
  | xO p' => pos_toString2 p' (String "0" acc)
  | xI p' => pos_toString2 p' (String "1" acc)
  end.

(** [z.toString(2)] for a BigInt or an integer-valued Number. *)
Definition toString2 (z : Z) : string :=
  match z with
  | Z0 => "0"
  | Zpos p => pos_toString2 p ""
  | Zneg p => String "-" (pos_toString2 p "")
  end.

Definition strlen (s : string) : Z := Z.of_nat (String.length s).

Fixpoint repeat_char (c : ascii) (n : nat) : string :=
  match n with O => "" | S n' => String c (repeat_char c n') end.

(** [s.padStart(n, c)] with a one-character filler. *)
Definition padStart (s : string) (n : Z) (c : ascii) : string :=
  repeat_char c (Z.to_nat (n - strlen s)) ++ s.

(** [s.slice(a, b)]: negative indices count from the end, both are
    clamped to the string. *)
Definition slice (s : string) (a b : Z) : string :=
  let n := strlen s in
  let from := if a <? 0 then Z.max (n + a) 0 else Z.min a n in
  let to := if b <? 0 then Z.max (n + b) 0 else Z.min b n in
  substring (Z.to_nat from) (Z.to_nat (to - from)) s.

(** [s.charAt(i)]: the empty string outside the string. *)
Definition charAt (s : string) (i : Z) : string :=
  if i <? 0 then ""
  else match String.get (Z.to_nat i) s with
       | Some c => String c ""
       | None => ""
       end.

Definition lower_ascii (c : ascii) : ascii :=
  let n := nat_of_ascii c in
  if (65 <=? n)%nat && (n <=? 90)%nat then ascii_of_nat (n + 32) else c.

(** [s.toLowerCase()] on ASCII text. *)
Fixpoint toLowerCase (s : string) : string :=
  match s with
  | EmptyString => ""
  | String c s' => String (lower_ascii c) (toLowerCase s')
  end.

(** White space that [BigInt(string)] trims (the ASCII part of it). *)
Definition is_space (c : ascii) : bool :=
  let n := nat_of_ascii c in
  ((9 <=? n)%nat && (n <=? 13)%nat) || (n =? 32)%nat.

Fixpoint all_space (s : string) : bool :=
  match s with
  | EmptyString => true
  | String c s' => is_space c && all_space s'
  end.

Definition digit_value (radix : Z) (c : ascii) : option Z :=
  let n := Z.of_nat (nat_of_ascii c) in
  let v := if (48 <=? n) && (n <=? 57) then n - 48
           else if (97 <=? n) && (n <=? 122) then n - 87
           else if (65 <=? n) && (n <=? 90) then n - 55
           else radix in
  if v <? radix then Some v else None.

(** Digits of a literal after its [0b] or [0x] prefix: at least one
    digit, then optional trailing white space.  [seen] tells whether
    a digit was read. *)
Fixpoint parse_digits (radix : Z) (s : string) (acc : Z) (seen : bool)
  : option Z :=
  match s with
  | EmptyString => if seen then Some acc else None
  | String c s' =>
      match digit_value radix c with
      | Some v => parse_digits radix s' (acc * radix + v) true
      | None => if seen && all_space s then Some acc else None
      end
  end.

(** [BigInt("0b" + s)] and [BigInt("0x" + s)]: a [SyntaxError] when
    the text is not a literal. *)
Definition BigInt_prefixed (radix : Z) (s : string) : outcome Z :=
  match parse_digits radix s 0 false with
  | Some z => Return z
  | None => Throw SyntaxError
  end.

(** [String(n)] for a non-negative integer-valued Number. *)
Fixpoint pos_digits10 (fuel : nat) (n : Z) (acc : string) : string :=
  match fuel with
  | O => acc
  | S fuel' =>
      let acc := String (ascii_of_nat (Z.to_nat (48 + n mod 10))) acc in
      if n <? 10 then acc else pos_digits10 fuel' (n / 10) acc
  end.

Definition toString10 (n : Z) : string :=
  if n <? 0 then String "-" (pos_digits10 (S (Z.to_nat (Z.log2 (- n)))) (- n) "")
  else pos_digits10 (S (Z.to_nat (Z.log2 n))) n "".

(** *** Objects used as maps

    Keys are strings; an assignment replaces the value of an existing
    key in place and appends a new key.  Only own properties are kept
    (no key used by the classes names a property of [Object.prototype]). *)
Definition object (V : Type) : Type := list (string * V).

Fixpoint obj_get {V} (k : string) (o : object V) : option V :=
  match o with
  | [] => None
  | (k', v) :: o' => if String.eqb k k' then Some v else obj_get k o'
  end.

Fixpoint obj_set {V} (k : string) (v : V) (o : object V) : object V :=
  match o with
  | [] => [(k, v)]
  | (k', v') :: o' =>
      if String.eqb k k' then (k, v) :: o' else (k', v') :: obj_set k v o'
  end.

Fixpoint all_digits (s : string) : bool :=
  match s with
  | EmptyString => true
  | String c s' =>
      let n := nat_of_ascii c in
      (48 <=? n)%nat && (n <=? 57)%nat && all_digits s'
  end.

Fixpoint decimal_value (s : string) (acc : Z) : Z :=
  match s with
  | EmptyString => acc
  | String c s' => decimal_value s' (acc * 10 + (Z.of_nat (nat_of_ascii c) - 48))
  end.

(** A key is an integer index when it is the canonical decimal text of
    an integer below [2^32 - 1]; such keys are enumerated first, in
    ascending order, then the others in insertion order. *)
Definition array_index (k : string) : option Z :=
  match k with
  | EmptyString => None
  | String c rest =>
      if all_digits k
         && (negb (Ascii.eqb c "0") || String.eqb rest "")
         && (decimal_value k 0 <? 2 ^ 32 - 1)
      then Some (decimal_value k 0) else None
  end.

Fixpoint insert_by_index {V} (n : Z) (kv : string * V)
         (l : list (Z * (string * V))) : list (Z * (string * V)) :=
  match l with
  | [] => [(n, kv)]
  | (m, kv') :: l' =>
      if n <? m then (n, kv) :: l else (m, kv') :: insert_by_index n kv l'
  end.

Fixpoint index_entries {V} (o : object V) : list (Z * (string * V)) :=
  match o with
  | [] => []
  | (k, v) :: o' =>
      match array_index k with
      | Some n => insert_by_index n (k, v) (index_entries o')
      | None => index_entries o'
      end
  end.

Definition Object_entries {V} (o : object V) : list (string * V) :=
  map snd (index_entries o)
  ++ filter (fun kv => match array_index (fst kv) with
                       | Some _ => false
                       | None => true
                       end) o.

End JS.
Import JS.

Declare Scope js_scope.
Delimit Scope js_scope with js.
Notation "x <- m ;; k" := (JS.bind m (fun x => k))
  (at level 61, m at next level, right associativity) : js_scope.

(** ** Morton curve: [class GSfc4qLbl_Morton] *)

Module GSfc4qLbl_Morton.

Definition _bkey_interleave (x : Z) : Z :=
  let x := Z.land (Z.lor x (Z.shiftl x 16)) 0x0000ffff0000ffff in
  let x := Z.land (Z.lor x (Z.shiftl x 8)) 0x00ff00ff00ff00ff in
  let x := Z.land (Z.lor x (Z.shiftl x 4)) 0x0f0f0f0f0f0f0f0f in
  let x := Z.land (Z.lor x (Z.shiftl x 2)) 0x3333333333333333 in
  Z.land (Z.lor x (Z.shiftl x 1)) 0x5555555555555555.

Definition deinterleave (x : Z) : Z :=
  let x := Z.land x 0x5555555555555555 in
  let x := Z.land (Z.lor x (Z.shiftr x 1)) 0x3333333333333333 in
  let x := Z.land (Z.lor x (Z.shiftr x 2)) 0x0f0f0f0f0f0f0f0f in
  let x := Z.land (Z.lor x (Z.shiftr x 4)) 0x00ff00ff00ff00ff in
  let x := Z.land (Z.lor x (Z.shiftr x 8)) 0x0000ffff0000ffff in
  let x := Z.land (Z.lor x (Z.shiftr x 16)) 0x00000000ffffffff in
  x.

Definition bkey_encode (x y : Z) : Z :=
  let x := _bkey_interleave x in
  let y := _bkey_interleave y in
  Z.lor x (Z.shiftl y 1).

Definition bkey_decode (d : Z) : Z * Z :=
  (Number (deinterleave d), Number (deinterleave (Z.shiftr d 1))).

End GSfc4qLbl_Morton.

(** ** Hilbert curve: [class GSfc4qLbl_Hilbert] *)

Module GSfc4qLbl_Hilbert.

(** [_rot] mutates the array [ij]; here it returns the new pair.
    [ij.push(ij.shift())] exchanges the two components. *)
Definition _rot (n : Z) (ij : Z * Z) (rx ry : Z) : Z * Z :=
  if ry =? 0 then
    let ij := if rx =? 1 then (n - 1 - fst ij, n - 1 - snd ij) else ij in
    (snd ij, fst ij)
  else ij.

(** Iteration bound for the two loops: [s] doubles from [1] (or halves
    from [nRefRows/2]), so there are at most [log2_up nRefRows] rounds. *)
Definition loop_bound (nRefRows : Z) : nat := S (Z.to_nat (Z.log2_up nRefRows)).

(** [for (let s = 1n; s < nRefRows; s *= 2n) { ... t /= 4n }] *)
Fixpoint decode_loop (fuel : nat) (s nRefRows t : Z) (ij : Z * Z)
  : option (Z * Z) :=
  if s <? nRefRows then
    match fuel with
    | O => None
    | S fuel' =>
        let rx := Z.land 1 (Z.quot t 2) in
        let ry := Z.land 1 (Z.lxor t rx) in
        let ij := _rot s ij rx ry in
        let ij := (fst ij + s * rx, snd ij + s * ry) in
        decode_loop fuel' (s * 2) nRefRows (Z.quot t 4) ij
    end
  else Some ij.

Definition _bkey_decode (key nRefRows : Z) : option (Z * Z) :=
  match decode_loop (loop_bound nRefRows) 1 nRefRows key (0, 0) with
  | Some ij => Some (Number (fst ij), Number (snd ij))
  | None => None
  end.

(** [for (let s = nRefRows / 2n; s >= 1n; s /= 2n) { ... }] *)
Fixpoint encode_loop (fuel : nat) (s key : Z) (ij : Z * Z) : option Z :=
  if 1 <=? s then
    match fuel with
    | O => None
    | S fuel' =>
        let rx := if Z.land (fst ij) s >? 0 then 1 else 0 in
        let ry := if Z.land (snd ij) s >? 0 then 1 else 0 in
        let key := key + s * s * Z.lxor (3 * rx) ry in
        let ij := _rot s ij rx ry in
        encode_loop fuel' (Z.quot s 2) key ij
    end
  else Some key.

Definition _bkey_encode (i j nRefRows : Z) : option Z :=
  encode_loop (loop_bound nRefRows) (Z.quot nRefRows 2) 0 (i, j).

End GSfc4qLbl_Hilbert.


(** ** Generalized curve: [class GSfc4q] *)

Module GSfc4q.

(** The properties [refresh] assigns. *)
Record state : Type := {
  level : Q;
  blevel : Z;
  isHalf : bool;
  nKeys : Z;
  nBKeys : Z;
  keyBits : Z;
  bkeyBits : Z;
  nRefRows : Z
}.

(** [a || b] for a level: [undefined], [null] and [0] are falsy. *)
Definition or_level (a : option Q) (b : Q) : Q :=
  match a with
  | Some x => if Qeq_bool x 0 then b else x
  | None => b
  end.

(** [refresh(level)] on an instance whose properties are [this]
    ([None] inside the constructor, where none is assigned yet).
    [4n**BigInt(blevel)] raises a [RangeError] for a negative exponent;
    the assignments before it have happened by then. *)
Definition refresh (this : option state) (lvl : option Q) : outcome state :=
  let level0 := or_level lvl (or_level (option_map level this) 1) in
  let blevel := Qceiling level0 in
  let isHalf := negb (Qeq_bool (inject_Z blevel) level0) in
  let level1 := Qred (inject_Z blevel - (if isHalf then 1 # 2 else 0)) in
  if blevel <? 0 then Throw RangeError
  else
    let nBKeys := 4 ^ blevel in
    let bkeyBits := strlen (toString2 (nBKeys - 1)) in
    Return {|
      level := level1;
      blevel := blevel;
      isHalf := isHalf;
      nKeys := if isHalf then Z.quot nBKeys 2 else nBKeys;
      nBKeys := nBKeys;
      keyBits := if isHalf then bkeyBits - 1 else bkeyBits;
      bkeyBits := bkeyBits;
      nRefRows := 2 ^ blevel
    |}.

(** [new GSfc4q(level)] *)
Definition constructor (lvl : option Q) : outcome state := refresh None lvl.

(** The argument of [refresh] when it need not be a Number: nothing
    ([undefined], [null]), a Number, or a string (the page passes the
    value of a form field).  The code tests the argument for truth,
    takes [Math.ceil] of it and compares it with [!=]; of a string
    these read whether it is empty and the number it converts to.  So
    a non-empty string is given by that number: [Some q] when it is
    finite (['0'] is [LString (Some 0)], ['1.5'] is
    [LString (Some (3 # 2))]), [None] when it is [NaN] or infinite
    (['abc']).  The empty string is falsy and does what [undefined]
    does: it is [LNone]. *)
Inductive level_arg : Type :=
| LNone
| LNumber (q : Q)
| LString (n : option Q).

(** [level || this.level || 1], as a number: a non-empty string is
    truthy whatever it converts to, also ['0']. *)
Definition chosen_level (this : option state) (lvl : level_arg) : option Q :=
  match lvl with
  | LNone => Some (or_level (option_map level this) 1)
  | LNumber q => Some (or_level (Some q) (or_level (option_map level this) 1))
  | LString n => n
  end.

(** [refresh(level)] for such an argument.  When the level is [NaN]
    or infinite, [BigInt(this.blevel)] raises a [RangeError]. *)
Definition refresh_any (this : option state) (lvl : level_arg) : outcome state :=
  match chosen_level this lvl with
  | None => Throw RangeError
  | Some level0 =>
      let blevel := Qceiling level0 in
      let isHalf := negb (Qeq_bool (inject_Z blevel) level0) in
      let level1 := Qred (inject_Z blevel - (if isHalf then 1 # 2 else 0)) in
      if blevel <? 0 then Throw RangeError
      else
        let nBKeys := 4 ^ blevel in
        let bkeyBits := strlen (toString2 (nBKeys - 1)) in
        Return {|
          level := level1;
          blevel := blevel;
          isHalf := isHalf;
          nKeys := if isHalf then Z.quot nBKeys 2 else nBKeys;
          nBKeys := nBKeys;
          keyBits := if isHalf then bkeyBits - 1 else bkeyBits;
          bkeyBits := bkeyBits;
          nRefRows := 2 ^ blevel
        |}
  end.

(** [new GSfc4q(level)] for such an argument. *)
Definition constructor_any (lvl : level_arg) : outcome state :=
  refresh_any None lvl.

(** The two methods a concrete curve overrides (the stubs of the base
    class, which return [[null,null]] and [null], are no curve). *)
Class Curve : Type := {
  bkey_decode : state -> Z -> outcome (Z * Z);
  bkey_encode : state -> Z -> Z -> outcome Z
}.

Section Methods.
Context {curve : Curve}.
Local Open Scope js_scope.

Definition key_decode (this : state) (key : Z)
  : outcome ((Z * Z) * option (Z * Z)) :=
  if isHalf this then
    let bkey := 2 * key in
    ij0 <- bkey_decode this bkey ;;
    ij1 <- bkey_decode this (bkey + 1) ;;
    Return (ij0, Some ij1)
  else
    ij <- bkey_decode this key ;;
    Return (ij, None).

Definition key_encode (this : state) (i j : Z)
  : outcome (Z * option Z) :=
  if isHalf this then
    bkey1 <- bkey_encode this i j ;;
    let key := Z.shiftr bkey1 1 in
    let bkey1 := Z.shiftl key 1 in
    let bkey2 := bkey1 + 1 in
    Return (bkey1, Some bkey2)
  else
    bkey <- bkey_encode this i j ;;
    Return (bkey, None).

End Methods.

End GSfc4q.

(** The concrete curves as implementations of the two methods. *)
#[export] Instance Morton : GSfc4q.Curve := {|
  GSfc4q.bkey_decode := fun _ d => Return (GSfc4qLbl_Morton.bkey_decode d);
  GSfc4q.bkey_encode := fun _ x y => Return (GSfc4qLbl_Morton.bkey_encode x y)
|}.

#[export] Instance Hilbert : GSfc4q.Curve := {|
  GSfc4q.bkey_decode := fun this bkey =>
    of_option (GSfc4qLbl_Hilbert._bkey_decode bkey (GSfc4q.nRefRows this));
  GSfc4q.bkey_encode := fun this i j =>
    of_option (GSfc4qLbl_Hilbert._bkey_encode i j (GSfc4q.nRefRows this))
|}.

(** ** Sized integers: [class SizedBigInt] *)

Module SizedBigInt.

Local Open Scope string_scope.
Local Open Scope Z_scope.

(** *** The class-level tables [kx_baseLabel] and [kx_tr] *)

(** An entry of the literal in [kx_RefreshDefaults] (the properties
    [ref], [case] and [regex] are read by no method and left out). *)
Record rawDef : Type := {
  r_base : option Z;
  r_alphabet : string;
  r_isDefault : bool;
  r_isHierar : bool
}.

(** An entry once [kx_baseLabel_setRules] has completed it. *)
Record baseDef : Type := {
  base : Z;
  alphabet : string;
  isDefault : bool;
  isHierar : bool;
  bitsPerDigit : Z;
  label : string
}.

Inductive entry : Type :=
| Def (r : baseDef)
| Alias (isAlias : string).

Record statics : Type := {
  kx_baseLabel : object entry;
  kx_tr : object (object string)
}.

(** A computation over the class-level tables; [None] is the class
    before its first instance, with both tables undefined. *)
Definition SM (A : Type) : Type := option statics -> outcome A * option statics.

Definition ret {A} (a : A) : SM A := fun st => (Return a, st).
Definition raise {A} (e : error) : SM A := fun st => (Throw e, st).
Definition lift {A} (m : outcome A) : SM A := fun st => (m, st).
Definition sbind {A B} (m : SM A) (k : A -> SM B) : SM B :=
  fun st =>
    match m st with
    | (Return a, st') => k a st'
    | (Throw e, st') => (Throw e, st')
    | (Unfinished, st') => (Unfinished, st')
    end.

Declare Scope sm_scope.
Delimit Scope sm_scope with sm.
Notation "x <- m ;; k" := (sbind m (fun x => k))
  (at level 61, m at next level, right associativity) : sm_scope.
Notation "m ;; k" := (sbind m (fun _ => k))
  (at level 61, right associativity) : sm_scope.
Local Open Scope sm_scope.

(** Reading a table of the class: a [TypeError] while it is undefined. *)
Definition tables : SM statics :=
  fun st => match st with
            | Some s => (Return s, st)
            | None => (Throw TypeError, st)
            end.

Definition put_tables (s : statics) : SM unit := fun _ => (Return tt, Some s).

Definition mkRaw (b : option Z) (a : string) (dflt hier : bool) : rawDef :=
  {| r_base := b; r_alphabet := a; r_isDefault := dflt; r_isHierar := hier |}.

Definition kx_baseLabel_literal : object rawDef :=
  [ ("2", mkRaw (Some 2) "01" false false);
    ("2h", mkRaw (Some 2) "01" true true);
    ("4h", mkRaw (Some 4) "0123GQ" false true);
    ("8h", mkRaw (Some 8) "01234567GHMQRV" false true);
    ("16h", mkRaw (Some 16) "0123456789abcdefGHJKMNPQRSTVZY" false true);
    ("4js", mkRaw None "0123" true false);
    ("8js", mkRaw None "01234567" true false);
    ("16js", mkRaw None "0123456789abcdef" true false);
    ("32hex", mkRaw None "0123456789abcdefghijklmnopqrstuv" true false);
    ("32nvu", mkRaw None "0123456789BCDFGHJKLMNPQRSTUVWXYZ" false false);
    ("32rfc", mkRaw None "ABCDEFGHIJKLMNOPQRSTUVWXYZ234567" false false);
    ("32ghs", mkRaw None "0123456789bcdefghjkmnpqrstuvwxyz" false false);
    ("64url", mkRaw None
       "ABCDEFGHIJKLMNOPQRSTUVWXYZabcdefghijklmnopqrstuvwxyz0123456789-_"
       true false) ].

(** One round of the loop of [kx_baseLabel_setRules]: complete the
    entry of key [i] and register the alias of a default base.
    [Math.log2] is exact on the powers of two the literal uses, and
    [i != r.base] compares the key with the decimal text of the base.
    The entry met at [i] is an alias only if an earlier round wrote one
    there, and then [r.alphabet.length] is a [TypeError]. *)
Definition setRules_entry (i : string) (r : rawDef) (tbl : object entry)
  : outcome (object entry) :=
  match obj_get i tbl with
  | Some (Alias _) => Throw TypeError
  | _ =>
      let b := match r_base r with
               | Some b => if b =? 0 then strlen (r_alphabet r) else b
               | None => strlen (r_alphabet r)
               end in
      if String.eqb (r_alphabet r) "" then Throw (Error "err2")
      else if r_isHierar r && (strlen (r_alphabet r) <? b * 2 - 2)
      then Throw (Error "err3")
      else
        let d := {| base := b; alphabet := r_alphabet r;
                    isDefault := r_isDefault r; isHierar := r_isHierar r;
                    bitsPerDigit := Z.log2 b; label := i |} in
        let tbl := obj_set i (Def d) tbl in
        Return (if r_isDefault r && negb (String.eqb i (toString10 b))
                then obj_set (toString10 b) (Alias i) tbl
                else tbl)
  end.

Fixpoint setRules_loop (scan : object rawDef) (tbl : object entry)
  : outcome (object entry) :=
  match scan with
  | [] => Return tbl
  | (i, r) :: scan' =>
      JS.bind (setRules_entry i r tbl) (setRules_loop scan')
  end.

(** [kx_baseLabel_setRules()] over the keys of the literal. *)
Definition kx_baseLabel_setRules (lit : object rawDef) : outcome (object entry) :=
  setRules_loop lit [].

(** [kx_RefreshDefaults()]: builds both tables once. *)
Definition kx_RefreshDefaults : SM unit :=
  fun st =>
    match st with
    | Some _ => (Return tt, st)
    | None =>
        match kx_baseLabel_setRules kx_baseLabel_literal with
        | Return tbl => (Return tt, Some {| kx_baseLabel := tbl; kx_tr := [] |})
        | Throw e => (Throw e, None)
        | Unfinished => (Unfinished, None)
        end
    end.

(** [baseLabel(label, retLabel)].  The label is given as text (a
    numeric label as its decimal text, which is what [String(label)]
    makes of it); the empty text stands for a falsy label.  The result
    is the entry together with the key it is stored under, which
    identifies the object for a later assignment to one of its
    properties; with [retLabel] the method returns the [label] of that
    entry.  In the tables [kx_RefreshDefaults] builds every alias names a
    completed entry, and nothing adds an alias later; the other case
    is a [TypeError] here. *)
Definition baseLabel (lbl : string) : SM (string * baseDef) :=
  s <- tables ;;
  let lbl := if String.eqb lbl "" then "2" else lbl in
  let lbl := toLowerCase lbl in
  let lbl := if String.eqb (slice lbl 0 3) "base" then slice lbl 3 (strlen lbl)
             else lbl in
  match obj_get lbl (kx_baseLabel s) with
  | None => raise (Error "label not exists, must be registered")
  | Some (Def r) => ret (lbl, r)
  | Some (Alias a) =>
      match obj_get a (kx_baseLabel s) with
      | Some (Def r) => ret (a, r)
      | _ => raise TypeError
      end
  end.

(** The names a plain object such as [kx_baseLabel] inherits from
    [Object.prototype]: [obj[k]] finds them when the object has no
    property [k] of its own. *)
Definition Object_prototype : list string :=
  ["constructor"; "__defineGetter__"; "__defineSetter__"; "hasOwnProperty";
   "__lookupGetter__"; "__lookupSetter__"; "isPrototypeOf";
   "propertyIsEnumerable"; "toString"; "valueOf"; "__proto__";
   "toLocaleString"].

Definition inherited (k : string) : bool :=
  existsb (String.eqb k) Object_prototype.

(** What [baseLabel] returns for any label: a base of the table with
    the key it is stored under, or the inherited property of that
    name. *)
Inductive resolved : Type :=
| Base (k : string) (r : baseDef)
| Inherited (k : string).

(** [baseLabel(label)] for any label, the inherited names included:
    their values (functions, or the prototype itself) are truthy and
    have no [isAlias], so they are returned as they are and no error
    is raised. *)
Definition baseLabel_any (lbl : string) : SM resolved :=
  s <- tables ;;
  let lbl := if String.eqb lbl "" then "2" else lbl in
  let lbl := toLowerCase lbl in
  let lbl := if String.eqb (slice lbl 0 3) "base" then slice lbl 3 (strlen lbl)
             else lbl in
  match obj_get lbl (kx_baseLabel s) with
  | None =>
      if inherited lbl then ret (Inherited lbl)
      else raise (Error "label not exists, must be registered")
  | Some (Def r) => ret (Base lbl r)
  | Some (Alias a) =>
      match obj_get a (kx_baseLabel s) with
      | Some (Def r) => ret (Base a r)
      | _ => raise TypeError
      end
  end.

(** [objSwap(obj)]: the entries are folded in enumeration order, a
    later one replacing an earlier one with the same value. *)
Definition objSwap (obj : object string) : object string :=
  fold_left (fun acc kv => obj_set (snd kv) (fst kv) acc) (Object_entries obj) [].

(** The first loop of [kx_trConfig], over the digits [i = from ..
    base-1] ([n] rounds). *)
Fixpoint fill_digits (n : nat) (i : Z) (r : baseDef) (tr : object string)
  : object string :=
  match n with
  | O => tr
  | S n' =>
      let c := charAt (alphabet r) i in
      fill_digits n' (i + 1) r
        (obj_set c (padStart (toString2 i) (bitsPerDigit r) "0") tr)
  end.

Definition ordList (b : Z) : list string :=
  if b =? 4 then ["0"; "1"]
  else if b =? 8 then ["0"; "00"; "01"; "1"; "10"; "11"]
  else ["0"; "00"; "000"; "001"; "01"; "010"; "011";
        "1"; "10"; "100"; "101"; "11"; "110"; "111"].

(** The second loop, over [ordList]. *)
Fixpoint fill_hier (l : list string) (i : Z) (r : baseDef) (tr : object string)
  : object string :=
  match l with
  | [] => tr
  | bitsStr :: l' =>
      let c := charAt (alphabet r) (base r + i) in
      fill_hier l' (i + 1) r (obj_set c bitsStr tr)
  end.

(** [kx_trConfig(baseLabel)]: fills [kx_tr[label+'-to-2']], reusing the
    object when it exists, and stores its swap. *)
Definition kx_trConfig (baseLbl : string) : SM unit :=
  s <- tables ;;
  match obj_get baseLbl (kx_baseLabel s) with
  | Some (Def r) =>
      if base r =? 2 then ret tt
      else if base r >? 64 then raise (Error "Base is invalid")
      else
        let lbl := label r ++ "-to-2" in
        let tr0 := match obj_get lbl (kx_tr s) with
                   | Some tr => tr
                   | None => []
                   end in
        let tr1 := fill_digits (Z.to_nat (base r)) 0 r tr0 in
        let tr2 := if isHierar r then fill_hier (ordList (base r)) 0 r tr1
                   else tr1 in
        put_tables {| kx_baseLabel := kx_baseLabel s;
                      kx_tr := obj_set ("2-to-" ++ label r) (objSwap tr2)
                                 (obj_set lbl tr2 (kx_tr s)) |}
  | _ => raise (Error "label not exists or is alias")
  end.

(** *** Instances *)

Record t : Type := { val : option Z; bits : Z }.

Definition fromNull : t := {| val := None; bits := 0 |}.

(** [setBits_byMax(maxBits, inputLen, onErr_cutLSD)]: the result is
    the returned pair [[cutByMax, maxBits]] and the value assigned to
    [this.bits].  [maxBits] is [None] for [null] or [undefined]; it is
    an integer, on which [Math.ceil] is the identity. *)
Definition setBits_byMax (maxBits : option Z) (inputLen : Z) (onErr_cutLSD : bool)
  : outcome ((bool * Z) * Z) :=
  match maxBits with
  | Some mb =>
      if mb =? 0 then Return ((false, 0), inputLen)
      else
        let forceBits := if mb <? 0 then 0 else 1 in
        let mb := Z.abs mb in
        let forceBits := if forceBits =? 0 then forceBits else mb in
        if inputLen >? mb then
          if onErr_cutLSD then Return ((true, mb), mb)
          else Throw (Error "ERR4")
        else if inputLen <? forceBits then Return ((false, mb), forceBits)
        else Return ((false, mb), inputLen)
  | None => Return ((false, 0), inputLen)
  end.

(** The argument of [fromInt], by its [typeof]: a bigint, a number
    (integer-valued), an object [{val, bits}], or anything else. *)
Inductive intArg : Type :=
| ABigInt (z : Z)
| ANumber (n : Z)
| AObject (v : Z) (b : Z)
| AOther.

(** [fromInt(val, maxBits, onErr_cutLSD)].  The test is
    [t == 'bigint' || isNum], so an object takes the last branch;
    [val >>> 0] is the number modulo [2^32]. *)
Definition fromInt (v : intArg) (maxBits : option Z) (onErr_cutLSD : bool)
  : outcome t :=
  let go (z : Z) : outcome t :=
    let len := strlen (toString2 z) in
    JS.bind (setBits_byMax maxBits len onErr_cutLSD) (fun cutBits =>
      let b := snd cutBits in
      Return {| val := Some (if fst (fst cutBits) then Z.shiftr z (len - b) else z);
                bits := b |}) in
  match v with
  | ABigInt z => go z
  | ANumber n => go (n mod 2 ^ 32)
  | AObject _ _ => Return fromNull
  | AOther => Return fromNull
  end.

(** [fromBitString(strval, maxBits, onErr_cutLSD)] *)
Definition fromBitString (strval : string) (maxBits : option Z)
           (onErr_cutLSD : bool) : outcome t :=
  if String.eqb strval "" then Return fromNull
  else
    JS.bind (setBits_byMax maxBits (strlen strval) onErr_cutLSD) (fun cutBits =>
      let strval := if fst (fst cutBits) then slice strval 0 (snd (fst cutBits))
                    else strval in
      JS.bind (BigInt_prefixed 2 strval) (fun v =>
        Return {| val := Some v; bits := snd cutBits |})).

(** [fromHexString(strval, maxBits, onErr_cutLSD)] *)
Definition fromHexString (strval : string) (maxBits : option Z)
           (onErr_cutLSD : bool) : outcome t :=
  if String.eqb strval "" then Return fromNull
  else
    let len := strlen strval * 4 in
    JS.bind (BigInt_prefixed 16 strval) (fun v =>
      fromInt (AObject v len) maxBits onErr_cutLSD).

(** [fromString(strval, radix, maxBits, onErr_cutLSD)].  The second
    condition, [r.label='16js'], is an assignment: it stores the text in
    the entry and is true, so the translation through [kx_tr] written
    after it is never reached. *)
Definition fromString (strval : string) (radix : string) (maxBits : option Z)
           (onErr_cutLSD : bool) : SM t :=
  kr <- baseLabel radix ;;
  let '(k, r) := kr in
  if String.eqb strval "" then ret fromNull
  else if base r =? 2 then lift (fromBitString strval maxBits onErr_cutLSD)
  else
    s <- tables ;;
    put_tables {| kx_baseLabel :=
                    obj_set k (Def {| base := base r; alphabet := alphabet r;
                                      isDefault := isDefault r;
                                      isHierar := isHierar r;
                                      bitsPerDigit := bitsPerDigit r;
                                      label := "16js" |}) (kx_baseLabel s);
                  kx_tr := kx_tr s |} ;;
    lift (fromHexString strval maxBits onErr_cutLSD).

(** The first argument of [fromAny] and of the constructor: [null] or
    [undefined], a bigint, a number, a string, or an instance (arrays
    and plain objects are not used by the classes above). *)
Inductive anyArg : Type :=
| VNull
| VBigInt (z : Z)
| VNumber (n : Z)
| VString (s : string)
| VSized (x : t).

(** [fromAny(val, radix, maxBits, onErr_cutLSD)]; a falsy [radix] is
    the empty text. *)
Definition fromAny (v : anyArg) (radix : string) (maxBits : option Z)
           (onErr_cutLSD : bool) : SM t :=
  match v with
  | VSized x =>
      match val x with
      | Some z => lift (fromInt (ABigInt z) (Some (bits x)) onErr_cutLSD)
      | None => lift (fromInt AOther (Some (bits x)) onErr_cutLSD)
      end
  | VString str =>
      let radix := if String.eqb radix "" then "4" else radix in
      fromString str radix maxBits onErr_cutLSD
  | VBigInt z => lift (fromInt (ABigInt z) maxBits onErr_cutLSD)
  | VNumber n => lift (fromInt (ANumber n) maxBits onErr_cutLSD)
  | VNull => lift (fromInt AOther maxBits onErr_cutLSD)
  end.

(** [new SizedBigInt(val, radix, maxBits=null, onErr_cutLSD=true)];
    an omitted last argument is [None]. *)
Definition constructor (v : anyArg) (radix : string) (maxBits : option Z)
           (onErr_cutLSD : option bool) : SM t :=
  kx_RefreshDefaults ;;
  fromAny v radix maxBits (match onErr_cutLSD with Some b => b | None => true end).

(** [toBitString()] *)
Definition toBitString (this : t) : string :=
  match val this with
  | None => ""
  | Some v => padStart (toString2 v) (bits this) "0"
  end.

(** [tr[k]] appended to a string: [undefined] is appended as text. *)
Definition tr_text (tr : object string) (k : string) : string :=
  match obj_get k tr with
  | Some v => v
  | None => "undefined"
  end.

(** [for (let i=0; i<b.length; i+=bitsPerDigit) r += tr[b.slice(i,i+bitsPerDigit)]] *)
Fixpoint toString_loop (fuel : nat) (tr : object string) (bpd : Z)
         (b : string) (i : Z) (r : string) : outcome string :=
  if i <? strlen b then
    match fuel with
    | O => Unfinished
    | S fuel' =>
        toString_loop fuel' tr bpd b (i + bpd) (r ++ tr_text tr (slice b i (i + bpd)))
    end
  else Return r.

(** [toString(radix)] with a radix (without one the method prints the
    pair of properties, which is not embedded). *)
Definition toString (this : t) (radix : string) : SM string :=
  kr <- baseLabel radix ;;
  let rTo := snd kr in
  match val this with
  | None => ret ""
  | Some _ =>
      let b := toBitString this in
      if base rTo =? 2 then ret b
      else
        let trLabel := "2-to-" ++ label rTo in
        s <- tables ;;
        match obj_get trLabel (kx_tr s) with
        | None => kx_trConfig (label rTo)
        | Some _ => ret tt
        end ;;
        s <- tables ;;
        match obj_get trLabel (kx_tr s) with
        | None => if 0 <? strlen b then raise TypeError else ret ""
        | Some tr =>
            lift (toString_loop (String.length b) tr (bitsPerDigit rTo) b 0 "")
        end
  end.

(** [fixbits_last()]: [2n**BigInt(this.bits) - 1n]; a negative
    exponent raises a [RangeError]. *)
Definition fixbits_last (this : t) : outcome Z :=
  if bits this <? 0 then Throw RangeError else Return (2 ^ bits this - 1).

(** [fixbits_next(cycle=false)]; the result [None] is [null].  The
    comparison [!==] of [null] with a bigint holds, and [null + 1n]
    raises a [TypeError]. *)
Definition fixbits_next (this : t) (cycle : option bool)
  : outcome (option Z) :=
  JS.bind (fixbits_last this) (fun last =>
    match val this with
    | Some v =>
        if negb (v =? last) then Return (Some (v + 1))
        else if match cycle with Some c => c | None => false end
             then Return (Some 0)
             else Return None
    | None => Throw TypeError
    end).

(** *** BigInt utilities *)

(** [ilog2(n)] *)
Definition ilog2 (n : Z) : Z :=
  strlen (toString2 n) - (if n <? 0 then 2 else 1).

(** [bigint_divrest(N, D)]; the division by [0n] raises a
    [RangeError]. *)
Definition bigint_divrest (N D : Z) : outcome (Z * Z) :=
  if D =? 0 then Throw RangeError
  else
    let I := Z.quot N D in
    let R := N - I * D in
    Return (I, R).

(** [bigint_div(N, D, P=64n)]; a negative exponent of [2n**P] raises
    a [RangeError], as the division by [0n] does. *)
Definition bigint_div (N D : Z) (P : option Z) : outcome (Z * Z) :=
  let P := match P with Some p => p | None => 64 end in
  if D =? 0 then Throw RangeError
  else
    let I := Z.quot N D in
    let R := N - I * D in
    if P <? 0 then Throw RangeError
    else
      let F := Z.quot (2 ^ P) D * R in
      Return (I, F).

End SizedBigInt.

(** ** Labelled curve: [class GSfc4qLbl] *)

Module GSfc4qLbl.

Import SizedBigInt.
Local Open Scope string_scope.
Local Open Scope Z_scope.
Local Open Scope sm_scope.

(** The instance: the properties of [GSfc4q] and its own; [base] is
    the empty text while it is [null], [id0] and [id0_maxBits] are
    [None] while undefined or [null]. *)
Record state : Type := {
  grid : GSfc4q.state;
  base : string;
  sbiID : SizedBigInt.t;
  id0 : option Z;
  id0_maxBits : option Z
}.

Definition with_sbiID (this : state) (x : SizedBigInt.t) : state :=
  {| grid := grid this; base := base this; sbiID := x;
     id0 := id0 this; id0_maxBits := id0_maxBits this |}.

(** [lblRefresh(base, id0, id0_maxBits)], with a bigint or no [id0]. *)
Definition lblRefresh (this : state) (b : string) (i0 : option Z)
           (i0_maxBits : option Z) : SM state :=
  let i0_maxBits := match i0_maxBits with
                    | Some m => if m =? 0 then id0_maxBits this else Some m
                    | None => id0_maxBits this
                    end in
  this <- (if negb (String.eqb b "") || String.eqb (base this) "" then
             let b := if String.eqb b "" then "4h" else b in
             kr <- baseLabel b ;;
             let b := label (snd kr) in
             if negb (String.eqb b (base this)) then
               kx_trConfig b ;;
               ret {| grid := grid this; base := b; sbiID := sbiID this;
                      id0 := id0 this; id0_maxBits := id0_maxBits this |}
             else ret this
           else ret this) ;;
  id0_tmp <- SizedBigInt.constructor
               (match i0 with Some z => VBigInt z | None => VNull end)
               (base this) i0_maxBits (Some true) ;;
  match i0 with
  | Some z =>
      if match id0 this with Some z' => negb (z =? z') | None => true end
      then ret {| grid := grid this; base := base this; sbiID := fromNull;
                  id0 := val id0_tmp; id0_maxBits := Some (bits id0_tmp) |}
      else ret this
  | None => ret this
  end.

(** [new GSfc4qLbl(level, base, id0, id0_maxBits)] *)
Definition constructor (lvl : option Q) (b : string) (i0 : option Z)
           (i0_maxBits : option Z) : SM state :=
  g <- lift (GSfc4q.constructor lvl) ;;
  x <- SizedBigInt.constructor VNull "" None None ;;
  lblRefresh {| grid := g; base := ""; sbiID := x; id0 := None;
                id0_maxBits := None |} b i0 i0_maxBits.

(** [setKey(key, onErr_cutLSD=true)] *)
Definition setKey (this : state) (key : anyArg) (onErr_cutLSD : option bool)
  : SM state :=
  x <- fromAny key (base this) (Some (GSfc4q.keyBits (grid this)))
         (match onErr_cutLSD with Some b => b | None => true end) ;;
  ret (with_sbiID this x).

(** [setBkey(bkey, onErr_cutLSD=true)] *)
Definition setBkey (this : state) (bkey : anyArg) (onErr_cutLSD : option bool)
  : SM state :=
  x <- fromAny bkey (base this) (Some (GSfc4q.bkeyBits (grid this)))
         (match onErr_cutLSD with Some b => b | None => true end) ;;
  ret (with_sbiID this x).


(** [setId0(id0, id0_maxBits)] *)
Definition setId0 (this : state) (i0 : option Z) (i0_maxBits : option Z)
  : SM state :=
  lblRefresh this "" i0 i0_maxBits.


(** [id_toString(otherbase=null)]; no other base is the empty text. *)
Definition id_toString (this : state) (otherbase : string) : SM string :=
  toString (sbiID this) (if String.eqb otherbase "" then base this else otherbase).

Section Methods.
Context {curve : GSfc4q.Curve}.

(** [setBkey_byIJ(i, j)], for a pair of integers given as two
    arguments or as one array.  [max] is computed on Numbers. *)
Definition setBkey_byIJ (this : state) (i j : Z) : SM state :=
  let max := Number (Number (GSfc4q.nRefRows (grid this)) - 1) in
  if (i >? max) || (j >? max) then ret this
  else
    r <- lift (GSfc4q.key_encode (grid this) i j) ;;
    let bkey := fst r in
    setKey this
      (VBigInt (if GSfc4q.isHalf (grid this) then Z.quot bkey 2 else bkey))
      None.

End Methods.

End GSfc4qLbl.

(* ================================================================== *)
(** * Part II: notions used in the statements                          *)
(* ================================================================== *)

Module Notions.

Local Open Scope string_scope.
Local Open Scope Z_scope.

(** ** Grids *)

(** The grids of level 0.5 and of level 1, as [refresh] builds them. *)
Definition level_half : GSfc4q.state :=
  {| GSfc4q.level := 1 # 2; GSfc4q.blevel := 1; GSfc4q.isHalf := true;
     GSfc4q.nKeys := 2; GSfc4q.nBKeys := 4; GSfc4q.keyBits := 1;
     GSfc4q.bkeyBits := 2; GSfc4q.nRefRows := 2 |}.

Definition level_one : GSfc4q.state :=
  {| GSfc4q.level := 1; GSfc4q.blevel := 1; GSfc4q.isHalf := false;
     GSfc4q.nKeys := 4; GSfc4q.nBKeys := 4; GSfc4q.keyBits := 2;
     GSfc4q.bkeyBits := 2; GSfc4q.nRefRows := 2 |}.

(** The grid of level 0: one cell, whose key 0 is written on one bit. *)
Definition level_zero : GSfc4q.state :=
  {| GSfc4q.level := 0; GSfc4q.blevel := 0; GSfc4q.isHalf := false;
     GSfc4q.nKeys := 1; GSfc4q.nBKeys := 1; GSfc4q.keyBits := 1;
     GSfc4q.bkeyBits := 1; GSfc4q.nRefRows := 1 |}.

(** A level that is a Number or is left out, among the arguments of
    any type. *)
Definition number_or_none (lvl : option Q) : GSfc4q.level_arg :=
  match lvl with
  | Some q => GSfc4q.LNumber q
  | None => GSfc4q.LNone
  end.

Definition multiple_of_half (q : Q) : Prop :=
  exists k : Z, (q == inject_Z k * (1 # 2))%Q.

(** The double nearest to 0.3: [5404319552844595 / 2^54]. *)
Definition double_0_3 : Q := 5404319552844595 # 18014398509481984.

(** ** Bitwise-or homomorphisms *)

Definition lor_hom (f : Z -> Z) : Prop :=
  f 0 = 0 /\ forall a b, f (Z.lor a b) = Z.lor (f a) (f b).

(** ** The rounds of the Hilbert loops *)

(** One round of the decoding loop, on the coordinates. *)
Definition decode_round (s t : Z) (ij : Z * Z) : Z * Z :=
  let rx := Z.land 1 (Z.quot t 2) in
  let ry := Z.land 1 (Z.lxor t rx) in
  let ij := GSfc4qLbl_Hilbert._rot s ij rx ry in
  (fst ij + s * rx, snd ij + s * ry).

(** The quadrant bit the encoding loop reads. *)
Definition encode_bit (v s : Z) : Z := if Z.land v s >? 0 then 1 else 0.

(** The coordinates after [m] rounds of the decoding loop. *)
Fixpoint hdecode (m : nat) (key : Z) : Z * Z :=
  match m with
  | O => (0, 0)
  | S m' => decode_round (2 ^ Z.of_nat m') (Z.quot key (4 ^ Z.of_nat m'))
              (hdecode m' key)
  end.

(** What the last [m] rounds of the encoding loop add to the key. *)
Fixpoint hencode (m : nat) (ij : Z * Z) : Z :=
  match m with
  | O => 0
  | S m' =>
      let s := 2 ^ Z.of_nat m' in
      let rx := encode_bit (fst ij) s in
      let ry := encode_bit (snd ij) s in
      s * s * Z.lxor (3 * rx) ry
      + hencode m' (GSfc4qLbl_Hilbert._rot s ij rx ry)
  end.

(** ** Bit-strings *)

Definition bit_char (b : bool) : ascii := if b then "1"%char else "0"%char.

Fixpoint is_bitstring (s : string) : bool :=
  match s with
  | EmptyString => true
  | String c s' => (Ascii.eqb c "0" || Ascii.eqb c "1") && is_bitstring s'
  end.

(** The [n] low bits of [v] as text, most significant first. *)
Fixpoint render (n : nat) (v : Z) : string :=
  match n with
  | O => ""
  | S n' => String (bit_char (Z.testbit v (Z.of_nat n'))) (render n' v)
  end.

(** The number a bit-string denotes, continuing from [acc]. *)
Fixpoint bits_value (s : string) (acc : Z) : Z :=
  match s with
  | EmptyString => acc
  | String c s' => bits_value s' (acc * 2 + (if Ascii.eqb c "1" then 1 else 0))
  end.

Definition with_prefix (r : string) (m : outcome string) : outcome string :=
  match m with
  | Return x => Return (r ++ x)
  | Throw e => Throw e
  | Unfinished => Unfinished
  end.

(** ** The tables of the class *)

Import SizedBigInt.
Local Open Scope sm_scope.

(** The tables after the first instance is made. *)
Definition defaults : statics :=
  Eval vm_compute in
    match kx_RefreshDefaults None with
    | (_, Some s) => s
    | (_, None) => {| kx_baseLabel := []; kx_tr := [] |}
    end.

(** The table of bases is the one [kx_RefreshDefaults] builds (or is
    still to be built). *)
Definition labels_intact (st : option statics) : Prop :=
  match st with
  | Some s => kx_baseLabel s = kx_baseLabel defaults
  | None => True
  end.

(** The hierarchical bases of the table: [2h], [4h], [8h], [16h]. *)
Definition hier_entry (radix : string) (r : baseDef) : Prop :=
  obj_get radix (kx_baseLabel defaults) = Some (Def r) /\ isHierar r = true.

(** A fresh instance filled by [fromBitString(b)] and printed by
    [toString(radix)]. *)
Definition render_bits (radix b : string) : SM string :=
  constructor VNull "" None None ;;
  x <- lift (fromBitString b None true) ;;
  toString x radix.

(** ** Cells *)

(** Two cells of the grid that share an edge. *)
Definition adjacent (a b : Z * Z) : Prop :=
  Z.abs (fst b - fst a) + Z.abs (snd b - snd a) = 1.

(** A cell is one of the cells [key_decode] returns. *)
Definition cell_of (ij : Z * Z) (r : (Z * Z) * option (Z * Z)) : Prop :=
  fst r = ij \/ snd r = Some ij.


(** A cell of the grid. *)
Definition in_grid (g : GSfc4q.state) (ij : Z * Z) : Prop :=
  0 <= fst ij < GSfc4q.nRefRows g /\ 0 <= snd ij < GSfc4q.nRefRows g.

(** The two methods of a curve are inverse of each other, between the
    bkeys and the cells of a grid. *)
Definition exact_on (curve : GSfc4q.Curve) (g : GSfc4q.state) : Prop :=
  (forall b, 0 <= b < GSfc4q.nBKeys g ->
     exists ij, GSfc4q.bkey_decode g b = Return ij
                /\ in_grid g ij
                /\ GSfc4q.bkey_encode g (fst ij) (snd ij) = Return b)
  /\ (forall ij, in_grid g ij ->
     exists b, GSfc4q.bkey_encode g (fst ij) (snd ij) = Return b
               /\ 0 <= b < GSfc4q.nBKeys g
               /\ GSfc4q.bkey_decode g b = Return ij).

(** The bkeys of a key: itself, or at a half level its two halves. *)
Definition bkeys_of (g : GSfc4q.state) (key : Z) : Z * option Z :=
  if GSfc4q.isHalf g then (2 * key, Some (2 * key + 1)) else (key, None).

(** The key of the bkeys [key_encode] returns, as [setBkey_byIJ]
    takes it. *)
Definition key_of (g : GSfc4q.state) (r : Z * option Z) : Z :=
  if GSfc4q.isHalf g then Z.quot (fst r) 2 else fst r.

(** Decoding a key and encoding a cell found gives the bkeys of the
    key back; at a half level the two cells found are distinct. *)
Definition key_round_trip (curve : GSfc4q.Curve) (g : GSfc4q.state) (key : Z)
  : Prop :=
  exists ij0 o,
    GSfc4q.key_decode g key = Return (ij0, o)
    /\ in_grid g ij0
    /\ GSfc4q.key_encode g (fst ij0) (snd ij0) = Return (bkeys_of g key)
    /\ match o with
       | Some ij1 =>
           GSfc4q.isHalf g = true /\ in_grid g ij1 /\ ij1 <> ij0
           /\ GSfc4q.key_encode g (fst ij1) (snd ij1)
              = Return (bkeys_of g key)
       | None => GSfc4q.isHalf g = false
       end.

(** Encoding a cell and decoding the key found gives the cell back,
    alone or as one of the two cells of the key. *)
Definition cell_round_trip (curve : GSfc4q.Curve) (g : GSfc4q.state)
           (ij : Z * Z) : Prop :=
  exists r c,
    GSfc4q.key_encode g (fst ij) (snd ij) = Return r
    /\ 0 <= key_of g r < GSfc4q.nKeys g
    /\ GSfc4q.key_decode g (key_of g r) = Return c
    /\ cell_of ij c.

(** The grid of level 1.5, as [refresh] builds it. *)
Definition level_one_and_half : GSfc4q.state :=
  {| GSfc4q.level := 3 # 2; GSfc4q.blevel := 2; GSfc4q.isHalf := true;
     GSfc4q.nKeys := 8; GSfc4q.nBKeys := 16; GSfc4q.keyBits := 3;
     GSfc4q.bkeyBits := 4; GSfc4q.nRefRows := 4 |}.

(** ** Labels *)

(** [setBkey_byIJ(i,j)] stores, on [keyBits] bits, a key of the grid
    whose cell, or one of whose two cells, is [(i,j)]; the tables of
    the class are left as they are. *)
Definition labels_cell (curve : GSfc4q.Curve) (this : GSfc4qLbl.state)
           (i j : Z) (st : option SizedBigInt.statics) : Prop :=
  exists key c,
    GSfc4qLbl.setBkey_byIJ this i j st
    = (Return (GSfc4qLbl.with_sbiID this
                 {| SizedBigInt.val := Some key;
                    SizedBigInt.bits := GSfc4q.keyBits (GSfc4qLbl.grid this) |}),
       st)
    /\ 0 <= key < GSfc4q.nKeys (GSfc4qLbl.grid this)
    /\ GSfc4q.key_decode (GSfc4qLbl.grid this) key = Return c
    /\ cell_of (i, j) c.

(** The width [setId] enforces: [keyBits] and the bits of the grid
    prefix. *)
Definition id_bits (this : GSfc4qLbl.state) : Z :=
  GSfc4q.keyBits (GSfc4qLbl.grid this)
  + match GSfc4qLbl.id0_maxBits this with Some m => m | None => 0 end.

(** ** Translation tables *)

(** The bit-strings of [n] digits, and those of 1 to [n] digits: the
    texts [toString] looks up in a table of [n] bits per digit. *)
Fixpoint bitstrings (n : nat) : list string :=
  match n with
  | O => [""]
  | S n' => flat_map (fun s => [String "0" s; String "1" s]) (bitstrings n')
  end.

Definition chunks_upto (n : nat) : list string :=
  flat_map bitstrings (seq 1 n).

Definition single_char (s : string) : bool :=
  match s with
  | String _ EmptyString => true
  | _ => false
  end.

(** A table gives every text of 1 to [n] binary digits one character
    of its own. *)
Definition one_char_each (tr : object string) (n : nat) : bool :=
  let cs := chunks_upto n in
  forallb (fun c => single_char (tr_text tr c)) cs
  && forallb (fun c1 =>
       forallb (fun c2 =>
         implb (String.eqb (tr_text tr c1) (tr_text tr c2)) (String.eqb c1 c2))
         cs) cs.

(** The table [kx_tr['2-to-'+label]] that [kx_trConfig] builds on
    the tables of a class that has built none yet. *)
Definition table_from_bits (radix : string) : object string :=
  match kx_trConfig radix (Some defaults) with
  | (_, Some s) =>
      match obj_get ("2-to-" ++ radix) (kx_tr s) with
      | Some tr => tr
      | None => []
      end
  | (_, None) => []
  end.

(** The tables of a class that has built no translation table yet:
    before the first instance, or as the first instance leaves them. *)
Definition fresh_tables (st : option statics) : Prop :=
  st = None \/ st = Some defaults.

(** The bases of the table that are not hierarchical: [4js], [8js],
    [16js], [32hex], [32nvu], [32rfc], [32ghs], [64url]. *)
Definition plain_entry (radix : string) (r : baseDef) : Prop :=
  obj_get radix (kx_baseLabel defaults) = Some (Def r) /\ isHierar r = false.

(** A key given to [setKey] as a BigInt or as a Number. *)
Definition key_arg (number : bool) (key : Z) : SizedBigInt.anyArg :=
  if number then SizedBigInt.VNumber key else SizedBigInt.VBigInt key.

(** Every key of a table has [n] characters. *)
Definition keys_of_length (tr : object string) (n : nat) : bool :=
  forallb (fun kv => Nat.eqb (String.length (fst kv)) n) tr.

End Notions.
Import Notions.

(* ================================================================== *)
(** * Part III: properties                                             *)
(* ================================================================== *)

(** ** Outcomes *)

Lemma throws_Return {A} (a : A) : ~ throws (Return a).
Proof. intros [e He]; discriminate. Qed.

Lemma throws_Throw {A} (e : error) : throws (@Throw A e).
Proof. now exists e. Qed.

(** ** [Number] is exact on 53 bits *)

Lemma Number_exact z : Z.abs z < 2 ^ 53 -> Number z = z.
Proof.
  intros Hz. unfold Number.
  destruct (Z.eq_dec z 0) as [-> | Hnz]; [reflexivity |].
  assert (Hlog : Z.log2 (Z.abs z) < 53) by (apply Z.log2_lt_pow2; lia).
  destruct (Z.leb_spec (Z.log2 (Z.abs z) - 52) 0); [reflexivity | lia].
Qed.

(** ** The loops of the Hilbert curve end within their bound *)

Section HilbertLoops.
Import GSfc4qLbl_Hilbert.

Lemma decode_loop_ends fuel : forall s n t ij,
    n <= s * 2 ^ Z.of_nat fuel ->
    exists r, decode_loop fuel s n t ij = Some r.
Proof.
  induction fuel as [| fuel IH]; intros s n t ij Hn; simpl decode_loop.
  - destruct (Z.ltb_spec s n); [simpl in Hn; lia | eauto].
  - destruct (Z.ltb_spec s n); [| eauto].
    apply IH. rewrite Nat2Z.inj_succ, Z.pow_succ_r in Hn; lia.
Qed.

Lemma encode_loop_ends fuel : forall s key ij,
    s < 2 ^ Z.of_nat fuel ->
    exists r, encode_loop fuel s key ij = Some r.
Proof.
  induction fuel as [| fuel IH]; intros s key ij Hs; simpl encode_loop.
  - destruct (Z.leb_spec 1 s); [simpl in Hs; lia | eauto].
  - destruct (Z.leb_spec 1 s); [| eauto].
    apply IH. rewrite Nat2Z.inj_succ, Z.pow_succ_r in Hs by lia.
    apply Z.quot_lt_upper_bound; lia.
Qed.

Lemma loop_bound_covers n : n <= 2 ^ Z.of_nat (Z.to_nat (Z.log2_up n)).
Proof.
  rewrite Z2Nat.id by apply Z.log2_up_nonneg.
  destruct (Z.le_gt_cases n 1) as [Hle | Hgt].
  - rewrite Z.log2_up_eqn0 by assumption. simpl; lia.
  - apply Z.log2_up_spec; lia.
Qed.

Lemma _bkey_decode_returns key nRefRows :
  exists ij, _bkey_decode key nRefRows = Some ij.
Proof.
  unfold _bkey_decode, loop_bound.
  destruct (decode_loop_ends (S (Z.to_nat (Z.log2_up nRefRows))) 1 nRefRows key (0, 0))
    as [r Hr].
  - pose proof (loop_bound_covers nRefRows).
    rewrite Nat2Z.inj_succ, Z.pow_succ_r by lia. lia.
  - rewrite Hr. eauto.
Qed.

Lemma _bkey_encode_returns i j nRefRows :
  exists key, _bkey_encode i j nRefRows = Some key.
Proof.
  unfold _bkey_encode, loop_bound.
  apply encode_loop_ends.
  pose proof (loop_bound_covers nRefRows).
  rewrite Nat2Z.inj_succ, Z.pow_succ_r by lia.
  destruct (Z.le_gt_cases nRefRows 0).
  - apply Z.le_lt_trans with 0; [| lia].
    destruct (Z.eq_dec nRefRows 0) as [-> | ?]; [reflexivity |].
    apply Z.quot_le_upper_bound; lia.
  - apply Z.le_lt_trans with nRefRows; [| lia].
    apply Z.quot_le_upper_bound; lia.
Qed.

End HilbertLoops.

(** ** The generalized curve: levels and key translation *)

Section Grid.
Import GSfc4q.
Local Open Scope js_scope.

Lemma constructor_half : constructor (Some (1 # 2)%Q) = Return level_half.
Proof. reflexivity. Qed.

Lemma constructor_one : constructor (Some 1%Q) = Return level_one.
Proof. reflexivity. Qed.

Lemma or_level_nonzero a b : ~ (b == 0)%Q -> ~ (or_level a b == 0)%Q.
Proof.
  intros Hb. destruct a as [x |]; simpl; [| assumption].
  destruct (Qeq_bool x 0) eqn:E; [assumption |].
  intros H. apply Qeq_bool_iff in H. congruence.
Qed.

Lemma chosen_level_nonzero this lvl :
  ~ (or_level lvl (or_level (option_map level this) 1) == 0)%Q.
Proof. apply or_level_nonzero, or_level_nonzero. discriminate. Qed.

Lemma or_level_given lvl b : ~ (lvl == 0)%Q -> or_level (Some lvl) b = lvl.
Proof.
  intros H. simpl. destruct (Qeq_bool lvl 0) eqn:E; [| reflexivity].
  apply Qeq_bool_iff in E. contradiction.
Qed.

Lemma Qceiling_negative (q : Q) : Qceiling q < 0 <-> (q <= -1)%Q.
Proof.
  split; intros H.
  - apply Qle_trans with (inject_Z (Qceiling q)); [apply Qle_ceiling |].
    change (-1)%Q with (inject_Z (-1)). rewrite <- Zle_Qle. lia.
  - pose proof (Qceiling_lt q) as Hlt.
    assert (Hc : (inject_Z (Qceiling q - 1) < inject_Z (-1))%Q)
      by (eapply Qlt_le_trans; [exact Hlt | exact H]).
    rewrite <- Zlt_Qlt in Hc. lia.
Qed.

Lemma Hilbert_bkey_decode this k :
  @bkey_decode Hilbert this k
  = of_option (GSfc4qLbl_Hilbert._bkey_decode k (nRefRows this)).
Proof. reflexivity. Qed.

Lemma Hilbert_bkey_encode this i j :
  @bkey_encode Hilbert this i j
  = of_option (GSfc4qLbl_Hilbert._bkey_encode i j (nRefRows this)).
Proof. reflexivity. Qed.

(** [C5] At a half level, for every key in [[0, nKeys)], [key_decode]
    returns the pair of [bkey_decode(2*key)] and
    [bkey_decode(2*key+1)]: for any curve as the composition of the two
    calls, and with their values for the Morton and the Hilbert curve.
    At level 0.5 with the Morton curve, [nKeys = 2],
    [key_decode(0) = ((0,0),(1,0))] and [key_decode(1) = ((0,1),(1,1))]. *)
Theorem key_decode_half_level (this : state) (key : Z) :
  isHalf this = true ->
  0 <= key < nKeys this ->
  (forall curve : Curve,
      key_decode this key
      = (ij0 <- bkey_decode this (2 * key) ;;
         ij1 <- bkey_decode this (2 * key + 1) ;;
         Return (ij0, Some ij1)))
  /\ key_decode (curve := Morton) this key
     = Return (GSfc4qLbl_Morton.bkey_decode (2 * key),
               Some (GSfc4qLbl_Morton.bkey_decode (2 * key + 1)))
  /\ (exists ij0 ij1,
         GSfc4qLbl_Hilbert._bkey_decode (2 * key) (nRefRows this) = Some ij0
         /\ GSfc4qLbl_Hilbert._bkey_decode (2 * key + 1) (nRefRows this) = Some ij1
         /\ key_decode (curve := Hilbert) this key = Return (ij0, Some ij1))
  /\ (constructor (Some (1 # 2)%Q) = Return level_half
      /\ nKeys level_half = 2
      /\ key_decode (curve := Morton) level_half 0 = Return ((0, 0), Some (1, 0))
      /\ key_decode (curve := Morton) level_half 1 = Return ((0, 1), Some (1, 1))).
Proof.
  intros Hh _. split; [| split; [| split]].
  - intros curve. unfold key_decode. now rewrite Hh.
  - unfold key_decode. now rewrite Hh.
  - destruct (_bkey_decode_returns (2 * key) (nRefRows this)) as [ij0 H0].
    destruct (_bkey_decode_returns (2 * key + 1) (nRefRows this)) as [ij1 H1].
    exists ij0, ij1. repeat split; trivial.
    unfold key_decode. rewrite Hh, !Hilbert_bkey_decode, H0, H1. reflexivity.
  - repeat split.
Qed.

Lemma key_decode_half_level_witness :
  isHalf level_half = true /\ 0 <= 1 < nKeys level_half
  /\ key_decode (curve := Hilbert) level_half 1 = Return ((1, 1), Some (1, 0)).
Proof.
  assert (Hh : isHalf level_half = true) by reflexivity.
  assert (Hk : 0 <= 1 < nKeys level_half) by (simpl; lia).
  split; [exact Hh | split; [exact Hk |]].
  destruct (key_decode_half_level level_half 1 Hh Hk) as (Hany & _).
  rewrite Hany. reflexivity.
Defined.

(** [C6], as the code has it: [refresh(level)] raises an error only
    for a level of at most [-1], and that error is the [RangeError] of
    the BigInt power.  Every other non-zero level configures a grid,
    a multiple of 0.5 or not: [blevel] is its ceiling, [isHalf] tells
    whether the two differ, and the level kept is [blevel] or
    [blevel - 0.5]. *)
Theorem refresh_level_domain (this : option state) (lvl : Q) :
  ~ (lvl == 0)%Q ->
  ((lvl <= -1)%Q -> refresh this (Some lvl) = Throw RangeError)
  /\ ((-1 < lvl)%Q ->
      exists g, refresh this (Some lvl) = Return g
                /\ blevel g = Qceiling lvl
                /\ isHalf g = negb (Qeq_bool (inject_Z (Qceiling lvl)) lvl)
                /\ (level g == inject_Z (Qceiling lvl)
                               - (if isHalf g then 1 # 2 else 0))%Q
                /\ nBKeys g = 4 ^ Qceiling lvl
                /\ nKeys g = (if isHalf g then Z.quot (4 ^ Qceiling lvl) 2
                              else 4 ^ Qceiling lvl)
                /\ nRefRows g = 2 ^ Qceiling lvl).
Proof.
  intros Hnz. unfold refresh. rewrite (or_level_given _ _ Hnz). split; intros H.
  - apply Qceiling_negative in H.
    destruct (Z.ltb_spec (Qceiling lvl) 0); [reflexivity | lia].
  - destruct (Z.ltb_spec (Qceiling lvl) 0) as [Hneg | _].
    + apply Qceiling_negative in Hneg. exfalso.
      apply (Qlt_irrefl lvl). eapply Qle_lt_trans; eassumption.
    + eexists. split; [reflexivity |].
      cbn [level blevel isHalf nKeys nBKeys nRefRows].
      repeat split. apply Qred_correct.
Qed.

Lemma refresh_level_domain_witness :
  exists g, refresh None (Some (3 # 10)%Q) = Return g /\ blevel g = 1
            /\ isHalf g = true.
Proof.
  assert (Hnz : ~ (3 # 10 == 0)%Q) by discriminate.
  assert (Hlt : (-1 < 3 # 10)%Q) by reflexivity.
  destruct (refresh_level_domain None (3 # 10)%Q Hnz) as [_ Hok].
  destruct (Hok Hlt) as (g & Hg & Hb & Hh & _).
  exists g. repeat split; assumption.
Defined.

(** [C6] fails as stated: level 0.3 is not a multiple of 0.5, and
    [refresh(0.3)] raises nothing; it configures the grid of level 0.5.
    The same holds of the double that the literal [0.3] denotes. *)
Lemma refresh_accepts_level_03 :
  ~ multiple_of_half (3 # 10)%Q
  /\ refresh None (Some (3 # 10)%Q) = Return level_half
  /\ ~ throws (refresh None (Some (3 # 10)%Q))
  /\ ~ multiple_of_half double_0_3
  /\ refresh None (Some double_0_3) = Return level_half.
Proof.
  split; [| split; [| split; [| split]]].
  - intros [k Hk]. unfold Qeq in Hk. simpl in Hk. lia.
  - reflexivity.
  - apply throws_Return.
  - intros [k Hk]. unfold Qeq, double_0_3 in Hk. simpl in Hk. lia.
  - reflexivity.
Qed.

(** [C7], as the code has it: [key_decode] and [key_encode] test no
    bound and raise nothing, for any integer arguments and either
    curve; an argument outside the grid goes through the curve like any
    other.  At level 1: Morton decodes key 4 to (2,0) and encodes (2,0)
    to 4; Hilbert decodes key 4 to (0,0) and encodes (2,0) to 0. *)
Theorem key_translation_unchecked (this : state) :
  (forall key,
      key_decode (curve := Morton) this key
      = Return (if isHalf this
                then (GSfc4qLbl_Morton.bkey_decode (2 * key),
                      Some (GSfc4qLbl_Morton.bkey_decode (2 * key + 1)))
                else (GSfc4qLbl_Morton.bkey_decode key, None)))
  /\ (forall key, exists r, key_decode (curve := Hilbert) this key = Return r)
  /\ (forall i j, exists r, key_encode (curve := Morton) this i j = Return r)
  /\ (forall i j, exists r, key_encode (curve := Hilbert) this i j = Return r)
  /\ (nKeys level_one = 4 /\ nRefRows level_one = 2
      /\ key_decode (curve := Morton) level_one 4 = Return ((2, 0), None)
      /\ key_encode (curve := Morton) level_one 2 0 = Return (4, None)
      /\ key_decode (curve := Hilbert) level_one 4 = Return ((0, 0), None)
      /\ key_encode (curve := Hilbert) level_one 2 0 = Return (0, None)).
Proof.
  split; [| split; [| split; [| split]]].
  - intros key. unfold key_decode. now destruct (isHalf this).
  - intros key. unfold key_decode. rewrite !Hilbert_bkey_decode.
    destruct (isHalf this).
    + destruct (_bkey_decode_returns (2 * key) (nRefRows this)) as [a ->].
      destruct (_bkey_decode_returns (2 * key + 1) (nRefRows this)) as [b ->].
      simpl. eauto.
    + destruct (_bkey_decode_returns key (nRefRows this)) as [a ->].
      simpl. eauto.
  - intros i j. unfold key_encode. destruct (isHalf this); simpl; eauto.
  - intros i j. unfold key_encode. rewrite !Hilbert_bkey_encode.
    destruct (_bkey_encode_returns i j (nRefRows this)) as [a ->].
    destruct (isHalf this); simpl; eauto.
  - repeat split.
Qed.

(** [C7] fails as stated: at level 1 the key 4 = nKeys and the
    coordinate 2 = nRefRows are answered, not rejected. *)
Lemma key_out_of_range_accepted :
  constructor (Some 1%Q) = Return level_one
  /\ nKeys level_one <= 4
  /\ key_decode (curve := Morton) level_one 4 = Return ((2, 0), None)
  /\ ~ throws (key_decode (curve := Morton) level_one 4)
  /\ nRefRows level_one <= 2
  /\ key_encode (curve := Morton) level_one 2 0 = Return (4, None)
  /\ ~ throws (key_encode (curve := Morton) level_one 2 0).
Proof.
  repeat split; try (simpl; lia); apply throws_Return.
Qed.

(** [refresh] on a Number or on no level is [refresh_any] on that
    argument. *)
Lemma refresh_any_number this lvl :
  refresh_any this (number_or_none lvl) = refresh this lvl.
Proof. destruct lvl; reflexivity. Qed.

Lemma chosen_level_number this lvl l0 :
  chosen_level this (number_or_none lvl) = Some l0 -> ~ (l0 == 0)%Q.
Proof.
  intros H. destruct lvl as [q |];
    unfold chosen_level, number_or_none in H; injection H as <-.
  - apply (chosen_level_nonzero this (Some q)).
  - apply (chosen_level_nonzero this None).
Qed.

Lemma state_eq (g g' : state) :
  level g = level g' -> blevel g = blevel g' -> isHalf g = isHalf g' ->
  nKeys g = nKeys g' -> nBKeys g = nBKeys g' -> keyBits g = keyBits g' ->
  bkeyBits g = bkeyBits g' -> nRefRows g = nRefRows g' ->
  g = g'.
Proof.
  destruct g, g'. cbn. intros; subst; reflexivity.
Qed.

(** The properties [refresh_any] assigns, from the level chosen. *)
Lemma refresh_any_chosen this lvl g :
  refresh_any this lvl = Return g ->
  exists l0,
    chosen_level this lvl = Some l0
    /\ 0 <= Qceiling l0
    /\ blevel g = Qceiling l0
    /\ isHalf g = negb (Qeq_bool (inject_Z (Qceiling l0)) l0)
    /\ level g = Qred (inject_Z (blevel g) - (if isHalf g then 1 # 2 else 0))
    /\ nBKeys g = 4 ^ blevel g
    /\ nRefRows g = 2 ^ blevel g
    /\ nKeys g = (if isHalf g then Z.quot (4 ^ blevel g) 2 else 4 ^ blevel g)
    /\ bkeyBits g = strlen (toString2 (4 ^ blevel g - 1))
    /\ keyBits g = (if isHalf g then bkeyBits g - 1 else bkeyBits g).
Proof.
  unfold refresh_any. destruct (chosen_level this lvl) as [l0 |]; [| discriminate].
  destruct (Z.ltb_spec (Qceiling l0) 0) as [| Hb]; [discriminate |].
  intros H. injection H as <-. exists l0.
  cbn [level blevel isHalf nKeys nBKeys keyBits bkeyBits nRefRows].
  repeat split. exact Hb.
Qed.

(** A string that converts to 0 configures the grid of level 0. *)
Lemma refresh_any_string_zero this n :
  (n == 0)%Q -> refresh_any this (LString (Some n)) = Return level_zero.
Proof.
  intros Hn. unfold refresh_any, chosen_level.
  assert (Hc : Qceiling n = 0) by (rewrite Hn; reflexivity).
  rewrite Hc.
  assert (He : Qeq_bool (inject_Z 0) n = true)
    by (apply Qeq_bool_iff; rewrite Hn; reflexivity).
  rewrite He. reflexivity.
Qed.

(** [C10], as the code has it: [refresh(0)] with the Number 0, like the
    constructor, takes 0 for no level: it does what [refresh()] does,
    keeping the level of the instance when it has a non-zero one and
    taking level 1 otherwise, and no Number level yields the
    single-cell grid with [blevel = 0] and [nKeys = 1].  That grid is
    reached all the same: a non-empty string is truthy, and one that
    converts to 0, such as ['0'], configures level 0. *)
Theorem refresh_level_zero (this : option state) :
  refresh_any this (LNumber 0) = refresh_any this LNone
  /\ constructor_any (LNumber 0) = Return level_one
  /\ (forall g, this = Some g -> ~ (level g == 0)%Q ->
                refresh_any this (LNumber 0)
                = refresh_any this (LNumber (level g)))
  /\ (forall g, this = Some g -> (level g == 0)%Q ->
                refresh_any this (LNumber 0) = Return level_one)
  /\ (forall lvl g, refresh_any this (number_or_none lvl) = Return g ->
                    ~ (blevel g = 0 /\ nKeys g = 1))
  /\ (forall n, (n == 0)%Q ->
                refresh_any this (LString (Some n)) = Return level_zero
                /\ blevel level_zero = 0 /\ nKeys level_zero = 1).
Proof.
  split; [reflexivity |]. split; [reflexivity |].
  split; [| split; [| split]].
  - intros g -> Hg. unfold refresh_any, chosen_level. simpl option_map.
    rewrite (or_level_given (level g) _ Hg).
    change (or_level (Some 0%Q) ?b) with b.
    now rewrite (or_level_given (level g) _ Hg).
  - intros g -> Hg. unfold refresh_any, chosen_level. simpl option_map.
    change (or_level (Some 0%Q) ?b) with b.
    assert (E : or_level (Some (level g)) 1 = 1%Q).
    { simpl. apply Qeq_bool_iff in Hg. now rewrite Hg. }
    rewrite E. reflexivity.
  - intros lvl g Hr [Hb Hk].
    destruct (refresh_any_chosen _ _ _ Hr)
      as (l0 & Hl0 & _ & Eb & Eh & _ & _ & _ & EnK & _).
    apply chosen_level_number in Hl0.
    rewrite Hb in EnK. rewrite <- Eb, Hb in Eh.
    destruct (isHalf g).
    + rewrite Hk in EnK. discriminate EnK.
    + symmetry in Eh. apply negb_false_iff, Qeq_bool_iff in Eh.
      apply Hl0. now rewrite <- Eh.
  - intros n Hn. split; [now apply refresh_any_string_zero |].
    split; reflexivity.
Qed.

Lemma refresh_level_zero_witness :
  refresh_any (Some level_half) (LNumber 0) = Return level_half
  /\ (forall q, refresh_any (Some level_half) (LNumber q) <> Return level_zero)
  /\ refresh_any (Some level_half) (LString (Some 0%Q)) = Return level_zero.
Proof.
  destruct (refresh_level_zero (Some level_half))
    as (_ & _ & Hkeep & _ & Hno & Hstr).
  split; [| split].
  - rewrite (Hkeep level_half eq_refl); [reflexivity | discriminate].
  - intros q H. apply (Hno (Some q) _ H). split; reflexivity.
  - apply (Hstr 0%Q). reflexivity.
Defined.

(** [C10] fails as stated: [refresh('0')], through the public
    interface, configures the grid with [blevel = 0] and [nKeys = 1];
    so does [new GSfc4q('0')]. *)
Lemma refresh_string_zero_reaches_level_zero :
  refresh_any (Some level_one) (LString (Some 0%Q)) = Return level_zero
  /\ constructor_any (LString (Some 0%Q)) = Return level_zero
  /\ blevel level_zero = 0
  /\ nKeys level_zero = 1.
Proof. repeat split. Qed.

End Grid.

(** ** Bitwise-or homomorphisms

    The spreading and collapsing of bits are built from shifts, [lor]
    and [land] with a constant; such a function is determined on
    [[0, 2^n)] by its values at the powers of two below [2^n]. *)

Section LorHom.

Lemma lor_hom_id : lor_hom (fun x => x).
Proof. split; reflexivity. Qed.

Lemma lor_hom_zero : lor_hom (fun _ => 0).
Proof. split; reflexivity. Qed.

Lemma lor_hom_land m : lor_hom (fun x => Z.land x m).
Proof. split; [reflexivity | intros; apply Z.land_lor_distr_l]. Qed.

Lemma lor_hom_shiftl k : lor_hom (fun x => Z.shiftl x k).
Proof. split; [apply Z.shiftl_0_l | intros; apply Z.shiftl_lor]. Qed.

Lemma lor_hom_shiftr k : lor_hom (fun x => Z.shiftr x k).
Proof. split; [apply Z.shiftr_0_l | intros; apply Z.shiftr_lor]. Qed.

Lemma lor_hom_compose f g : lor_hom f -> lor_hom g -> lor_hom (fun x => f (g x)).
Proof.
  intros [Hf0 Hf] [Hg0 Hg]. split.
  - now rewrite Hg0.
  - intros a b. now rewrite Hg, Hf.
Qed.

Lemma lor_hom_lor f g : lor_hom f -> lor_hom g -> lor_hom (fun x => Z.lor (f x) (g x)).
Proof.
  intros [Hf0 Hf] [Hg0 Hg]. split.
  - now rewrite Hf0, Hg0.
  - intros a b. rewrite Hf, Hg. apply Z.bits_inj'. intros n _.
    rewrite !Z.lor_spec.
    destruct (Z.testbit (f a) n), (Z.testbit (f b) n), (Z.testbit (g a) n);
      reflexivity.
Qed.

Lemma lor_hom_testbit f k :
  lor_hom f -> lor_hom (fun x => Z.b2z (Z.testbit (f x) k)).
Proof.
  intros [Hf0 Hf]. split.
  - now rewrite Hf0, Z.bits_0.
  - intros a b. rewrite Hf, Z.lor_spec.
    now destruct (Z.testbit (f a) k), (Z.testbit (f b) k).
Qed.

Lemma lor_top_bit lo n :
  0 <= n -> 0 <= lo < 2 ^ n -> lo + 2 ^ n = Z.lor lo (2 ^ n).
Proof.
  intros Hn Hlo.
  assert (Hdisj : Z.land lo (2 ^ n) = 0).
  { apply Z.bits_inj'. intros k Hk.
    rewrite Z.land_spec, Z.bits_0, Z.pow2_bits_eqb by assumption.
    destruct (Z.eqb_spec n k) as [<- |]; [| apply andb_false_r].
    rewrite andb_true_r.
    destruct (Z.eq_dec lo 0) as [-> | Hnz]; [apply Z.bits_0 |].
    apply Z.bits_above_log2; [lia |]. apply Z.log2_lt_pow2; lia. }
  rewrite Z.add_nocarry_lxor by assumption.
  now apply Z.lxor_lor.
Qed.

Lemma lor_hom_ext f g (n : nat) :
  lor_hom f -> lor_hom g ->
  (forall i, 0 <= i < Z.of_nat n -> f (2 ^ i) = g (2 ^ i)) ->
  forall x, 0 <= x < 2 ^ Z.of_nat n -> f x = g x.
Proof.
  intros [Hf0 Hf] [Hg0 Hg]. induction n as [| n IH]; intros Hpow x Hx.
  - simpl in Hx. assert (x = 0) by lia. subst. congruence.
  - rewrite Nat2Z.inj_succ, Z.pow_succ_r in Hx by lia.
    assert (IH' : forall y, 0 <= y < 2 ^ Z.of_nat n -> f y = g y)
      by (apply IH; intros i Hi; apply Hpow; lia).
    destruct (Z.lt_ge_cases x (2 ^ Z.of_nat n)) as [Hlt | Hge].
    + apply IH'; lia.
    + replace x with ((x - 2 ^ Z.of_nat n) + 2 ^ Z.of_nat n) by lia.
      rewrite lor_top_bit by lia.
      rewrite Hf, Hg, IH', Hpow by lia. reflexivity.
Qed.

(** A property of the integers below [n], checked one by one. *)
Lemma forallb_below (P : Z -> bool) (n : nat) :
  forallb P (map Z.of_nat (seq 0 n)) = true ->
  forall i, 0 <= i < Z.of_nat n -> P i = true.
Proof.
  intros H i Hi. rewrite forallb_forall in H. apply H.
  apply in_map_iff. exists (Z.to_nat i). split; [lia |].
  apply in_seq. lia.
Qed.

End LorHom.

(** ** The Morton curve *)

Section MortonProofs.
Import GSfc4qLbl_Morton.

Lemma _bkey_interleave_hom : lor_hom _bkey_interleave.
Proof.
  unfold _bkey_interleave. cbv zeta.
  repeat first
    [ apply (lor_hom_compose (fun v => Z.land v _)); [apply lor_hom_land |]
    | apply lor_hom_lor
    | apply (lor_hom_compose (fun v => Z.shiftl v _)); [apply lor_hom_shiftl |]
    | apply lor_hom_id ].
Qed.

Lemma deinterleave_hom : lor_hom deinterleave.
Proof.
  unfold deinterleave. cbv zeta.
  repeat first
    [ apply lor_hom_land
    | apply (lor_hom_compose (fun v => Z.land v _)); [apply lor_hom_land |]
    | apply lor_hom_lor
    | apply (lor_hom_compose (fun v => Z.shiftr v _)); [apply lor_hom_shiftr |]
    | apply lor_hom_id ].
Qed.

Lemma _bkey_interleave_pow2 i :
  0 <= i < 32 -> _bkey_interleave (2 ^ i) = 2 ^ (2 * i).
Proof.
  intros Hi. apply Z.eqb_eq.
  apply (forallb_below (fun i => _bkey_interleave (2 ^ i) =? 2 ^ (2 * i)) 32);
    [vm_compute; reflexivity | exact Hi].
Qed.

(** Collapsing what was spread gives the number back; what was spread
    and moved to the odd positions, or moved off the even ones,
    collapses to nothing. *)
Lemma deinterleave_interleave x :
  0 <= x < 2 ^ 32 -> deinterleave (_bkey_interleave x) = x.
Proof.
  apply (lor_hom_ext (fun v => deinterleave (_bkey_interleave v)) (fun v => v) 32).
  - apply lor_hom_compose; [apply deinterleave_hom | apply _bkey_interleave_hom].
  - apply lor_hom_id.
  - intros i Hi. apply Z.eqb_eq.
    apply (forallb_below
             (fun i => deinterleave (_bkey_interleave (2 ^ i)) =? 2 ^ i) 32);
      [vm_compute; reflexivity | exact Hi].
Qed.

Lemma deinterleave_odd_positions x :
  0 <= x < 2 ^ 32 -> deinterleave (Z.shiftl (_bkey_interleave x) 1) = 0.
Proof.
  apply (lor_hom_ext
           (fun v => deinterleave (Z.shiftl (_bkey_interleave v) 1))
           (fun _ => 0) 32).
  - apply (lor_hom_compose deinterleave); [apply deinterleave_hom |].
    apply (lor_hom_compose (fun v => Z.shiftl v 1));
      [apply lor_hom_shiftl | apply _bkey_interleave_hom].
  - apply lor_hom_zero.
  - intros i Hi. apply Z.eqb_eq.
    apply (forallb_below
             (fun i => deinterleave (Z.shiftl (_bkey_interleave (2 ^ i)) 1) =? 0) 32);
      [vm_compute; reflexivity | exact Hi].
Qed.

Lemma deinterleave_shifted_even x :
  0 <= x < 2 ^ 32 -> deinterleave (Z.shiftr (_bkey_interleave x) 1) = 0.
Proof.
  apply (lor_hom_ext
           (fun v => deinterleave (Z.shiftr (_bkey_interleave v) 1))
           (fun _ => 0) 32).
  - apply (lor_hom_compose deinterleave); [apply deinterleave_hom |].
    apply (lor_hom_compose (fun v => Z.shiftr v 1));
      [apply lor_hom_shiftr | apply _bkey_interleave_hom].
  - apply lor_hom_zero.
  - intros i Hi. apply Z.eqb_eq.
    apply (forallb_below
             (fun i => deinterleave (Z.shiftr (_bkey_interleave (2 ^ i)) 1) =? 0) 32);
      [vm_compute; reflexivity | exact Hi].
Qed.

(** Bit [m] of the spread number: bit [m/2] of the number at an even
    position, nothing at an odd one. *)
Lemma _bkey_interleave_bits x m :
  0 <= x < 2 ^ 32 ->
  Z.testbit (_bkey_interleave x) m
  = if Z.even m then Z.testbit x (m / 2) else false.
Proof.
  intros Hx.
  assert (H : Z.b2z (Z.testbit (_bkey_interleave x) m)
              = Z.b2z (if Z.even m then Z.testbit x (m / 2) else false)).
  { revert x Hx.
    apply (lor_hom_ext
             (fun v => Z.b2z (Z.testbit (_bkey_interleave v) m))
             (fun v => Z.b2z (if Z.even m then Z.testbit v (m / 2) else false))
             32).
    - apply lor_hom_testbit, _bkey_interleave_hom.
    - destruct (Z.even m); [apply (lor_hom_testbit (fun v => v)), lor_hom_id |].
      apply lor_hom_zero.
    - intros i Hi. rewrite _bkey_interleave_pow2 by exact Hi.
      rewrite !Z.pow2_bits_eqb by lia. f_equal.
      destruct (Z.even m) eqn:Em.
      + apply Z.even_spec in Em. destruct Em as [k ->].
        replace (2 * k / 2) with k by (apply Z.div_unique_exact; lia).
        destruct (Z.eqb_spec i k), (Z.eqb_spec (2 * i) (2 * k)); lia || reflexivity.
      + apply Z.eqb_neq. intros <-.
        rewrite Z.even_mul in Em. discriminate. }
  destruct (Z.testbit (_bkey_interleave x) m),
    (if Z.even m then Z.testbit x (m / 2) else false);
    reflexivity || discriminate.
Qed.

Lemma _bkey_interleave_range x :
  0 <= x -> 0 <= _bkey_interleave x < 2 ^ 63.
Proof.
  intros Hx. unfold _bkey_interleave. cbv zeta.
  set (w := Z.lor _ (Z.shiftl _ 1)).
  assert (Hm : 0 <= 0x5555555555555555) by lia.
  assert (Hnn : 0 <= Z.land w 0x5555555555555555)
    by (apply Z.land_nonneg; right; exact Hm).
  split; [exact Hnn |].
  destruct (Z.eq_dec (Z.land w 0x5555555555555555) 0) as [-> | Hnz]; [lia |].
  apply Z.log2_lt_pow2; [lia |].
  assert (Hw : 0 <= w).
  { subst w. apply Z.lor_nonneg. split.
    - apply Z.land_nonneg. right. lia.
    - apply Z.shiftl_nonneg, Z.land_nonneg. right. lia. }
  pose proof (Z.log2_land w 0x5555555555555555 Hw Hm) as Hl.
  change (Z.log2 0x5555555555555555) with 62 in Hl. lia.
Qed.

(** [C2] The Morton curve on 32-bit coordinates: decoding the encoded
    pair gives the pair back, the key is below [2^64], and bit [b] of
    [x] is bit [2b] of the key, bit [b] of [y] is bit [2b+1]. *)
Theorem morton_roundtrip_32 (x y : Z) :
  0 <= x < 2 ^ 32 ->
  0 <= y < 2 ^ 32 ->
  bkey_decode (bkey_encode x y) = (x, y)
  /\ 0 <= bkey_encode x y < 2 ^ 64
  /\ (forall b, 0 <= b ->
                Z.testbit (bkey_encode x y) (2 * b) = Z.testbit x b
                /\ Z.testbit (bkey_encode x y) (2 * b + 1) = Z.testbit y b).
Proof.
  intros Hx Hy.
  destruct deinterleave_hom as [_ Hd].
  split; [| split].
  - unfold bkey_decode, bkey_encode. cbv zeta.
    rewrite Z.shiftr_lor, !Hd.
    rewrite Z.shiftr_shiftl_l by lia. change (1 - 1) with 0.
    rewrite Z.shiftl_0_r.
    rewrite !deinterleave_interleave, deinterleave_odd_positions,
      deinterleave_shifted_even by assumption.
    rewrite Z.lor_0_r, Z.lor_0_l.
    rewrite !Number_exact by (rewrite Z.abs_eq; lia).
    reflexivity.
  - unfold bkey_encode. cbv zeta.
    pose proof (_bkey_interleave_range x (proj1 Hx)) as Rx.
    pose proof (_bkey_interleave_range y (proj1 Hy)) as Ry.
    set (a := _bkey_interleave x) in *. set (c := _bkey_interleave y) in *.
    assert (Hs : 0 <= Z.shiftl c 1 < 2 ^ 64)
      by (rewrite Z.shiftl_mul_pow2 by lia; change (2 ^ 1) with 2; lia).
    assert (Hnn : 0 <= Z.lor a (Z.shiftl c 1))
      by (apply Z.lor_nonneg; lia).
    split; [exact Hnn |].
    destruct (Z.eq_dec (Z.lor a (Z.shiftl c 1)) 0) as [-> | Hnz]; [lia |].
    apply Z.log2_lt_pow2; [lia |].
    rewrite Z.log2_lor by lia.
    apply Z.max_lub_lt.
    + destruct (Z.eq_dec a 0) as [-> | ?]; [simpl; lia |].
      apply Z.log2_lt_pow2; lia.
    + destruct (Z.eq_dec (Z.shiftl c 1) 0) as [-> | ?]; [simpl; lia |].
      apply Z.log2_lt_pow2; lia.
  - intros b Hb. unfold bkey_encode. cbv zeta.
    rewrite !Z.lor_spec, !Z.shiftl_spec by lia.
    rewrite !_bkey_interleave_bits by assumption.
    replace (2 * b + 1 - 1) with (2 * b) by lia.
    assert (E0 : Z.even (2 * b) = true) by (rewrite Z.even_mul; reflexivity).
    assert (E1 : Z.even (2 * b + 1) = false)
      by (rewrite Z.add_comm, Z.even_add_mul_2; reflexivity).
    assert (E2 : Z.even (2 * b - 1) = false).
    { replace (2 * b - 1) with (1 + 2 * (b - 1)) by lia.
      rewrite Z.even_add_mul_2. reflexivity. }
    rewrite E0, E1, E2.
    replace (2 * b / 2) with b by (apply Z.div_unique_exact; lia).
    rewrite orb_false_r. split; reflexivity.
Qed.

Lemma morton_roundtrip_32_witness :
  bkey_decode (bkey_encode 5 3) = (5, 3) /\ bkey_encode 5 3 = 27.
Proof.
  assert (H5 : 0 <= 5 < 2 ^ 32) by lia.
  assert (H3 : 0 <= 3 < 2 ^ 32) by lia.
  destruct (morton_roundtrip_32 5 3 H5 H3) as (Hrt & _).
  split; [exact Hrt | reflexivity].
Defined.

Lemma deinterleave_range d : 0 <= deinterleave d < 2 ^ 32.
Proof.
  unfold deinterleave. cbv zeta.
  change 0x00000000ffffffff with (Z.ones 32).
  rewrite Z.land_ones by lia.
  apply Z.mod_pos_bound. lia.
Qed.

(** The other way round, on 64-bit keys: encoding the decoded pair gives
    the key back. *)
Lemma morton_decode_then_encode d :
  0 <= d < 2 ^ 64 ->
  bkey_encode (fst (bkey_decode d)) (snd (bkey_decode d)) = d.
Proof.
  unfold bkey_decode. cbn [fst snd].
  pose proof (deinterleave_range d).
  pose proof (deinterleave_range (Z.shiftr d 1)).
  rewrite !Number_exact by (rewrite Z.abs_eq; lia).
  unfold bkey_encode. cbv zeta.
  apply (lor_hom_ext
           (fun v => Z.lor (_bkey_interleave (deinterleave v))
                       (Z.shiftl (_bkey_interleave (deinterleave (Z.shiftr v 1))) 1))
           (fun v => v) 64).
  - apply lor_hom_lor.
    + apply (lor_hom_compose _bkey_interleave);
        [apply _bkey_interleave_hom | apply deinterleave_hom].
    + apply (lor_hom_compose (fun v => Z.shiftl v 1)); [apply lor_hom_shiftl |].
      apply (lor_hom_compose _bkey_interleave); [apply _bkey_interleave_hom |].
      apply (lor_hom_compose deinterleave); [apply deinterleave_hom |].
      apply lor_hom_shiftr.
  - apply lor_hom_id.
  - intros i Hi. apply Z.eqb_eq.
    apply (forallb_below
             (fun i => Z.lor (_bkey_interleave (deinterleave (2 ^ i)))
                         (Z.shiftl (_bkey_interleave (deinterleave (Z.shiftr (2 ^ i) 1))) 1)
                       =? 2 ^ i) 64);
      [vm_compute; reflexivity | exact Hi].
Qed.

End MortonProofs.

(** ** The Hilbert curve *)

Section HilbertProofs.
Import GSfc4qLbl_Hilbert.

Lemma decode_loop_S fuel s n t ij :
  decode_loop (S fuel) s n t ij
  = if s <? n
    then decode_loop fuel (s * 2) n (Z.quot t 4) (decode_round s t ij)
    else Some ij.
Proof. reflexivity. Qed.

Lemma encode_loop_S fuel s key ij :
  encode_loop (S fuel) s key ij
  = if 1 <=? s
    then encode_loop fuel (Z.quot s 2)
           (key + s * s * Z.lxor (3 * encode_bit (fst ij) s) (encode_bit (snd ij) s))
           (_rot s ij (encode_bit (fst ij) s) (encode_bit (snd ij) s))
    else Some key.
Proof. reflexivity. Qed.

Lemma decode_loop_rounds key (k : nat) : forall (m fuel : nat),
    (k < fuel)%nat ->
    decode_loop fuel (2 ^ Z.of_nat m) (2 ^ Z.of_nat (m + k))
      (Z.quot key (4 ^ Z.of_nat m)) (hdecode m key)
    = Some (hdecode (m + k) key).
Proof.
  induction k as [| k IH]; intros m fuel Hf.
  - rewrite Nat.add_0_r.
    destruct fuel; simpl decode_loop; rewrite Z.ltb_irrefl; reflexivity.
  - destruct fuel as [| fuel]; [lia |].
    rewrite decode_loop_S.
    assert (Hlt : 2 ^ Z.of_nat m < 2 ^ Z.of_nat (m + S k))
      by (apply Z.pow_lt_mono_r; lia).
    apply Z.ltb_lt in Hlt. rewrite Hlt.
    replace (m + S k)%nat with (S m + k)%nat by lia.
    rewrite <- (IH (S m) fuel) by lia.
    f_equal.
    + rewrite Nat2Z.inj_succ, Z.pow_succ_r by lia. lia.
    + rewrite Z.quot_quot by lia.
      rewrite Nat2Z.inj_succ, Z.pow_succ_r by lia. f_equal. lia.
Qed.

Lemma encode_loop_rounds (m : nat) : forall (fuel : nat) key ij,
    (m < fuel)%nat ->
    encode_loop fuel (Z.quot (2 ^ Z.of_nat m) 2) key ij
    = Some (key + hencode m ij).
Proof.
  induction m as [| m IH]; intros fuel key ij Hf.
  - destruct fuel; simpl; f_equal; lia.
  - destruct fuel as [| fuel]; [lia |].
    assert (Hs : Z.quot (2 ^ Z.of_nat (S m)) 2 = 2 ^ Z.of_nat m).
    { rewrite Nat2Z.inj_succ, Z.pow_succ_r by lia.
      rewrite Z.mul_comm. apply Z.quot_mul. lia. }
    rewrite Hs, encode_loop_S.
    assert (Hpos : 1 <= 2 ^ Z.of_nat m) by (pose proof (Z.pow_pos_nonneg 2 (Z.of_nat m)); lia).
    apply Z.leb_le in Hpos. rewrite Hpos.
    rewrite IH by lia. cbn [hencode]. cbv zeta.
    f_equal. ring.
Qed.

(** *** The quadrant bits *)

Lemma land_1_l a : Z.land 1 a = a mod 2.
Proof. rewrite Z.land_comm. change 1 with (Z.ones 1). now rewrite Z.land_ones. Qed.

Lemma lxor_1_mod2 t : Z.lxor t 1 mod 2 = 1 - t mod 2.
Proof.
  rewrite <- !Z.bit0_mod, Z.lxor_spec.
  now destruct (Z.testbit t 0).
Qed.

(** The digit of the key selects the quadrant: 0, 1, 2, 3 give
    [(rx, ry)] = (0,0), (0,1), (1,1), (1,0). *)
Lemma decode_bits t :
  0 <= t ->
  let rx := Z.land 1 (Z.quot t 2) in
  let ry := Z.land 1 (Z.lxor t rx) in
  (rx = 0 \/ rx = 1) /\ (ry = 0 \/ ry = 1)
  /\ Z.lxor (3 * rx) ry = t mod 4.
Proof.
  intros Ht rx ry. subst ry.
  assert (Hrx : rx = (t / 2) mod 2).
  { subst rx. rewrite land_1_l, Z.quot_div_nonneg by lia. reflexivity. }
  rewrite land_1_l.
  assert (Hc : rx = 0 \/ rx = 1) by (rewrite Hrx; pose proof (Z.mod_pos_bound (t / 2) 2); lia).
  destruct Hc as [E | E]; rewrite E in *.
  - rewrite Z.lxor_0_r.
    assert (Hy : t mod 2 = 0 \/ t mod 2 = 1) by (pose proof (Z.mod_pos_bound t 2); lia).
    split; [now left |]. split; [exact Hy |].
    destruct Hy as [Ey | Ey]; rewrite Ey; simpl;
      Z.div_mod_to_equations; lia.
  - rewrite lxor_1_mod2.
    assert (Hy : t mod 2 = 0 \/ t mod 2 = 1) by (pose proof (Z.mod_pos_bound t 2); lia).
    split; [now right |]. split; [lia |].
    destruct Hy as [Ey | Ey]; rewrite Ey; simpl;
      Z.div_mod_to_equations; lia.
Qed.

Lemma land_pow2 v m :
  0 <= m -> Z.land v (2 ^ m) = if Z.testbit v m then 2 ^ m else 0.
Proof.
  intros Hm. apply Z.bits_inj'. intros k Hk.
  rewrite Z.land_spec, Z.pow2_bits_eqb by assumption.
  destruct (Z.eqb_spec m k) as [<- |].
  - rewrite andb_true_r. destruct (Z.testbit v m) eqn:E.
    + now rewrite Z.pow2_bits_eqb, Z.eqb_refl.
    + now rewrite Z.bits_0.
  - rewrite andb_false_r. destruct (Z.testbit v m).
    + rewrite Z.pow2_bits_eqb by assumption. symmetry. now apply Z.eqb_neq.
    + now rewrite Z.bits_0.
Qed.

Lemma encode_bit_testbit v m :
  0 <= m -> encode_bit v (2 ^ m) = Z.b2z (Z.testbit v m).
Proof.
  intros Hm. unfold encode_bit. rewrite land_pow2 by assumption.
  destruct (Z.testbit v m); [| reflexivity].
  pose proof (Z.pow_pos_nonneg 2 m).
  destruct (Z.gtb_spec (2 ^ m) 0); [reflexivity | lia].
Qed.

Lemma encode_bit_top a r m :
  0 <= m -> 0 <= a < 2 ^ m -> r = 0 \/ r = 1 ->
  encode_bit (a + 2 ^ m * r) (2 ^ m) = r.
Proof.
  intros Hm Ha Hr. rewrite encode_bit_testbit by assumption.
  assert (Hlow : Z.testbit a m = false).
  { destruct (Z.eq_dec a 0) as [-> | ?]; [apply Z.bits_0 |].
    apply Z.bits_above_log2; [lia |]. apply Z.log2_lt_pow2; lia. }
  destruct Hr as [-> | ->].
  - rewrite Z.mul_0_r, Z.add_0_r, Hlow. reflexivity.
  - rewrite Z.mul_1_r, lor_top_bit, Z.lor_spec, Z.pow2_bits_eqb, Z.eqb_refl by lia.
    now rewrite orb_true_r.
Qed.

Lemma encode_bit_cases v s : encode_bit v s = 0 \/ encode_bit v s = 1.
Proof. unfold encode_bit. destruct (Z.land v s >? 0); auto. Qed.

(** The encoding bit of [v] is the one of its residue modulo [2s]. *)
Lemma encode_bit_mod v m :
  0 <= m -> encode_bit (v mod 2 ^ (m + 1)) (2 ^ m) = encode_bit v (2 ^ m).
Proof.
  intros Hm. rewrite !encode_bit_testbit by assumption.
  rewrite Z.mod_pow2_bits_low by lia. reflexivity.
Qed.

Lemma mod_split v m :
  0 <= m -> v mod 2 ^ (m + 1) = v mod 2 ^ m + 2 ^ m * encode_bit v (2 ^ m).
Proof.
  intros Hm. rewrite encode_bit_testbit by assumption.
  rewrite Z.pow_add_r, Z.pow_1_r by lia.
  rewrite Z.rem_mul_r by (pose proof (Z.pow_pos_nonneg 2 m); lia).
  f_equal. f_equal.
  rewrite <- Z.bit0_mod, <- Z.shiftr_div_pow2, Z.shiftr_spec by lia.
  reflexivity.
Qed.

(** *** Rotation and reflection *)

Lemma pow2_pos (m : nat) : 0 < 2 ^ Z.of_nat m.
Proof. apply Z.pow_pos_nonneg; lia. Qed.

Lemma pow4_pos (m : nat) : 0 < 4 ^ Z.of_nat m.
Proof. apply Z.pow_pos_nonneg; lia. Qed.

Lemma pow2_S (m : nat) : 2 ^ Z.of_nat (S m) = 2 * 2 ^ Z.of_nat m.
Proof. rewrite Nat2Z.inj_succ, Z.pow_succ_r by lia. reflexivity. Qed.

Lemma pow4_S (m : nat) : 4 ^ Z.of_nat (S m) = 4 ^ Z.of_nat m * 4.
Proof. rewrite Nat2Z.inj_succ, Z.pow_succ_r by lia. ring. Qed.

Lemma pow2_square (m : nat) : 2 ^ Z.of_nat m * 2 ^ Z.of_nat m = 4 ^ Z.of_nat m.
Proof. rewrite <- Z.pow_mul_l. reflexivity. Qed.

Lemma flip_mod s v : 0 < s -> (s - 1 - v) mod s = s - 1 - v mod s.
Proof.
  intros Hs. symmetry. apply (Z.mod_unique _ _ (- (v / s))).
  - left. pose proof (Z.mod_pos_bound v s Hs). lia.
  - pose proof (Z.div_mod v s). lia.
Qed.

Lemma _rot_range s i j rx ry :
  0 <= i < s -> 0 <= j < s ->
  0 <= fst (_rot s (i, j) rx ry) < s /\ 0 <= snd (_rot s (i, j) rx ry) < s.
Proof.
  intros Hi Hj. unfold _rot.
  destruct (ry =? 0), (rx =? 1); simpl; lia.
Qed.

(** In the encoding loop the transform of the offset cell is, modulo
    [s], the inverse of the transform of the decoding loop. *)
Lemma _rot_undo_congr s i j rx ry :
  0 < s -> rx = 0 \/ rx = 1 -> ry = 0 \/ ry = 1 ->
  let ab := _rot s (i, j) rx ry in
  let cd := _rot s (fst ab + s * rx, snd ab + s * ry) rx ry in
  fst cd mod s = i mod s /\ snd cd mod s = j mod s.
Proof.
  intros Hs [-> | ->] [-> | ->]; cbn -[Z.mul Z.sub Z.add Z.modulo]; split.
  - f_equal. ring.
  - f_equal. ring.
  - f_equal. ring.
  - replace (j + s * 1) with (j + 1 * s) by ring. apply Z_mod_plus_full.
  - replace (s - 1 - (s - 1 - i + s * 0)) with i by ring. reflexivity.
  - replace (s - 1 - (s - 1 - j + s * 1)) with (j + (-1) * s) by ring.
    apply Z_mod_plus_full.
  - replace (i + s * 1) with (i + 1 * s) by ring. apply Z_mod_plus_full.
  - replace (j + s * 1) with (j + 1 * s) by ring. apply Z_mod_plus_full.
Qed.

(** In the decoding loop the transform of the reduced cell is the
    inverse of the transform of the encoding loop. *)
Lemma _rot_undo_mod s i j rx ry :
  0 < s -> rx = 0 \/ rx = 1 -> ry = 0 \/ ry = 1 ->
  let ab := _rot s (i, j) rx ry in
  _rot s (fst ab mod s, snd ab mod s) rx ry = (i mod s, j mod s).
Proof.
  intros Hs [-> | ->] [-> | ->]; cbn -[Z.mul Z.sub Z.add Z.modulo];
    try reflexivity.
  rewrite !flip_mod by assumption. f_equal; ring.
Qed.

(** *** Encoding depends on the low bits only, and stays in range *)

Lemma mod_pow2_S v (m : nat) :
  (v mod 2 ^ Z.of_nat (S m)) mod 2 ^ Z.of_nat m = v mod 2 ^ Z.of_nat m.
Proof.
  apply Z.mod_mod_divide. rewrite pow2_S. exists 2. ring.
Qed.

Lemma encode_bit_congr v v' (m : nat) :
  v mod 2 ^ Z.of_nat (S m) = v' mod 2 ^ Z.of_nat (S m) ->
  encode_bit v (2 ^ Z.of_nat m) = encode_bit v' (2 ^ Z.of_nat m).
Proof.
  intros H. rewrite Nat2Z.inj_succ, <- Z.add_1_r in H.
  rewrite <- (encode_bit_mod v), <- (encode_bit_mod v') by lia.
  now rewrite H.
Qed.

Lemma hencode_congr (m : nat) : forall i j i' j',
    i mod 2 ^ Z.of_nat m = i' mod 2 ^ Z.of_nat m ->
    j mod 2 ^ Z.of_nat m = j' mod 2 ^ Z.of_nat m ->
    hencode m (i, j) = hencode m (i', j').
Proof.
  induction m as [| m IH]; intros i j i' j' Hi Hj; [reflexivity |].
  cbn [hencode]. cbv zeta. cbn [fst snd].
  rewrite (encode_bit_congr i i' m Hi), (encode_bit_congr j j' m Hj).
  f_equal.
  assert (Hi' : i mod 2 ^ Z.of_nat m = i' mod 2 ^ Z.of_nat m)
    by (rewrite <- (mod_pow2_S i), <- (mod_pow2_S i'); now rewrite Hi).
  assert (Hj' : j mod 2 ^ Z.of_nat m = j' mod 2 ^ Z.of_nat m)
    by (rewrite <- (mod_pow2_S j), <- (mod_pow2_S j'); now rewrite Hj).
  pose proof (pow2_pos m) as Hs.
  unfold _rot.
  destruct (encode_bit j' (2 ^ Z.of_nat m) =? 0);
    [destruct (encode_bit i' (2 ^ Z.of_nat m) =? 1) |]; cbn [fst snd];
    apply IH; rewrite ?flip_mod by assumption; congruence.
Qed.

Lemma lxor_digit rx ry :
  rx = 0 \/ rx = 1 -> ry = 0 \/ ry = 1 -> 0 <= Z.lxor (3 * rx) ry <= 3.
Proof. intros [-> | ->] [-> | ->]; simpl; lia. Qed.

Lemma lxor_digit_inj rx ry rx' ry' :
  rx = 0 \/ rx = 1 -> ry = 0 \/ ry = 1 ->
  rx' = 0 \/ rx' = 1 -> ry' = 0 \/ ry' = 1 ->
  Z.lxor (3 * rx) ry = Z.lxor (3 * rx') ry' -> rx = rx' /\ ry = ry'.
Proof.
  intros [-> | ->] [-> | ->] [-> | ->] [-> | ->]; simpl; intros H;
    (split; reflexivity) || discriminate.
Qed.

Lemma hencode_range (m : nat) : forall ij, 0 <= hencode m ij < 4 ^ Z.of_nat m.
Proof.
  induction m as [| m IH]; intros ij; [simpl; lia |].
  cbn [hencode]. cbv zeta. rewrite pow2_square, pow4_S.
  pose proof (pow4_pos m).
  pose proof (lxor_digit _ _ (encode_bit_cases (fst ij) (2 ^ Z.of_nat m))
                (encode_bit_cases (snd ij) (2 ^ Z.of_nat m))).
  specialize (IH (_rot (2 ^ Z.of_nat m) ij (encode_bit (fst ij) (2 ^ Z.of_nat m))
                    (encode_bit (snd ij) (2 ^ Z.of_nat m)))).
  nia.
Qed.

(** *** The two round trips on [m] rounds *)

Lemma hdecode_S m key :
  hdecode (S m) key
  = decode_round (2 ^ Z.of_nat m) (Z.quot key (4 ^ Z.of_nat m)) (hdecode m key).
Proof. reflexivity. Qed.

Lemma hencode_hdecode (m : nat) : forall key,
    0 <= key ->
    (0 <= fst (hdecode m key) < 2 ^ Z.of_nat m
     /\ 0 <= snd (hdecode m key) < 2 ^ Z.of_nat m)
    /\ hencode m (hdecode m key) = key mod 4 ^ Z.of_nat m.
Proof.
  induction m as [| m IH]; intros key Hkey.
  - simpl. rewrite Z.mod_1_r. lia.
  - destruct (IH key Hkey) as [[Hi Hj] Henc]. clear IH.
    rewrite hdecode_S. destruct (hdecode m key) as [i j]. cbn [fst snd] in *.
    pose proof (pow2_pos m) as Hs. pose proof (pow4_pos m) as Hq.
    set (s := 2 ^ Z.of_nat m) in *.
    set (t := Z.quot key (4 ^ Z.of_nat m)).
    assert (Ht : 0 <= t) by (apply Z.quot_pos; lia).
    destruct (decode_bits t Ht) as (Hrx & Hry & Hdigit).
    unfold decode_round. cbv zeta.
    set (rx := Z.land 1 (Z.quot t 2)) in *.
    set (ry := Z.land 1 (Z.lxor t rx)) in *.
    destruct (_rot_range s i j rx ry Hi Hj) as [Ha Hb].
    destruct (_rot_undo_congr s i j rx ry Hs Hrx Hry) as [Hci Hcj].
    cbv zeta in Hci, Hcj.
    set (ab := _rot s (i, j) rx ry) in *.
    cbn [fst snd]. split.
    + rewrite pow2_S. fold s.
      destruct Hrx as [-> | ->], Hry as [-> | ->]; lia.
    + cbn [hencode]. cbv zeta. cbn [fst snd]. fold s.
      assert (Ex : encode_bit (fst ab + s * rx) s = rx)
        by (apply encode_bit_top; [lia | exact Ha | exact Hrx]).
      assert (Ey : encode_bit (snd ab + s * ry) s = ry)
        by (apply encode_bit_top; [lia | exact Hb | exact Hry]).
      rewrite Ex, Ey, Hdigit.
      rewrite (surjective_pairing
                 (_rot s (fst ab + s * rx, snd ab + s * ry) rx ry)).
      rewrite (hencode_congr m _ _ i j Hci Hcj), Henc.
      unfold s. rewrite pow2_square, pow4_S.
      rewrite Z.rem_mul_r by lia.
      unfold t. rewrite Z.quot_div_nonneg by lia. ring.
Qed.

Lemma hdecode_hencode (m : nat) : forall i j q,
    0 <= q ->
    hdecode m (q * 4 ^ Z.of_nat m + hencode m (i, j))
    = (i mod 2 ^ Z.of_nat m, j mod 2 ^ Z.of_nat m).
Proof.
  induction m as [| m IH]; intros i j q Hq.
  - simpl. now rewrite !Z.mod_1_r.
  - rewrite hdecode_S. cbn [hencode]. cbv zeta. cbn [fst snd].
    pose proof (pow2_pos m) as Hs. pose proof (pow4_pos m) as H4.
    set (s := 2 ^ Z.of_nat m) in *.
    pose proof (encode_bit_cases i s) as Hrx.
    pose proof (encode_bit_cases j s) as Hry.
    set (rx := encode_bit i s) in *. set (ry := encode_bit j s) in *.
    pose proof (lxor_digit rx ry Hrx Hry) as Hd.
    set (d := Z.lxor (3 * rx) ry) in *.
    pose proof (hencode_range m (_rot s (i, j) rx ry)) as Hh.
    set (h := hencode m (_rot s (i, j) rx ry)) in *.
    assert (Ekey : q * 4 ^ Z.of_nat (S m) + (s * s * d + h)
                   = (4 * q + d) * 4 ^ Z.of_nat m + h).
    { unfold s. rewrite pow2_square, pow4_S. ring. }
    rewrite Ekey.
    assert (Et : Z.quot ((4 * q + d) * 4 ^ Z.of_nat m + h) (4 ^ Z.of_nat m)
                 = 4 * q + d).
    { rewrite Z.quot_div_nonneg by nia.
      symmetry. apply (Z.div_unique _ _ _ h); [lia | ring]. }
    rewrite Et.
    unfold h at 1. rewrite (surjective_pairing (_rot s (i, j) rx ry)).
    rewrite IH by lia.
    assert (Ht : 0 <= 4 * q + d) by lia.
    destruct (decode_bits (4 * q + d) Ht) as (Hrx' & Hry' & Hdigit).
    unfold decode_round. cbv zeta.
    set (rx' := Z.land 1 (Z.quot (4 * q + d) 2)) in *.
    set (ry' := Z.land 1 (Z.lxor (4 * q + d) rx')) in *.
    assert (Hdm : (4 * q + d) mod 4 = d).
    { symmetry. apply (Z.mod_unique _ _ q); lia. }
    rewrite Hdm in Hdigit.
    destruct (lxor_digit_inj rx' ry' rx ry Hrx' Hry' Hrx Hry Hdigit) as [-> ->].
    pose proof (_rot_undo_mod s i j rx ry Hs Hrx Hry) as Hundo.
    cbv zeta in Hundo. rewrite Hundo. cbn [fst snd].
    rewrite Nat2Z.inj_succ, <- Z.add_1_r.
    rewrite !mod_split by lia. reflexivity.
Qed.

(** *** The two functions on a grid of side [2^blevel] *)

Lemma loop_bound_pow2 (m : nat) : loop_bound (2 ^ Z.of_nat m) = S m.
Proof.
  unfold loop_bound. rewrite Z.log2_up_pow2 by lia. now rewrite Nat2Z.id.
Qed.

Lemma _bkey_decode_pow2 (m : nat) key :
  _bkey_decode key (2 ^ Z.of_nat m)
  = Some (Number (fst (hdecode m key)), Number (snd (hdecode m key))).
Proof.
  unfold _bkey_decode. rewrite loop_bound_pow2.
  pose proof (decode_loop_rounds key m 0 (S m) (Nat.lt_succ_diag_r m)) as H.
  change (2 ^ Z.of_nat 0) with 1 in H. change (4 ^ Z.of_nat 0) with 1 in H.
  rewrite Z.quot_1_r in H. cbn [hdecode Nat.add] in H.
  now rewrite H.
Qed.

Lemma _bkey_encode_pow2 (m : nat) i j :
  _bkey_encode i j (2 ^ Z.of_nat m) = Some (hencode m (i, j)).
Proof.
  unfold _bkey_encode. rewrite loop_bound_pow2.
  now rewrite (encode_loop_rounds m (S m) 0 (i, j) (Nat.lt_succ_diag_r m)).
Qed.

(** [C1], as the code has it: on a grid of side [nRefRows = 2^blevel]
    with [blevel] from 0 to 53, [_bkey_encode] and [_bkey_decode] are
    inverse of each other, between the keys below [4^blevel] and the
    cells of the grid.  The pair that [_bkey_decode] returns is given to
    [_bkey_encode] as the integers it holds, which is what the method
    [bkey_encode] does with Numbers.  (Beyond 53 the coordinates
    returned, which are Numbers, are no longer all exact.) *)
Theorem hilbert_roundtrip (blevel : Z) :
  0 <= blevel <= 53 ->
  (forall bkey,
      0 <= bkey < 4 ^ blevel ->
      exists i j,
        _bkey_decode bkey (2 ^ blevel) = Some (i, j)
        /\ 0 <= i < 2 ^ blevel /\ 0 <= j < 2 ^ blevel
        /\ _bkey_encode i j (2 ^ blevel) = Some bkey)
  /\ (forall i j,
         0 <= i < 2 ^ blevel -> 0 <= j < 2 ^ blevel ->
         exists bkey,
           _bkey_encode i j (2 ^ blevel) = Some bkey
           /\ 0 <= bkey < 4 ^ blevel
           /\ _bkey_decode bkey (2 ^ blevel) = Some (i, j)).
Proof.
  intros Hb.
  rewrite <- (Z2Nat.id blevel) by lia.
  set (m := Z.to_nat blevel).
  assert (Hm : 2 ^ Z.of_nat m <= 2 ^ 53)
    by (apply Z.pow_le_mono_r; lia).
  split.
  - intros bkey Hk.
    destruct (hencode_hdecode m bkey (proj1 Hk)) as [[Hi Hj] Henc].
    exists (fst (hdecode m bkey)), (snd (hdecode m bkey)).
    rewrite _bkey_decode_pow2, _bkey_encode_pow2.
    rewrite !Number_exact by (rewrite Z.abs_eq; lia).
    repeat split; try lia.
    rewrite <- surjective_pairing, Henc.
    now rewrite Z.mod_small.
  - intros i j Hi Hj.
    exists (hencode m (i, j)).
    rewrite _bkey_decode_pow2, _bkey_encode_pow2.
    pose proof (hdecode_hencode m i j 0 (Z.le_refl 0)) as Hdec.
    rewrite Z.mul_0_l, Z.add_0_l in Hdec.
    rewrite Hdec. cbn [fst snd].
    rewrite !Z.mod_small by lia.
    rewrite !Number_exact by (rewrite Z.abs_eq; lia).
    pose proof (hencode_range m (i, j)).
    repeat split; lia.
Qed.

Lemma hilbert_roundtrip_witness :
  (exists i j, _bkey_decode 7 (2 ^ 2) = Some (i, j)
               /\ _bkey_encode i j (2 ^ 2) = Some 7)
  /\ (exists bkey, _bkey_encode 3 1 (2 ^ 2) = Some bkey
                   /\ _bkey_decode bkey (2 ^ 2) = Some (3, 1)).
Proof.
  assert (Hb : 0 <= 2 <= 53) by lia.
  destruct (hilbert_roundtrip 2 Hb) as [Hdec Henc].
  split.
  - assert (Hk : 0 <= 7 < 4 ^ 2) by (simpl; lia).
    destruct (Hdec 7 Hk) as (i & j & H1 & _ & _ & H2).
    exists i, j. split; assumption.
  - assert (Hi : 0 <= 3 < 2 ^ 2) by (simpl; lia).
    assert (Hj : 0 <= 1 < 2 ^ 2) by (simpl; lia).
    destruct (Henc 3 1 Hi Hj) as (k & H1 & _ & H2).
    exists k. split; assumption.
Defined.

(** [C1] fails as stated at [blevel = 54]: the cell [(2^53+1, 0)] is
    encoded to a key below [4^54] whose decoding is [(2^53, 0)], and
    that pair is encoded to another key. *)
Lemma hilbert_roundtrip_fails_at_54 :
  0 <= 2 ^ 53 + 1 < 2 ^ 54
  /\ _bkey_encode (2 ^ 53 + 1) 0 (2 ^ 54) = Some 297475340853557832884559685528235
  /\ 0 <= 297475340853557832884559685528235 < 4 ^ 54
  /\ _bkey_decode 297475340853557832884559685528235 (2 ^ 54)
     = Some (2 ^ 53, 0)
  /\ _bkey_encode (2 ^ 53) 0 (2 ^ 54)
     <> Some 297475340853557832884559685528235.
Proof.
  split; [lia |]. split; [vm_compute; reflexivity |].
  split; [lia |]. split; [vm_compute; reflexivity |].
  vm_compute. discriminate.
Qed.

End HilbertProofs.

(** ** Sized integers: construction and parsing *)

Section SizedProofs.
Import SizedBigInt.
Local Open Scope string_scope.
Local Open Scope Z_scope.
Local Open Scope sm_scope.

Lemma kx_RefreshDefaults_fresh : kx_RefreshDefaults None = (Return tt, Some defaults).
Proof. vm_compute. reflexivity. Qed.

Lemma kx_RefreshDefaults_again s : kx_RefreshDefaults (Some s) = (Return tt, Some s).
Proof. reflexivity. Qed.

Lemma constructor_bigint st z radix maxBits cut :
  fst (constructor (VBigInt z) radix maxBits cut st)
  = fromInt (ABigInt z) maxBits (match cut with Some b => b | None => true end).
Proof.
  unfold constructor, sbind.
  destruct st as [s |];
    [rewrite kx_RefreshDefaults_again | rewrite kx_RefreshDefaults_fresh];
    reflexivity.
Qed.

Lemma fromInt_over_width z mb cut :
  mb <> 0 -> Z.abs mb < strlen (toString2 z) ->
  fromInt (ABigInt z) (Some mb) cut
  = if cut
    then Return {| val := Some (Z.shiftr z (strlen (toString2 z) - Z.abs mb));
                   bits := Z.abs mb |}
    else Throw (Error "ERR4").
Proof.
  intros Hnz Hlen. unfold fromInt, setBits_byMax.
  destruct (Z.eqb_spec mb 0) as [E | _]; [contradiction |].
  destruct (Z.gtb_spec (strlen (toString2 z)) (Z.abs mb)) as [_ | Hle]; [| lia].
  destruct cut; reflexivity.
Qed.

(** *** [fromString] on a base other than 2 *)

Lemma fromHexString_null strval maxBits cut r :
  fromHexString strval maxBits cut = Return r -> r = fromNull.
Proof.
  unfold fromHexString. destruct (String.eqb strval "").
  - now intros [= <-].
  - destruct (BigInt_prefixed 16 strval); simpl; [| discriminate ..].
    now intros [= <-].
Qed.

(** Whatever the text, [fromString] on a base that is not binary
    returns the null instance when it returns. *)
Lemma fromString_nonbinary_null st strval radix maxBits cut k d st1 r :
  baseLabel radix st = (Return (k, d), st1) ->
  base d <> 2 ->
  fst (fromString strval radix maxBits cut st) = Return r ->
  r = fromNull.
Proof.
  intros Hl Hb. unfold fromString, sbind. rewrite Hl.
  destruct (String.eqb strval ""); [now intros [= <-] |].
  destruct (Z.eqb_spec (base d) 2) as [E | _]; [contradiction |].
  unfold tables, put_tables, lift.
  destruct st1 as [s1 |]; [| discriminate].
  cbn [fst]. apply fromHexString_null.
Qed.

(** [C4] at base [4h]: the value 1 on 2 bits is rendered as ["1"],
    and [fromString("1", "4h")] gives the null instance back, not the
    value; it also leaves [16js] as the label of the base, after which
    the same value is rendered as ["undefined"]. *)
Theorem fromString_loses_value_4h :
  fst ((constructor VNull "" None None ;;
        s <- toString {| val := Some 1; bits := 2 |} "4h" ;;
        y <- fromString s "4h" None true ;;
        s' <- toString {| val := Some 1; bits := 2 |} "4h" ;;
        ret (s, y, s')) None)
  = Return ("1", {| val := None; bits := 0 |}, "undefined").
Proof. vm_compute. reflexivity. Qed.

End SizedProofs.

(** ** The labelled curve *)

Section LabelProofs.
Import SizedBigInt GSfc4qLbl.
Local Open Scope string_scope.
Local Open Scope Z_scope.
Local Open Scope sm_scope.

(** The guard of [setBkey_byIJ]: a coordinate above [max] leaves the
    instance and the tables of the class as they are. *)
Lemma setBkey_byIJ_above (curve : GSfc4q.Curve) this i j st :
  let max := Number (Number (GSfc4q.nRefRows (grid this)) - 1) in
  max < i \/ max < j ->
  setBkey_byIJ this i j st = (Return this, st).
Proof.
  intros max H. unfold setBkey_byIJ. fold max.
  assert (E : (i >? max) || (j >? max) = true).
  { apply orb_true_iff. destruct H; [left | right]; apply Z.gtb_lt; assumption. }
  rewrite E. reflexivity.
Qed.

(** [C9] at a negative coordinate: on a Morton curve of level 1 and
    base [4h] whose key was set from the cell (1,1), [setBkey_byIJ(-1, 0)]
    returns with the key replaced: the value 3 on 2 bits becomes the
    value 2 on 2 bits. *)
Theorem setBkey_byIJ_negative_changes_key :
  fst ((this <- GSfc4qLbl.constructor (Some 1%Q) "4h" None None ;;
        this1 <- setBkey_byIJ (curve := Morton) this 1 1 ;;
        this2 <- setBkey_byIJ (curve := Morton) this1 (-1) 0 ;;
        ret (GSfc4q.nRefRows (grid this1), sbiID this1, sbiID this2)) None)
  = Return (2, {| val := Some 3; bits := 2 |}, {| val := Some 2; bits := 2 |}).
Proof. vm_compute. reflexivity. Qed.

End LabelProofs.

(** ** Bit-strings *)

Section BitStrings.
Local Open Scope string_scope.
Local Open Scope Z_scope.

Lemma sapp_assoc (s1 s2 s3 : string) : (s1 ++ s2) ++ s3 = s1 ++ (s2 ++ s3).
Proof. induction s1 as [| c s1 IH]; simpl; [reflexivity | now rewrite IH]. Qed.

Lemma sapp_nil_r (s : string) : s ++ "" = s.
Proof. induction s as [| c s IH]; simpl; [reflexivity | now rewrite IH]. Qed.

Lemma slength_app (s1 s2 : string) :
  String.length (s1 ++ s2) = (String.length s1 + String.length s2)%nat.
Proof. induction s1 as [| c s1 IH]; simpl; [reflexivity | now rewrite IH]. Qed.

Lemma prefix_app (s t : string) : String.prefix s (s ++ t) = true.
Proof.
  induction s as [| c s IH]; simpl; [now destruct t |].
  destruct (ascii_dec c c); [exact IH | contradiction].
Qed.

Lemma is_bitstring_app s t :
  is_bitstring (s ++ t) = is_bitstring s && is_bitstring t.
Proof.
  induction s as [| c s IH]; simpl; [reflexivity |].
  rewrite IH. now rewrite andb_assoc.
Qed.

(** *** [toString(2)] and [padStart] *)

Lemma pos_toString2_acc p : forall acc,
    pos_toString2 p acc = pos_toString2 p "" ++ acc.
Proof.
  induction p as [p IH | p IH |]; intros acc; simpl.
  - rewrite (IH (String "1" acc)), (IH (String "1" "")).
    now rewrite sapp_assoc.
  - rewrite (IH (String "0" acc)), (IH (String "0" "")).
    now rewrite sapp_assoc.
  - reflexivity.
Qed.

Lemma render_snoc n v :
  render (S n) v = render n (v / 2) ++ String (bit_char (Z.testbit v 0)) "".
Proof.
  induction n as [| n IH]; [reflexivity |].
  change (render (S (S n)) v)
    with (String (bit_char (Z.testbit v (Z.of_nat (S n)))) (render (S n) v)).
  rewrite IH. simpl render. simpl append.
  rewrite Z.div2_bits by lia. now rewrite Nat2Z.inj_succ.
Qed.

Lemma render_length n v : String.length (render n v) = n.
Proof. induction n as [| n IH]; simpl; [reflexivity | now rewrite IH]. Qed.

Lemma render_is_bitstring n v : is_bitstring (render n v) = true.
Proof.
  induction n as [| n IH]; simpl; [reflexivity |].
  rewrite IH. now destruct (Z.testbit v (Z.of_nat n)).
Qed.

Lemma pos_toString2_render p :
  pos_toString2 p "" = render (Pos.size_nat p) (Zpos p).
Proof.
  induction p as [p IH | p IH |].
  - simpl pos_toString2. rewrite pos_toString2_acc, IH.
    change (Pos.size_nat p~1) with (S (Pos.size_nat p)).
    rewrite render_snoc. f_equal.
    change (Z.pos p~1) with (2 * Z.pos p + 1).
    f_equal. apply (Z.div_unique _ _ _ 1); lia.
  - simpl pos_toString2. rewrite pos_toString2_acc, IH.
    change (Pos.size_nat p~0) with (S (Pos.size_nat p)).
    rewrite render_snoc. f_equal.
    change (Z.pos p~0) with (2 * Z.pos p).
    f_equal. apply (Z.div_unique _ _ _ 0); lia.
  - reflexivity.
Qed.

Lemma size_nat_bound p : Z.pos p < 2 ^ Z.of_nat (Pos.size_nat p).
Proof.
  induction p as [p IH | p IH |].
  - change (Pos.size_nat p~1) with (S (Pos.size_nat p)).
    rewrite Nat2Z.inj_succ, Z.pow_succ_r by lia. lia.
  - change (Pos.size_nat p~0) with (S (Pos.size_nat p)).
    rewrite Nat2Z.inj_succ, Z.pow_succ_r by lia. lia.
  - simpl. lia.
Qed.

Lemma size_nat_least p (n : nat) : Z.pos p < 2 ^ Z.of_nat n -> (Pos.size_nat p <= n)%nat.
Proof.
  revert n. induction p as [p IH | p IH |]; intros n Hn.
  - destruct n as [| n]; [simpl in Hn; lia |].
    rewrite Nat2Z.inj_succ, Z.pow_succ_r in Hn by lia.
    change (Pos.size_nat p~1) with (S (Pos.size_nat p)).
    apply le_n_S, IH. lia.
  - destruct n as [| n]; [simpl in Hn; lia |].
    rewrite Nat2Z.inj_succ, Z.pow_succ_r in Hn by lia.
    change (Pos.size_nat p~0) with (S (Pos.size_nat p)).
    apply le_n_S, IH. lia.
  - destruct n as [| n]; [simpl in Hn; lia | simpl; lia].
Qed.

Lemma render_pad (k n : nat) v :
  0 <= v < 2 ^ Z.of_nat n ->
  render (k + n) v = repeat_char "0" k ++ render n v.
Proof.
  intros Hv. induction k as [| k IH]; [reflexivity |].
  simpl. rewrite IH. f_equal.
  destruct (Z.eq_dec v 0) as [-> | Hnz]; [now rewrite Z.bits_0 |].
  rewrite Z.bits_above_log2; [reflexivity | lia |].
  apply Z.lt_le_trans with (Z.of_nat n); [apply Z.log2_lt_pow2; lia | lia].
Qed.

(** The padded binary text of a number that fits [n >= 1] bits. *)
Lemma padStart_toString2 (n : nat) v :
  (1 <= n)%nat -> 0 <= v < 2 ^ Z.of_nat n ->
  padStart (toString2 v) (Z.of_nat n) "0" = render n v.
Proof.
  intros Hn Hv. unfold padStart, strlen.
  destruct v as [| p | p]; [| | lia].
  - change (toString2 0) with (render 1 0).
    rewrite render_length.
    replace (Z.to_nat (Z.of_nat n - Z.of_nat 1)) with (n - 1)%nat by lia.
    rewrite <- (render_pad (n - 1) 1 0) by (simpl; lia).
    f_equal; lia.
  - simpl toString2. rewrite pos_toString2_render, render_length.
    pose proof (size_nat_least p n (proj2 Hv)) as Hs.
    replace (Z.to_nat (Z.of_nat n - Z.of_nat (Pos.size_nat p)))
      with (n - Pos.size_nat p)%nat by lia.
    rewrite <- render_pad by (split; [lia | apply size_nat_bound]).
    f_equal. lia.
Qed.

(** *** Reading a bit-string *)

Lemma bit_cases c :
  Ascii.eqb c "0" || Ascii.eqb c "1" = true -> c = "0"%char \/ c = "1"%char.
Proof.
  intros H. apply orb_true_iff in H.
  destruct H as [H | H]; apply Ascii.eqb_eq in H; auto.
Qed.

Lemma parse_digits_bits s : forall acc,
    is_bitstring s = true ->
    parse_digits 2 s acc true = Some (bits_value s acc).
Proof.
  induction s as [| c s IH]; intros acc Hs; [reflexivity |].
  simpl in Hs. apply andb_true_iff in Hs. destruct Hs as [Hc Hs].
  destruct (bit_cases c Hc) as [-> | ->]; simpl; now rewrite IH.
Qed.

Lemma BigInt_prefixed_bits s :
  is_bitstring s = true -> s <> "" ->
  BigInt_prefixed 2 s = Return (bits_value s 0).
Proof.
  intros Hs Hne. unfold BigInt_prefixed.
  destruct s as [| c s]; [contradiction |].
  simpl in Hs. apply andb_true_iff in Hs. destruct Hs as [Hc Hs].
  destruct (bit_cases c Hc) as [-> | ->]; simpl;
    now rewrite parse_digits_bits.
Qed.

Lemma bits_value_split s : forall acc,
    exists w, 0 <= w < 2 ^ Z.of_nat (String.length s)
              /\ bits_value s acc = acc * 2 ^ Z.of_nat (String.length s) + w.
Proof.
  induction s as [| c s IH]; intros acc.
  - exists 0. simpl. lia.
  - destruct (IH (acc * 2 + (if Ascii.eqb c "1" then 1 else 0))) as (w & Hw & E).
    cbn [bits_value String.length]. rewrite E.
    rewrite Nat2Z.inj_succ, Z.pow_succ_r by lia.
    set (P := 2 ^ Z.of_nat (String.length s)) in *.
    destruct (Ascii.eqb c "1").
    + exists (P + w). split; [lia | ring].
    + exists w. split; [lia | ring].
Qed.

Lemma bits_value_range s :
  0 <= bits_value s 0 < 2 ^ Z.of_nat (String.length s).
Proof.
  destruct (bits_value_split s 0) as (w & Hw & E). rewrite E. lia.
Qed.

Lemma render_bits_value s : forall acc,
    is_bitstring s = true ->
    render (String.length s) (bits_value s acc) = s.
Proof.
  induction s as [| c s IH]; intros acc Hs; [reflexivity |].
  simpl in Hs. apply andb_true_iff in Hs. destruct Hs as [Hc Hs].
  cbn [String.length render bits_value].
  rewrite IH by assumption. f_equal.
  set (d := if Ascii.eqb c "1" then 1 else 0).
  destruct (bits_value_split s (acc * 2 + d)) as (w & Hw & E).
  rewrite E.
  replace (Z.of_nat (String.length s)) with (0 + Z.of_nat (String.length s)) at 2 by lia.
  rewrite <- Z.div_pow2_bits by lia.
  assert (Hdiv : ((acc * 2 + d) * 2 ^ Z.of_nat (String.length s) + w)
                 / 2 ^ Z.of_nat (String.length s) = acc * 2 + d).
  { symmetry. apply (Z.div_unique _ _ _ w); [lia | ring]. }
  rewrite Hdiv. subst d.
  destruct (bit_cases c Hc) as [-> | ->]; simpl Ascii.eqb; cbv iota.
  - replace (acc * 2 + 0) with (2 * acc + Z.b2z false) by (unfold Z.b2z; ring).
    now rewrite Z.testbit_0_r.
  - replace (acc * 2 + 1) with (2 * acc + Z.b2z true) by (unfold Z.b2z; ring).
    now rewrite Z.testbit_0_r.
Qed.

(** A bit-string read by [fromBitString] is printed back by
    [toBitString]. *)
Lemma toBitString_fromBitString b :
  is_bitstring b = true -> b <> "" ->
  exists x, SizedBigInt.fromBitString b None true = Return x
            /\ SizedBigInt.val x = Some (bits_value b 0)
            /\ SizedBigInt.bits x = strlen b
            /\ SizedBigInt.toBitString x = b.
Proof.
  intros Hb Hne. unfold SizedBigInt.fromBitString.
  destruct (String.eqb_spec b "") as [E | _]; [contradiction |].
  cbn [SizedBigInt.setBits_byMax JS.bind fst snd].
  rewrite BigInt_prefixed_bits by assumption. cbn [JS.bind].
  eexists. split; [reflexivity |]. cbn [SizedBigInt.val SizedBigInt.bits].
  repeat split. unfold SizedBigInt.toBitString.
  cbn [SizedBigInt.val SizedBigInt.bits]. unfold strlen.
  rewrite padStart_toString2.
  - now apply render_bits_value.
  - destruct b; [contradiction | simpl; lia].
  - apply bits_value_range.
Qed.

End BitStrings.

(** ** Rendering in a hierarchical base *)

Section Rendering.
Import SizedBigInt.
Local Open Scope string_scope.
Local Open Scope Z_scope.
Local Open Scope sm_scope.

Lemma substring_app (s1 s2 : string) : forall n m,
    (n + m <= String.length s1)%nat ->
    substring n m (s1 ++ s2) = substring n m s1.
Proof.
  induction s1 as [| c s1 IH]; intros n m H.
  - simpl in H. assert (n = O) by lia. assert (m = O) by lia. subst.
    now destruct s2.
  - destruct n as [| n].
    + destruct m as [| m]; [reflexivity |].
      simpl. rewrite IH by (simpl in H; lia). reflexivity.
    + simpl. apply IH. simpl in H. lia.
Qed.

Lemma strlen_app s1 s2 : strlen (s1 ++ s2) = strlen s1 + strlen s2.
Proof. unfold strlen. rewrite slength_app. lia. Qed.

Lemma strlen_nonneg s : 0 <= strlen s.
Proof. unfold strlen. lia. Qed.

Lemma slice_app b1 b2 i k :
  0 <= i -> 0 <= k -> i + k <= strlen b1 ->
  slice (b1 ++ b2) i (i + k) = slice b1 i (i + k).
Proof.
  intros Hi Hk Hlen. unfold slice. rewrite strlen_app.
  pose proof (strlen_nonneg b2).
  destruct (Z.ltb_spec i 0); [lia |].
  destruct (Z.ltb_spec (i + k) 0); [lia |].
  rewrite !Z.min_l by lia.
  apply substring_app. unfold strlen in Hlen. lia.
Qed.

Lemma obj_get_set_same {V} k (v : V) o : obj_get k (obj_set k v o) = Some v.
Proof.
  induction o as [| [k' v'] o IH]; simpl.
  - now rewrite String.eqb_refl.
  - destruct (String.eqb k k') eqn:E; simpl.
    + now rewrite String.eqb_refl.
    + now rewrite E.
Qed.

(** *** The loop of [toString] *)

Lemma toString_loop_S fuel tr bpd b i r :
  toString_loop (S fuel) tr bpd b i r
  = if i <? strlen b
    then toString_loop fuel tr bpd b (i + bpd) (r ++ tr_text tr (slice b i (i + bpd)))
    else Return r.
Proof. reflexivity. Qed.

Lemma toString_loop_acc tr bpd b fuel : forall i r,
    toString_loop fuel tr bpd b i r
    = with_prefix r (toString_loop fuel tr bpd b i "").
Proof.
  induction fuel as [| fuel IH]; intros i r.
  - simpl. destruct (i <? strlen b); simpl; [reflexivity | now rewrite sapp_nil_r].
  - rewrite !toString_loop_S. destruct (i <? strlen b).
    + rewrite (IH _ (r ++ _)), (IH _ ("" ++ _)).
      destruct (toString_loop fuel tr bpd b (i + bpd) ""); simpl; try reflexivity.
      now rewrite sapp_assoc.
    + simpl. now rewrite sapp_nil_r.
Qed.

Lemma toString_loop_returns tr bpd b fuel : forall i,
    1 <= bpd -> strlen b - i <= Z.of_nat fuel ->
    exists x, toString_loop fuel tr bpd b i "" = Return x.
Proof.
  induction fuel as [| fuel IH]; intros i Hb Hf.
  - simpl. destruct (Z.ltb_spec i (strlen b)); [lia | eauto].
  - rewrite toString_loop_S. destruct (Z.ltb_spec i (strlen b)); [| eauto].
    rewrite toString_loop_acc.
    destruct (IH (i + bpd) Hb) as [x Hx]; [lia |].
    rewrite Hx. simpl. eauto.
Qed.

(** Rendering [b1] and rendering [b1 ++ b2] run in step as long as the
    digits lie in [b1], when [b1] ends on a digit boundary. *)
Lemma toString_loop_prefix tr bpd b1 b2 (k : nat) : forall i fuel1 fuel2,
    1 <= bpd -> 0 <= i ->
    strlen b1 = i + Z.of_nat k * bpd ->
    strlen b1 - i <= Z.of_nat fuel1 ->
    strlen (b1 ++ b2) - i <= Z.of_nat fuel2 ->
    exists x y,
      toString_loop fuel1 tr bpd b1 i "" = Return x
      /\ toString_loop fuel2 tr bpd (b1 ++ b2) i "" = Return (x ++ y).
Proof.
  induction k as [| k IH]; intros i fuel1 fuel2 Hb Hi Hlen Hf1 Hf2.
  - exists "".
    destruct (toString_loop_returns tr bpd (b1 ++ b2) fuel2 i Hb Hf2) as [y Hy].
    exists y. split; [| exact Hy].
    destruct fuel1; simpl; destruct (Z.ltb_spec i (strlen b1)); reflexivity || lia.
  - assert (Hlt : i < strlen b1) by nia.
    assert (Hlt2 : i < strlen (b1 ++ b2))
      by (rewrite strlen_app; pose proof (strlen_nonneg b2); lia).
    destruct fuel1 as [| fuel1]; [lia |].
    destruct fuel2 as [| fuel2]; [lia |].
    rewrite !toString_loop_S.
    apply Z.ltb_lt in Hlt, Hlt2. rewrite Hlt, Hlt2.
    apply Z.ltb_lt in Hlt, Hlt2.
    rewrite slice_app by nia.
    rewrite (toString_loop_acc tr bpd b1), (toString_loop_acc tr bpd (b1 ++ b2)).
    destruct (IH (i + bpd) fuel1 fuel2) as (x & y & Hx & Hy); try lia.
    rewrite Hx, Hy. simpl.
    exists (tr_text tr (slice b1 i (i + bpd)) ++ x), y.
    split; [reflexivity |]. now rewrite sapp_assoc.
Qed.

(** *** [toString] over the tables of the class *)

Lemma constructor_null st :
  labels_intact st ->
  exists s, constructor VNull "" None None st = (Return fromNull, Some s)
            /\ kx_baseLabel s = kx_baseLabel defaults
            /\ (forall s0, st = Some s0 -> s = s0).
Proof.
  intros H. unfold constructor, sbind. destruct st as [s0 |].
  - rewrite kx_RefreshDefaults_again. exists s0.
    split; [reflexivity |]. split; [exact H |]. now intros ? [= ->].
  - rewrite kx_RefreshDefaults_fresh. exists defaults.
    split; [reflexivity |]. split; [reflexivity |]. discriminate.
Qed.

Lemma hier_entry_props radix r :
  hier_entry radix r ->
  In radix ["2h"; "4h"; "8h"; "16h"]
  /\ label r = radix /\ base r <= 64 /\ 1 <= bitsPerDigit r
  /\ (forall s, kx_baseLabel s = kx_baseLabel defaults ->
                baseLabel radix (Some s) = (Return (radix, r), Some s)).
Proof.
  intros [H Hh]. unfold defaults in H. cbn [kx_baseLabel obj_get] in H.
  repeat match type of H with
         | context [if String.eqb radix ?k then _ else _] =>
             destruct (String.eqb_spec radix k) as [-> | _];
             [ first
                 [ discriminate H
                 | injection H as <-; first
                     [ discriminate Hh
                     | split; [simpl; tauto |];
                       split; [reflexivity |];
                       split; [cbn [base]; lia |];
                       split; [cbn [bitsPerDigit]; lia |];
                       intros [lbls tr] Hs; cbn [kx_baseLabel] in Hs; subst lbls;
                       vm_compute; reflexivity ] ]
             | ]
         end.
  discriminate H.
Qed.

Lemma toString_null radix r s n :
  baseLabel radix (Some s) = (Return (radix, r), Some s) ->
  toString {| val := None; bits := n |} radix (Some s) = (Return "", Some s).
Proof. intros Hl. unfold toString, sbind. now rewrite Hl. Qed.

Lemma toString_binary radix r s x v :
  baseLabel radix (Some s) = (Return (radix, r), Some s) ->
  base r = 2 -> val x = Some v ->
  toString x radix (Some s) = (Return (toBitString x), Some s).
Proof.
  intros Hl Hb Hv. unfold toString, sbind. rewrite Hl, Hv. cbn [snd].
  rewrite Hb. reflexivity.
Qed.

Lemma toString_runs radix r s x v :
  baseLabel radix (Some s) = (Return (radix, r), Some s) ->
  obj_get radix (kx_baseLabel s) = Some (Def r) ->
  label r = radix -> base r <> 2 -> base r <= 64 ->
  val x = Some v ->
  exists tr s',
    toString x radix (Some s)
    = (toString_loop (String.length (toBitString x)) tr (bitsPerDigit r)
         (toBitString x) 0 "", Some s')
    /\ kx_baseLabel s' = kx_baseLabel s
    /\ obj_get ("2-to-" ++ radix) (kx_tr s') = Some tr
    /\ (forall tr0, obj_get ("2-to-" ++ radix) (kx_tr s) = Some tr0 ->
                    tr = tr0 /\ s' = s).
Proof.
  intros Hl Hget Hlabel Hb2 Hb64 Hv.
  unfold toString, sbind. rewrite Hl, Hv. cbn [snd].
  destruct (Z.eqb_spec (base r) 2) as [E | _]; [contradiction |].
  rewrite Hlabel. unfold tables at 1.
  destruct (obj_get ("2-to-" ++ radix) (kx_tr s)) as [tr0 |] eqn:Ecache.
  - unfold ret, tables. rewrite Ecache. unfold lift.
    exists tr0, s. repeat split; try assumption; now injection H as <-.
  - unfold kx_trConfig, sbind, tables. rewrite Hget.
    destruct (Z.eqb_spec (base r) 2) as [E | _]; [contradiction |].
    destruct (Z.gtb_spec (base r) 64) as [E | _]; [lia |].
    unfold put_tables. cbn [kx_tr kx_baseLabel].
    rewrite Hlabel, obj_get_set_same. unfold lift.
    eexists. eexists. split; [reflexivity |].
    cbn [kx_tr kx_baseLabel]. split; [reflexivity |].
    split; [apply obj_get_set_same |]. discriminate.
Qed.

Lemma render_bits_unfold radix b st s :
  constructor VNull "" None None st = (Return fromNull, Some s) ->
  render_bits radix b st
  = match fromBitString b None true with
    | Return x => toString x radix (Some s)
    | Throw e => (Throw e, Some s)
    | Unfinished => (Unfinished, Some s)
    end.
Proof.
  intros H. unfold render_bits, sbind, lift. rewrite H.
  now destruct (fromBitString b None true).
Qed.

Lemma prefix_nil s : String.prefix "" s = true.
Proof. now destruct s. Qed.

(** Rendering a bit-string in a hierarchical base returns a text and
    keeps the table of bases. *)
Lemma render_bits_returns radix r s b :
  kx_baseLabel s = kx_baseLabel defaults ->
  hier_entry radix r ->
  is_bitstring b = true ->
  exists out s', render_bits radix b (Some s) = (Return out, Some s')
                 /\ kx_baseLabel s' = kx_baseLabel defaults.
Proof.
  intros Hs Hh Hb.
  destruct (hier_entry_props radix r Hh) as (_ & Hlabel & H64 & Hbpd & Hbase).
  destruct (constructor_null (Some s) Hs) as (s0 & Hc & _ & Hsame).
  rewrite (Hsame s eq_refl) in Hc. clear Hsame s0.
  rewrite (render_bits_unfold radix b _ _ Hc).
  destruct (String.eqb_spec b "") as [-> | Hne].
  - cbn [fromBitString String.eqb]. change (toString fromNull radix (Some s))
      with (toString {| val := None; bits := 0 |} radix (Some s)).
    rewrite (toString_null radix r s 0 (Hbase s Hs)). eauto.
  - destruct (toBitString_fromBitString b Hb Hne) as (x & Hx & Hv & _ & Hbits).
    rewrite Hx.
    destruct (Z.eq_dec (base r) 2) as [E2 | N2].
    + rewrite (toString_binary radix r s x _ (Hbase s Hs) E2 Hv). eauto.
    + assert (Hget : obj_get radix (kx_baseLabel s) = Some (Def r))
        by (rewrite Hs; apply Hh).
      destruct (toString_runs radix r s x _ (Hbase s Hs) Hget Hlabel N2 H64 Hv)
        as (tr & s' & Hrun & Hl' & _).
      rewrite Hrun, Hbits.
      destruct (toString_loop_returns tr (bitsPerDigit r) b (String.length b) 0 Hbpd)
        as [out Hout]; [unfold strlen; lia |].
      rewrite Hout. exists out, s'. split; [reflexivity | congruence].
Qed.

(** [C3], as the code has it: in a hierarchical base ([2h], [4h],
    [8h], [16h]), the text rendered from a bit-string [b] whose length
    is a multiple of the base's [bitsPerDigit] (any length in [2h]) is
    a prefix of the text rendered from every extension [b ++ tail]. *)
Theorem hierarchical_prefix_on_digits st radix r b tail :
  labels_intact st ->
  hier_entry radix r ->
  is_bitstring b = true ->
  is_bitstring tail = true ->
  (exists k : nat, strlen b = Z.of_nat k * bitsPerDigit r) ->
  exists s1 st1 s2 st2,
    render_bits radix b st = (Return s1, st1)
    /\ labels_intact st1
    /\ render_bits radix (b ++ tail) st1 = (Return s2, st2)
    /\ String.prefix s1 s2 = true.
Proof.
  intros Hst Hh Hb Ht [k Hk].
  destruct (hier_entry_props radix r Hh) as (_ & Hlabel & H64 & Hbpd & Hbase).
  destruct (constructor_null st Hst) as (s0 & Hc0 & Hl0 & _).
  assert (Hbt : is_bitstring (b ++ tail) = true)
    by (rewrite is_bitstring_app, Hb, Ht; reflexivity).
  rewrite (render_bits_unfold radix b _ _ Hc0).
  destruct (String.eqb_spec b "") as [-> | Hne].
  - (* the empty bit-string is rendered as the empty text *)
    cbn [fromBitString String.eqb]. change (toString fromNull radix (Some s0))
      with (toString {| val := None; bits := 0 |} radix (Some s0)).
    rewrite (toString_null radix r s0 0 (Hbase s0 Hl0)).
    destruct (render_bits_returns radix r s0 ("" ++ tail) Hl0 Hh Hbt)
      as (s2 & s' & Hr & _).
    exists "", (Some s0), s2, (Some s').
    split; [reflexivity |]. split; [exact Hl0 |]. split; [exact Hr |].
    apply prefix_nil.
  - destruct (toBitString_fromBitString b Hb Hne) as (x & Hx & Hv & _ & Hbits).
    assert (Hne2 : b ++ tail <> "").
    { destruct b; [contradiction | discriminate]. }
    destruct (toBitString_fromBitString (b ++ tail) Hbt Hne2)
      as (x2 & Hx2 & Hv2 & _ & Hbits2).
    rewrite Hx.
    destruct (Z.eq_dec (base r) 2) as [E2 | N2].
    + (* base 2: the text is the bit-string *)
      rewrite (toString_binary radix r s0 x _ (Hbase s0 Hl0) E2 Hv), Hbits.
      destruct (constructor_null (Some s0) Hl0) as (s0' & Hc & _ & Hsame).
      rewrite (Hsame s0 eq_refl) in Hc.
      exists b, (Some s0), (b ++ tail), (Some s0).
      split; [reflexivity |]. split; [exact Hl0 |].
      split; [| apply prefix_app].
      rewrite (render_bits_unfold radix (b ++ tail) _ _ Hc), Hx2.
      now rewrite (toString_binary radix r s0 x2 _ (Hbase s0 Hl0) E2 Hv2), Hbits2.
    + (* the other bases: digit by digit through the same table *)
      assert (Hget : obj_get radix (kx_baseLabel s0) = Some (Def r))
        by (rewrite Hl0; apply Hh).
      destruct (toString_runs radix r s0 x _ (Hbase s0 Hl0) Hget Hlabel N2 H64 Hv)
        as (tr & s1 & Hrun & Hl1 & Hcache & _).
      assert (Hl1' : kx_baseLabel s1 = kx_baseLabel defaults) by congruence.
      assert (Hget1 : obj_get radix (kx_baseLabel s1) = Some (Def r))
        by (rewrite Hl1'; apply Hh).
      destruct (toString_runs radix r s1 x2 _ (Hbase s1 Hl1') Hget1 Hlabel N2 H64 Hv2)
        as (tr2 & s2 & Hrun2 & _ & _ & Hsame).
      destruct (Hsame tr Hcache) as [-> ->].
      destruct (toString_loop_prefix tr (bitsPerDigit r) b tail k 0
                  (String.length b) (String.length (b ++ tail)) Hbpd)
        as (out & ext & Hout & Hout2);
        [lia | lia | unfold strlen; lia | unfold strlen; lia |].
      rewrite Hrun, Hbits, Hout.
      destruct (constructor_null (Some s1) Hl1') as (s1' & Hc & _ & Hs1).
      rewrite (Hs1 s1 eq_refl) in Hc.
      exists out, (Some s1), (out ++ ext), (Some s1).
      split; [reflexivity |]. split; [exact Hl1' |].
      split; [| apply prefix_app].
      rewrite (render_bits_unfold radix (b ++ tail) _ _ Hc), Hx2.
      now rewrite Hrun2, Hbits2, Hout2.
Qed.

Lemma hierarchical_prefix_on_digits_witness :
  exists s1 s2,
    fst (render_bits "4h" "01" None) = Return s1
    /\ fst (render_bits "4h" ("01" ++ "1") (snd (render_bits "4h" "01" None)))
       = Return s2
    /\ String.prefix s1 s2 = true.
Proof.
  assert (Hst : labels_intact None) by exact I.
  assert (Hh : hier_entry "4h"
                 {| base := 4; alphabet := "0123GQ"; isDefault := false;
                    isHierar := true; bitsPerDigit := 2; label := "4h" |})
    by (split; reflexivity).
  assert (Hb : is_bitstring "01" = true) by reflexivity.
  assert (Ht : is_bitstring "1" = true) by reflexivity.
  assert (Hk : exists k : nat, strlen "01" = Z.of_nat k * 2)
    by (exists 1%nat; reflexivity).
  destruct (hierarchical_prefix_on_digits None "4h" _ "01" "1" Hst Hh Hb Ht Hk)
    as (s1 & st1 & s2 & st2 & H1 & _ & H2 & Hp).
  exists s1, s2. rewrite H1. cbn [fst snd]. rewrite H2. cbn [fst].
  repeat split. exact Hp.
Defined.

(** [C3] fails as stated in base [4h]: the bit-string [0] is rendered
    as [G], its extension [00] as [0], and [G] is no prefix of [0]. *)
Lemma hierarchical_prefix_fails_4h :
  fst (render_bits "4h" "0" None) = Return "G"
  /\ fst (render_bits "4h" ("0" ++ "0") (snd (render_bits "4h" "0" None)))
     = Return "0"
  /\ String.prefix "G" "0" = false.
Proof. repeat split; vm_compute; reflexivity. Qed.

(** *** Base 2: what is printed is read back *)

Lemma bits_value_render (n : nat) v : forall acc,
    bits_value (render n v) acc = acc * 2 ^ Z.of_nat n + v mod 2 ^ Z.of_nat n.
Proof.
  induction n as [| n IH]; intros acc.
  - simpl. rewrite Z.mod_1_r. lia.
  - cbn [render bits_value]. rewrite IH.
    assert (Eb : (if Ascii.eqb (bit_char (Z.testbit v (Z.of_nat n))) "1" then 1 else 0)
                 = Z.b2z (Z.testbit v (Z.of_nat n)))
      by (now destruct (Z.testbit v (Z.of_nat n))).
    rewrite Eb, Nat2Z.inj_succ, Z.pow_succ_r by lia.
    rewrite (Z.mul_comm 2 (2 ^ Z.of_nat n)).
    rewrite (Z.rem_mul_r v (2 ^ Z.of_nat n) 2)
      by (pose proof (Z.pow_pos_nonneg 2 (Z.of_nat n)); lia).
    rewrite <- (Z.bit0_mod (v / 2 ^ Z.of_nat n)).
    rewrite <- Z.shiftr_div_pow2, Z.shiftr_spec by lia.
    rewrite Z.add_0_l. ring.
Qed.

(** In base 2 ([2h], or its alias [2]) [fromString] gives back the
    instance that [toString] printed, when the value fits its width of
    at least one bit. *)
Lemma fromString_toString_binary s radix x v :
  kx_baseLabel s = kx_baseLabel defaults ->
  radix = "2h" \/ radix = "2" ->
  val x = Some v -> 1 <= bits x -> 0 <= v < 2 ^ bits x ->
  (txt <- toString x radix ;; fromString txt radix None true) (Some s)
  = (Return x, Some s).
Proof.
  intros Hs Hr Hv Hn Hfit.
  set (r2 := {| base := 2; alphabet := "01"; isDefault := true;
                isHierar := true; bitsPerDigit := 1; label := "2h" |}).
  assert (Hl : baseLabel radix (Some s) = (Return ("2h", r2), Some s)).
  { destruct s as [lbls tr]. cbn [kx_baseLabel] in Hs. subst lbls.
    destruct Hr as [-> | ->]; vm_compute; reflexivity. }
  destruct x as [xv n]. cbn [val bits] in *. subst xv.
  unfold sbind at 1. unfold toString, sbind. rewrite Hl. cbn [snd val base r2].
  cbn [Z.eqb Pos.eqb]. unfold ret.
  unfold toBitString. cbn [val bits].
  rewrite <- (Z2Nat.id n) by lia.
  rewrite padStart_toString2 by (rewrite ?Z2Nat.id; lia).
  unfold fromString, sbind. rewrite Hl. cbn [base r2 Z.eqb Pos.eqb].
  assert (Hne : render (Z.to_nat n) v <> "").
  { destruct (Z.to_nat n) eqn:E; [lia | discriminate]. }
  destruct (String.eqb_spec (render (Z.to_nat n) v) "") as [E | _]; [contradiction |].
  unfold lift, fromBitString.
  destruct (String.eqb_spec (render (Z.to_nat n) v) "") as [E | _]; [contradiction |].
  cbn [setBits_byMax JS.bind fst snd].
  rewrite BigInt_prefixed_bits by (apply render_is_bitstring || assumption).
  cbn [JS.bind]. rewrite bits_value_render. unfold strlen.
  rewrite render_length, Z.mul_0_l, Z.add_0_l.
  rewrite Z.mod_small by (rewrite Z2Nat.id; lia).
  reflexivity.
Qed.

End Rendering.

(** ** Construction under a maximum width *)

Section Construction.
Import SizedBigInt.
Local Open Scope string_scope.
Local Open Scope Z_scope.
Local Open Scope sm_scope.

Lemma bits_value_app s1 : forall s2 acc,
    bits_value (s1 ++ s2) acc = bits_value s2 (bits_value s1 acc).
Proof.
  induction s1 as [| c s1 IH]; intros s2 acc; [reflexivity |].
  simpl. apply IH.
Qed.

Lemma substring_head s : forall m,
    (m <= String.length s)%nat ->
    exists rest, s = substring 0 m s ++ rest
                 /\ String.length (substring 0 m s) = m
                 /\ String.length rest = (String.length s - m)%nat.
Proof.
  induction s as [| c s IH]; intros m Hm.
  - simpl in Hm. assert (m = O) by lia. subst. exists "". repeat split.
  - destruct m as [| m].
    + exists (String c s). repeat split.
    + destruct (IH m) as (rest & E & L1 & L2); [simpl in Hm; lia |].
      exists rest. simpl. rewrite L1, <- E, L2. repeat split.
Qed.

Lemma slice_head b m :
  0 <= m <= strlen b -> slice b 0 m = substring 0 (Z.to_nat m) b.
Proof.
  intros Hm. unfold slice.
  destruct (Z.ltb_spec m 0); [lia |]. cbn [Z.ltb Z.compare].
  rewrite Z.min_l by lia. rewrite Z.min_l by lia.
  now rewrite Z.sub_0_r.
Qed.

(** The first [m] characters of a bit-string denote its value without
    the last bits. *)
Lemma bits_value_head b m :
  is_bitstring b = true -> 0 <= m <= strlen b ->
  is_bitstring (slice b 0 m) = true
  /\ strlen (slice b 0 m) = m
  /\ bits_value (slice b 0 m) 0 = Z.shiftr (bits_value b 0) (strlen b - m).
Proof.
  intros Hb Hm. rewrite slice_head by assumption.
  destruct (substring_head b (Z.to_nat m)) as (rest & E & L1 & L2);
    [unfold strlen in Hm; lia |].
  set (h := substring 0 (Z.to_nat m) b) in *.
  assert (Hbits : is_bitstring h && is_bitstring rest = true)
    by (rewrite <- is_bitstring_app, <- E; exact Hb).
  apply andb_true_iff in Hbits. destruct Hbits as [Hh Hrest].
  split; [exact Hh |]. split; [unfold strlen; lia |].
  replace (bits_value b 0) with (bits_value (h ++ rest) 0) by (now rewrite <- E).
  rewrite bits_value_app.
  destruct (bits_value_split rest (bits_value h 0)) as (w & Hw & Ew).
  rewrite Ew. unfold strlen in *.
  replace (Z.of_nat (String.length b) - m) with (Z.of_nat (String.length rest)) by lia.
  rewrite Z.shiftr_div_pow2 by lia.
  apply (Z.div_unique _ _ _ w); [lia | ring].
Qed.

Lemma fromBitString_over_width b mb cut :
  is_bitstring b = true -> mb <> 0 -> Z.abs mb < strlen b ->
  fromBitString b (Some mb) cut
  = if cut
    then Return {| val := Some (Z.shiftr (bits_value b 0) (strlen b - Z.abs mb));
                   bits := Z.abs mb |}
    else Throw (Error "ERR4").
Proof.
  intros Hb Hnz Hlen. unfold fromBitString.
  destruct (String.eqb_spec b "") as [-> | Hne]; [change (strlen "") with 0 in Hlen; lia |].
  unfold setBits_byMax.
  destruct (Z.eqb_spec mb 0) as [E | _]; [contradiction |].
  destruct (Z.gtb_spec (strlen b) (Z.abs mb)) as [_ | Hle]; [| lia].
  destruct cut; [| reflexivity].
  cbn [JS.bind fst snd].
  destruct (bits_value_head b (Z.abs mb) Hb) as (Hh & Hl & Hv); [lia |].
  rewrite BigInt_prefixed_bits; [| exact Hh |].
  - cbn [JS.bind]. now rewrite Hv.
  - intros E. rewrite E in Hl. change (strlen "") with 0 in Hl. lia.
Qed.

Lemma kx_RefreshDefaults_intact st :
  labels_intact st ->
  exists s, kx_RefreshDefaults st = (Return tt, Some s)
            /\ kx_baseLabel s = kx_baseLabel defaults.
Proof.
  intros H. destruct st as [s |].
  - exists s. split; [reflexivity | exact H].
  - exists defaults. split; [apply kx_RefreshDefaults_fresh | reflexivity].
Qed.

Lemma constructor_number st n radix maxBits cut :
  fst (constructor (VNumber n) radix maxBits cut st)
  = fromInt (ABigInt (n mod 2 ^ 32)) maxBits
      (match cut with Some b => b | None => true end).
Proof.
  unfold constructor, sbind.
  destruct st as [s |];
    [rewrite kx_RefreshDefaults_again | rewrite kx_RefreshDefaults_fresh];
    reflexivity.
Qed.

Lemma constructor_bitstring st b radix maxBits cut :
  labels_intact st -> radix = "2" \/ radix = "2h" -> b <> "" ->
  fst (constructor (VString b) radix maxBits cut st)
  = fromBitString b maxBits (match cut with Some c => c | None => true end).
Proof.
  intros Hst Hr Hne. unfold constructor, sbind.
  destruct (kx_RefreshDefaults_intact st Hst) as (s & -> & Hs).
  set (r2 := {| base := 2; alphabet := "01"; isDefault := true;
                isHierar := true; bitsPerDigit := 1; label := "2h" |}).
  assert (Hl : baseLabel radix (Some s) = (Return ("2h", r2), Some s)).
  { destruct s as [lbls tr]. cbn [kx_baseLabel] in Hs. subst lbls.
    destruct Hr as [-> | ->]; vm_compute; reflexivity. }
  assert (Hrad : (if String.eqb radix "" then "4" else radix) = radix)
    by (destruct Hr as [-> | ->]; reflexivity).
  unfold fromAny. rewrite Hrad. unfold fromString, sbind. rewrite Hl.
  destruct (String.eqb_spec b "") as [E | _]; [contradiction |].
  reflexivity.
Qed.

Lemma fromInt_within z mb cut :
  mb <> 0 -> strlen (toString2 z) <= Z.abs mb ->
  fromInt (ABigInt z) (Some mb) cut
  = Return {| val := Some z;
              bits := if mb <? 0 then strlen (toString2 z) else Z.abs mb |}.
Proof.
  intros Hnz Hlen. unfold fromInt, setBits_byMax.
  destruct (Z.eqb_spec mb 0) as [E | _]; [contradiction |].
  destruct (Z.gtb_spec (strlen (toString2 z)) (Z.abs mb)) as [Hgt | _]; [lia |].
  destruct (Z.ltb_spec mb 0) as [Hneg | Hpos]; cbn [Z.eqb].
  - destruct (Z.ltb_spec (strlen (toString2 z)) 0) as [H0 | _].
    + unfold strlen in H0. lia.
    + reflexivity.
  - destruct (Z.ltb_spec (strlen (toString2 z)) (Z.abs mb)) as [Hlt | Hge];
      cbn [JS.bind fst snd]; [reflexivity |].
    replace (strlen (toString2 z)) with (Z.abs mb) by lia. reflexivity.
Qed.

(** [C8], as the code has it: when an instance is constructed with a
    non-zero maximum width from a BigInt or a bit-string whose binary
    text is longer, the construction raises the error (ERR4) only if
    the caller passes [onErr_cutLSD = false]; with [true], and also
    when the argument is left out, for [true] is its default, the
    least-significant bits are dropped and the maximum is recorded as
    the width.  Of a Number the constructor keeps [val >>> 0], the
    Number modulo [2^32], before it looks at the width: the same holds
    of a Number when the binary text of that remainder is longer than
    the maximum; when it is not, the remainder is stored without error
    and without truncation, whatever the caller passes and however
    long the binary text of the Number itself. *)
Theorem construction_over_width (st : option statics) (mb : Z) (radix : string) :
  mb <> 0 ->
  labels_intact st ->
  let narrowed (z len : Z) :=
    {| val := Some (Z.shiftr z (len - Z.abs mb)); bits := Z.abs mb |} in
  (forall z,
      Z.abs mb < strlen (toString2 z) ->
      fst (constructor (VBigInt z) radix (Some mb) (Some false) st)
      = Throw (Error "ERR4")
      /\ fst (constructor (VBigInt z) radix (Some mb) (Some true) st)
         = Return (narrowed z (strlen (toString2 z)))
      /\ fst (constructor (VBigInt z) radix (Some mb) None st)
         = Return (narrowed z (strlen (toString2 z))))
  /\ (forall n,
         Z.abs mb < strlen (toString2 (n mod 2 ^ 32)) ->
         fst (constructor (VNumber n) radix (Some mb) (Some false) st)
         = Throw (Error "ERR4")
         /\ fst (constructor (VNumber n) radix (Some mb) (Some true) st)
            = Return (narrowed (n mod 2 ^ 32) (strlen (toString2 (n mod 2 ^ 32))))
         /\ fst (constructor (VNumber n) radix (Some mb) None st)
            = Return (narrowed (n mod 2 ^ 32) (strlen (toString2 (n mod 2 ^ 32)))))
  /\ (forall n cut,
         strlen (toString2 (n mod 2 ^ 32)) <= Z.abs mb ->
         fst (constructor (VNumber n) radix (Some mb) cut st)
         = Return {| val := Some (n mod 2 ^ 32);
                     bits := if mb <? 0
                             then strlen (toString2 (n mod 2 ^ 32))
                             else Z.abs mb |})
  /\ (forall b,
         radix = "2" \/ radix = "2h" ->
         is_bitstring b = true ->
         Z.abs mb < strlen b ->
         fst (constructor (VString b) radix (Some mb) (Some false) st)
         = Throw (Error "ERR4")
         /\ fst (constructor (VString b) radix (Some mb) (Some true) st)
            = Return (narrowed (bits_value b 0) (strlen b))
         /\ fst (constructor (VString b) radix (Some mb) None st)
            = Return (narrowed (bits_value b 0) (strlen b))).
Proof.
  intros Hnz Hst narrowed. split; [| split; [| split]].
  - intros z Hlen.
    rewrite !constructor_bigint, !fromInt_over_width by assumption.
    repeat split.
  - intros n Hlen.
    rewrite !constructor_number, !fromInt_over_width by assumption.
    repeat split.
  - intros n cut Hlen.
    rewrite constructor_number. now apply fromInt_within.
  - intros b Hr Hb Hlen.
    assert (Hne : b <> "") by (intros ->; change (strlen "") with 0 in Hlen; lia).
    rewrite !constructor_bitstring, !fromBitString_over_width by assumption.
    repeat split.
Qed.

Lemma construction_over_width_witness :
  fst (constructor (VBigInt 5) "" (Some 2) (Some false) None) = Throw (Error "ERR4")
  /\ fst (constructor (VBigInt 5) "" (Some 2) None None)
     = Return {| val := Some 2; bits := 2 |}
  /\ fst (constructor (VString "10111") "2" (Some 2) None None)
     = Return {| val := Some 2; bits := 2 |}
  /\ fst (constructor (VNumber 5) "" (Some 2) (Some false) None)
     = Throw (Error "ERR4")
  /\ fst (constructor (VNumber (2 ^ 32 + 5)) "" (Some 2) None None)
     = Return {| val := Some 2; bits := 2 |}
  /\ fst (constructor (VNumber (2 ^ 32)) "" (Some 8) (Some false) None)
     = Return {| val := Some 0; bits := 8 |}.
Proof.
  assert (Hnz : 2 <> 0) by discriminate.
  assert (Hnz8 : 8 <> 0) by discriminate.
  assert (Hst : labels_intact None) by exact I.
  destruct (construction_over_width None 2 "" Hnz Hst) as (Hbig & Hnum & _ & _).
  destruct (construction_over_width None 2 "2" Hnz Hst) as (_ & _ & _ & Hstr).
  destruct (construction_over_width None 8 "" Hnz8 Hst) as (_ & _ & Hfit & _).
  assert (Hlen : Z.abs 2 < strlen (toString2 5)) by reflexivity.
  destruct (Hbig 5 Hlen) as (Hno & _ & Hdflt).
  assert (Hr : "2" = "2" \/ "2" = "2h") by (left; reflexivity).
  assert (Hb : is_bitstring "10111" = true) by reflexivity.
  assert (Hl : Z.abs 2 < strlen "10111") by reflexivity.
  destruct (Hstr "10111" Hr Hb Hl) as (_ & _ & Hsd).
  destruct (Hnum 5 Hlen) as (Hn5 & _ & _).
  assert (Hlen' : Z.abs 2 < strlen (toString2 ((2 ^ 32 + 5) mod 2 ^ 32)))
    by reflexivity.
  destruct (Hnum (2 ^ 32 + 5) Hlen') as (_ & _ & Hn32).
  assert (Hle : strlen (toString2 (2 ^ 32 mod 2 ^ 32)) <= Z.abs 8)
    by (vm_compute; discriminate).
  pose proof (Hfit (2 ^ 32) (Some false) Hle) as Hwrap.
  split; [exact Hno |]. split; [exact Hdflt |]. split; [exact Hsd |].
  split; [exact Hn5 |]. split; [exact Hn32 | exact Hwrap].
Defined.

(** [C8] fails as stated: [new SizedBigInt(5n, null, 2)], where the
    caller says nothing about truncation, raises no error; it drops the
    last bit of [101] and keeps [10] on 2 bits. *)
Lemma construction_truncates_by_default :
  2 < strlen (toString2 5)
  /\ fst (constructor (VBigInt 5) "" (Some 2) None None)
     = Return {| val := Some 2; bits := 2 |}
  /\ ~ throws (fst (constructor (VBigInt 5) "" (Some 2) None None)).
Proof.
  split; [reflexivity |]. split; [reflexivity |]. apply throws_Return.
Qed.

End Construction.

(* ================================================================== *)
(** * Part IV: further properties of the code                          *)
(* ================================================================== *)

(** ** Bit widths of the grid *)

Section GridWidths.
Import GSfc4q.

Lemma toString2_length z : 0 < z -> strlen (toString2 z) = Z.log2 z + 1.
Proof.
  intros Hz. destruct z as [| p | p]; try lia.
  unfold toString2, strlen. rewrite pos_toString2_render, render_length.
  assert (Hs : (1 <= Pos.size_nat p)%nat) by (destruct p; simpl; lia).
  symmetry. apply Z.add_move_r. apply Z.log2_unique.
  - lia.
  - replace (Z.succ (Z.of_nat (Pos.size_nat p) - 1))
      with (Z.of_nat (Pos.size_nat p)) by lia.
    split; [| apply size_nat_bound].
    destruct (Z.le_gt_cases (2 ^ (Z.of_nat (Pos.size_nat p) - 1)) (Z.pos p))
      as [Hle | Hgt]; [exact Hle | exfalso].
    replace (Z.of_nat (Pos.size_nat p) - 1)
      with (Z.of_nat (Pos.size_nat p - 1)) in Hgt by lia.
    apply size_nat_least in Hgt. lia.
Qed.

Lemma pow4_pow2 n : 0 <= n -> 4 ^ n = 2 ^ (2 * n).
Proof. intros Hn. rewrite Z.pow_mul_r by lia. reflexivity. Qed.

Lemma toString2_pow4_pred n : 1 <= n -> strlen (toString2 (4 ^ n - 1)) = 2 * n.
Proof.
  intros Hn. rewrite pow4_pow2 by lia.
  assert (Hp : 2 ^ 1 <= 2 ^ (2 * n - 1)) by (apply Z.pow_le_mono_r; lia).
  assert (Hq : 2 ^ (2 * n) = 2 * 2 ^ (2 * n - 1)).
  { rewrite <- Z.pow_succ_r by lia. f_equal. lia. }
  change (2 ^ 1) with 2 in Hp.
  rewrite toString2_length by lia.
  rewrite (Z.log2_unique (2 ^ (2 * n) - 1) (2 * n - 1)); [lia | lia |].
  replace (Z.succ (2 * n - 1)) with (2 * n) by lia. lia.
Qed.

(** What [refresh] leaves in the properties, by the integer level. *)
Lemma refresh_fields this lvl g :
  refresh this lvl = Return g ->
  0 <= blevel g
  /\ nBKeys g = 4 ^ blevel g
  /\ nRefRows g = 2 ^ blevel g
  /\ nKeys g = (if isHalf g then Z.quot (4 ^ blevel g) 2 else 4 ^ blevel g)
  /\ bkeyBits g = strlen (toString2 (4 ^ blevel g - 1))
  /\ keyBits g = (if isHalf g then bkeyBits g - 1 else bkeyBits g)
  /\ (blevel g = 0 -> isHalf g = true).
Proof.
  unfold refresh.
  pose proof (chosen_level_nonzero this lvl) as Hnz.
  set (level0 := or_level lvl (or_level (option_map level this) 1)) in *.
  destruct (Z.ltb_spec (Qceiling level0) 0) as [| Hb]; [discriminate |].
  intros H. injection H as <-.
  cbn [level blevel isHalf nKeys nBKeys keyBits bkeyBits nRefRows].
  repeat split; try assumption.
  intros H0. rewrite H0.
  destruct (Qeq_bool (inject_Z 0) level0) eqn:E; [| reflexivity].
  apply Qeq_bool_iff in E. exfalso. apply Hnz. symmetry. exact E.
Qed.

(** From integer level 1 on, keys and bkeys are the numbers of
    [keyBits] and [bkeyBits] bits. *)
Lemma refresh_widths (this : option state) (lvl : option Q) (g : state) :
  refresh this lvl = Return g ->
  1 <= blevel g ->
  bkeyBits g = 2 * blevel g
  /\ nBKeys g = 2 ^ bkeyBits g
  /\ nKeys g = 2 ^ keyBits g
  /\ 1 <= keyBits g.
Proof.
  intros H H1. apply refresh_fields in H.
  destruct H as (Hb & HnB & HnR & HnK & HbB & HkB & Hz).
  rewrite toString2_pow4_pred in HbB by lia.
  split; [exact HbB |]. split; [| split].
  - rewrite HnB, HbB. apply pow4_pow2; lia.
  - rewrite HnK, HkB, HbB, pow4_pow2 by lia.
    destruct (isHalf g); [| reflexivity].
    replace (2 * blevel g) with (Z.succ (2 * blevel g - 1)) at 1 by lia.
    rewrite Z.pow_succ_r by lia.
    rewrite Z.mul_comm, Z.quot_mul by lia. reflexivity.
  - rewrite HkB, HbB. destruct (isHalf g); lia.
Qed.

(** [X1] The bit widths [refresh] computes, for a level of any type:
    the grid has [nRefRows^2] cells; from integer level 1 on,
    [bkeyBits] is twice [blevel], [keyBits] is one less at a half level,
    and the keys (the bkeys) are exactly the numbers of [keyBits]
    ([bkeyBits]) bits.  At integer level 0 there is one cell and
    [bkeyBits] is 1; the grid is then either half, with no key and a
    key width of 0, or the grid of level 0, with the one key 0 and a
    key width of 1, which only a string that converts to 0 configures,
    and no Number. *)
Theorem refresh_bit_widths (this : option state) (lvl : level_arg) (g : state) :
  refresh_any this lvl = Return g ->
  nRefRows g * nRefRows g = nBKeys g
  /\ keyBits g = bkeyBits g - (if isHalf g then 1 else 0)
  /\ (1 <= blevel g ->
      bkeyBits g = 2 * blevel g
      /\ nBKeys g = 2 ^ bkeyBits g
      /\ nKeys g = 2 ^ keyBits g)
  /\ (blevel g < 1 ->
      blevel g = 0 /\ nBKeys g = 1 /\ bkeyBits g = 1
      /\ (isHalf g = true -> nKeys g = 0 /\ keyBits g = 0)
      /\ (isHalf g = false ->
          g = level_zero
          /\ exists n, lvl = LString (Some n) /\ (n == 0)%Q)).
Proof.
  intros H.
  destruct (refresh_any_chosen _ _ _ H)
    as (l0 & Hl0 & Hb0 & Eb & Eh & El & HnB & HnR & HnK & HbB & HkB).
  assert (Hb : 0 <= blevel g) by lia.
  split; [| split; [| split]].
  - rewrite HnR, HnB, pow4_pow2 by lia.
    rewrite <- Z.pow_add_r by lia. f_equal. lia.
  - rewrite HkB. destruct (isHalf g); lia.
  - intros H1. rewrite toString2_pow4_pred in HbB by lia.
    split; [exact HbB |]. split.
    + rewrite HnB, HbB. apply pow4_pow2; lia.
    + rewrite HnK, HkB, HbB, pow4_pow2 by lia.
      destruct (isHalf g); [| reflexivity].
      replace (2 * blevel g) with (Z.succ (2 * blevel g - 1)) at 1 by lia.
      rewrite Z.pow_succ_r by lia.
      rewrite Z.mul_comm, Z.quot_mul by lia. reflexivity.
  - intros H0. assert (E : blevel g = 0) by lia.
    rewrite E in HnB, HnK, HbB, El.
    change (4 ^ 0) with 1 in HnB, HnK, HbB.
    change (strlen (toString2 (1 - 1))) with 1 in HbB.
    split; [exact E |]. split; [exact HnB |]. split; [exact HbB |].
    split; intros Hh; rewrite Hh in HnK, HkB, El.
    + split; [exact HnK | lia].
    + split.
      * rewrite E in HnR. rewrite HbB in HkB.
        apply state_eq; assumption.
      * rewrite Hh, <- Eb, E in Eh. symmetry in Eh.
        apply negb_false_iff, Qeq_bool_iff in Eh.
        destruct lvl as [| q | [n |]]; cbn [chosen_level] in Hl0.
        -- exfalso. apply (chosen_level_number this None l0 Hl0).
           now rewrite <- Eh.
        -- exfalso. apply (chosen_level_number this (Some q) l0 Hl0).
           now rewrite <- Eh.
        -- injection Hl0 as ->. exists l0. split; [reflexivity |].
           now rewrite <- Eh.
        -- discriminate Hl0.
Qed.

Lemma refresh_bit_widths_witness :
  refresh_any None (LNumber (3 # 2)%Q) = Return level_one_and_half
  /\ nRefRows level_one_and_half * nRefRows level_one_and_half
     = nBKeys level_one_and_half
  /\ keyBits level_one_and_half = bkeyBits level_one_and_half - 1.
Proof.
  pose proof (refresh_bit_widths None (LNumber (3 # 2)%Q) level_one_and_half
                eq_refl) as H.
  split; [reflexivity |].
  split; [exact (proj1 H) | exact (proj1 (proj2 H))].
Defined.

End GridWidths.

(** ** [refresh] without a level *)

Section GridAgain.
Import GSfc4q.

Lemma Qceiling_minus_half (b : Z) : Qceiling (inject_Z b - (1 # 2)) = b.
Proof.
  pose proof (Qceiling_lt (inject_Z b - (1 # 2))) as Hlo.
  pose proof (Qle_ceiling (inject_Z b - (1 # 2))) as Hhi.
  set (c := Qceiling (inject_Z b - (1 # 2))) in *.
  unfold Qlt, Qle, Qminus, Qplus, Qopp, inject_Z in Hlo, Hhi.
  cbn in Hlo, Hhi. lia.
Qed.

Lemma half_level_nonzero (b : Z) : ~ (inject_Z b - (1 # 2) == 0)%Q.
Proof.
  unfold Qeq, Qminus, Qplus, Qopp, inject_Z. cbn. lia.
Qed.

Lemma half_level_not_integer (b : Z) :
  Qeq_bool (inject_Z b) (Qred (inject_Z b - (1 # 2))) = false.
Proof.
  destruct (Qeq_bool _ _) eqn:E; [| reflexivity].
  apply Qeq_bool_iff in E. rewrite Qred_correct in E.
  exfalso. revert E. unfold Qeq, Qminus, Qplus, Qopp, inject_Z. cbn. lia.
Qed.

(** [refresh()] on an instance whose level is not 0 computes its
    properties from that level. *)
Lemma refresh_any_again (g : state) :
  ~ (level g == 0)%Q ->
  chosen_level (Some g) LNone = Some (level g).
Proof.
  intros Hg. unfold chosen_level. cbn [option_map].
  now rewrite or_level_given.
Qed.

(** [X2] [refresh()] without a level, on an instance that [refresh]
    has configured (with a level of any type): when the level kept is
    not 0, which is so whenever the level given was a Number or was
    left out, it changes nothing: the ceiling of the level kept is the
    integer level kept, and all the properties are computed again to the
    same values.  The level kept is 0 only after a string that converts
    to 0; [refresh()] then takes it for no level and configures
    level 1. *)
Theorem refresh_idempotent (this : option state) (lvl : level_arg) (g : state) :
  refresh_any this lvl = Return g ->
  (~ (level g == 0)%Q -> refresh_any (Some g) LNone = Return g)
  /\ ((level g == 0)%Q ->
      refresh_any (Some g) LNone = Return level_one
      /\ g = level_zero
      /\ exists n, lvl = LString (Some n) /\ (n == 0)%Q)
  /\ (forall l, lvl = number_or_none l -> refresh_any (Some g) LNone = Return g).
Proof.
  intros H.
  destruct (refresh_any_chosen _ _ _ H)
    as (l0 & Hl0 & Hb0 & Eb & Eh & El & HnB & HnR & HnK & HbB & HkB).
  assert (Hl1 : (level g == inject_Z (blevel g)
                            - (if isHalf g then 1 # 2 else 0))%Q)
    by (rewrite El; apply Qred_correct).
  assert (Hzero : (level g == 0)%Q -> blevel g = 0 /\ isHalf g = false).
  { intros E. rewrite Hl1 in E. destruct (isHalf g).
    - exfalso. exact (half_level_nonzero _ E).
    - split; [| reflexivity].
      revert E. unfold Qeq, Qminus, Qplus, Qopp, inject_Z.
      cbn [Qnum Qden]. lia. }
  assert (Hsame : ~ (level g == 0)%Q -> refresh_any (Some g) LNone = Return g).
  { intros Hne. unfold refresh_any. rewrite (refresh_any_again g Hne).
    assert (Hc : Qceiling (level g) = blevel g).
    { rewrite Hl1. destruct (isHalf g).
      - apply Qceiling_minus_half.
      - setoid_replace (inject_Z (blevel g) - 0)%Q with (inject_Z (blevel g))
          by ring.
        apply Qceiling_Z. }
    rewrite Hc.
    assert (Hh : negb (Qeq_bool (inject_Z (blevel g)) (level g)) = isHalf g).
    { rewrite El. destruct (isHalf g).
      - rewrite half_level_not_integer. reflexivity.
      - apply negb_false_iff, Qeq_bool_iff. rewrite Qred_correct. ring. }
    rewrite Hh, <- El.
    destruct (Z.ltb_spec (blevel g) 0) as [| _]; [lia |].
    f_equal. symmetry.
    apply state_eq;
      cbn [level blevel isHalf nKeys nBKeys keyBits bkeyBits nRefRows];
      try reflexivity; try assumption.
    now rewrite HkB, HbB. }
  assert (Hstring : (level g == 0)%Q ->
                    g = level_zero
                    /\ exists n, lvl = LString (Some n) /\ (n == 0)%Q).
  { intros E. destruct (Hzero E) as [E0 Hh].
    rewrite E0, Hh in *.
    change (4 ^ 0) with 1 in HnB, HnK, HbB.
    change (strlen (toString2 (1 - 1))) with 1 in HbB.
    split.
    - rewrite HbB in HkB. apply state_eq; assumption.
    - rewrite <- Eb in Eh. symmetry in Eh.
      apply negb_false_iff, Qeq_bool_iff in Eh.
      destruct lvl as [| q | [n |]]; cbn [chosen_level] in Hl0.
      + exfalso. apply (chosen_level_number this None l0 Hl0).
        now rewrite <- Eh.
      + exfalso. apply (chosen_level_number this (Some q) l0 Hl0).
        now rewrite <- Eh.
      + injection Hl0 as ->. exists l0. split; [reflexivity |].
        now rewrite <- Eh.
      + discriminate Hl0. }
  split; [exact Hsame |]. split.
  - intros E. destruct (Hstring E) as [Eg Hs].
    split; [| split; [exact Eg | exact Hs]].
    rewrite Eg. reflexivity.
  - intros l ->. apply Hsame. intros E.
    destruct (Hstring E) as (_ & n & Hn & _).
    destruct l; discriminate Hn.
Qed.

Lemma refresh_idempotent_witness :
  refresh_any None (LNumber (3 # 2)%Q) = Return level_one_and_half
  /\ refresh_any (Some level_one_and_half) LNone = Return level_one_and_half
  /\ refresh_any None (LString (Some 0%Q)) = Return level_zero
  /\ refresh_any (Some level_zero) LNone = Return level_one.
Proof.
  pose proof (refresh_idempotent None (LNumber (3 # 2)%Q) level_one_and_half
                eq_refl) as H1.
  pose proof (refresh_idempotent None (LString (Some 0%Q)) level_zero
                eq_refl) as H0.
  split; [reflexivity |].
  split; [apply (proj1 H1); discriminate |].
  split; [reflexivity |].
  apply (proj1 (proj2 H0)). reflexivity.
Defined.

End GridAgain.

(** ** The keys of a level *)

Section LevelKeys.
Import GSfc4q.

Lemma Qceiling_halves (k : Z) : Qceiling (k # 2) = (k + 1) / 2.
Proof.
  pose proof (Qceiling_lt (k # 2)) as Hlo.
  pose proof (Qle_ceiling (k # 2)) as Hhi.
  set (c := Qceiling (k # 2)) in *.
  unfold Qlt, Qle, Qminus, Qplus, Qopp, inject_Z in Hlo, Hhi.
  cbn in Hlo, Hhi.
  apply (Z.div_unique (k + 1) 2 c (k + 1 - 2 * c)); lia.
Qed.

(** [X3] The grid of a level given in halves: for every [k >= 1],
    [refresh(k/2)] configures a grid of [2^k] keys, of [k] bits each,
    at the integer level [(k+1) div 2], half when [k] is odd; the
    level kept is [k/2]. *)
Theorem level_in_halves (this : option state) (k : Z) :
  1 <= k ->
  exists g,
    refresh this (Some (k # 2)) = Return g
    /\ nKeys g = 2 ^ k
    /\ keyBits g = k
    /\ blevel g = (k + 1) / 2
    /\ isHalf g = Z.odd k
    /\ (level g == k # 2)%Q.
Proof.
  intros Hk.
  assert (Hnz : ~ (k # 2 == 0)%Q) by (unfold Qeq; cbn; lia).
  assert (Hc : Qceiling (k # 2) = (k + 1) / 2) by apply Qceiling_halves.
  pose proof (Z.div_mod (k + 1) 2 ltac:(lia)) as Hd.
  pose proof (Z.mod_pos_bound (k + 1) 2 ltac:(lia)) as Hm.
  assert (Hb : 1 <= (k + 1) / 2) by lia.
  assert (Hh : negb (Qeq_bool (inject_Z ((k + 1) / 2)) (k # 2)) = Z.odd k).
  { rewrite <- Z.negb_even. f_equal.
    destruct (Z.even k) eqn:Ev.
    - apply Qeq_bool_iff. apply Z.even_spec in Ev. destruct Ev as [m ->].
      replace ((2 * m + 1) / 2) with m
        by (apply (Z.div_unique _ 2 m 1); lia).
      unfold Qeq, inject_Z. cbn [Qnum Qden]. lia.
    - destruct (Qeq_bool _ _) eqn:E; [| reflexivity].
      apply Qeq_bool_iff in E. unfold Qeq, inject_Z in E. cbn [Qnum Qden] in E.
      assert (Ho : Z.odd k = true) by (rewrite <- Z.negb_even, Ev; reflexivity).
      apply Z.odd_spec in Ho. destruct Ho as [m ->]. lia. }
  set (b := (k + 1) / 2) in *.
  assert (Eb : 2 * b = k + (if Z.odd k then 1 else 0)).
  { destruct (Z.odd k) eqn:Ho.
    - apply Z.odd_spec in Ho. destruct Ho as [m Em]. unfold b. rewrite Em.
      replace ((2 * m + 1 + 1) / 2) with (m + 1)
        by (apply (Z.div_unique _ 2 (m + 1) 0); lia). lia.
    - assert (Ev : Z.even k = true) by (rewrite <- Z.negb_odd, Ho; reflexivity).
      apply Z.even_spec in Ev. destruct Ev as [m Em]. unfold b. rewrite Em.
      replace ((2 * m + 1) / 2) with m
        by (apply (Z.div_unique _ 2 m 1); lia). lia. }
  remember (Qred (inject_Z b - (if Z.odd k then 1 # 2 else 0))) as l1 eqn:El1.
  assert (Hr : exists g, refresh this (Some (k # 2)) = Return g
                         /\ blevel g = b /\ isHalf g = Z.odd k /\ level g = l1).
  { unfold refresh. rewrite (or_level_given _ _ Hnz), Hc, Hh, <- El1.
    destruct (Z.ltb_spec b 0); [lia |].
    eexists. split; [reflexivity |]. cbn [blevel isHalf level]. auto. }
  destruct Hr as (g & Hr & Hgb & Hgh & Hgl).
  exists g. split; [exact Hr |].
  destruct (refresh_widths _ _ _ Hr ltac:(lia)) as (HbB & _ & HnK & _).
  pose proof (refresh_fields _ _ _ Hr) as (_ & _ & _ & _ & _ & HkB & _).
  assert (Ek : keyBits g = k).
  { rewrite HkB, HbB, Hgb, Hgh. destruct (Z.odd k); lia. }
  rewrite HnK, Ek, Hgl, El1.
  repeat split; try assumption.
  eapply Qeq_trans; [apply Qred_correct |].
  destruct (Z.odd k); unfold Qeq, Qminus, Qplus, Qopp, inject_Z;
    cbn [Qnum Qden]; lia.
Qed.

Lemma level_in_halves_witness :
  exists g,
    refresh None (Some (3 # 2)%Q) = Return g
    /\ nKeys g = 2 ^ 3
    /\ keyBits g = 3
    /\ blevel g = (3 + 1) / 2
    /\ isHalf g = Z.odd 3
    /\ (level g == 3 # 2)%Q.
Proof.
  apply (level_in_halves None 3). lia.
Defined.

End LevelKeys.

(** ** The Morton curve across levels *)

Section MortonLevels.
Import GSfc4qLbl_Morton.

Lemma testbit_above a n m : 0 <= a < 2 ^ n -> n <= m -> Z.testbit a m = false.
Proof.
  intros Ha Hm. assert (0 <= n).
  { destruct (Z.le_gt_cases 0 n); [assumption |].
    rewrite Z.pow_neg_r in Ha by lia. lia. }
  rewrite <- (Z.mod_small a (2 ^ n)) by lia.
  apply Z.mod_pow2_bits_high. lia.
Qed.

Lemma below_pow2 a n :
  0 <= a -> 0 <= n -> (forall m, n <= m -> Z.testbit a m = false) -> a < 2 ^ n.
Proof.
  intros Ha Hn H.
  assert (E : a = a mod 2 ^ n).
  { apply Z.bits_inj'. intros m Hm.
    destruct (Z.lt_ge_cases m n).
    - now rewrite Z.mod_pow2_bits_low.
    - rewrite Z.mod_pow2_bits_high by lia. now apply H. }
  rewrite E. apply Z.mod_pos_bound. lia.
Qed.

Lemma morton_encode_then_decode x y :
  0 <= x < 2 ^ 32 -> 0 <= y < 2 ^ 32 ->
  bkey_decode (bkey_encode x y) = (x, y).
Proof.
  intros Hx Hy. destruct deinterleave_hom as [_ Hd].
  unfold bkey_decode, bkey_encode. cbv zeta.
  rewrite Z.shiftr_lor, !Hd.
  rewrite Z.shiftr_shiftl_l by lia. change (1 - 1) with 0.
  rewrite Z.shiftl_0_r.
  rewrite !deinterleave_interleave, deinterleave_odd_positions,
    deinterleave_shifted_even by assumption.
  rewrite Z.lor_0_r, Z.lor_0_l.
  rewrite !Number_exact by (rewrite Z.abs_eq; lia).
  reflexivity.
Qed.

Lemma bkey_encode_bits x y b :
  0 <= x < 2 ^ 32 -> 0 <= y < 2 ^ 32 -> 0 <= b ->
  Z.testbit (bkey_encode x y) (2 * b) = Z.testbit x b
  /\ Z.testbit (bkey_encode x y) (2 * b + 1) = Z.testbit y b.
Proof.
  intros Hx Hy Hb. unfold bkey_encode. cbv zeta.
  rewrite !Z.lor_spec, !Z.shiftl_spec by lia.
  replace (2 * b + 1 - 1) with (2 * b) by lia.
  rewrite !_bkey_interleave_bits by assumption.
  assert (E0 : Z.even (2 * b) = true) by (rewrite Z.even_mul; reflexivity).
  assert (E1 : Z.even (2 * b + 1) = false).
  { rewrite Z.add_comm, Z.even_add_mul_2. reflexivity. }
  assert (E2 : Z.even (2 * b - 1) = false).
  { replace (2 * b - 1) with (1 + 2 * (b - 1)) by lia.
    rewrite Z.even_add_mul_2. reflexivity. }
  rewrite E0, E1, E2.
  replace (2 * b / 2) with b by (apply Z.div_unique_exact; lia).
  split; [apply orb_false_r | reflexivity].
Qed.

Lemma bkey_encode_nonneg x y : 0 <= x -> 0 <= y -> 0 <= bkey_encode x y.
Proof.
  intros Hx Hy. unfold bkey_encode. cbv zeta.
  pose proof (_bkey_interleave_range x Hx).
  pose proof (_bkey_interleave_range y Hy).
  apply Z.lor_nonneg. split; [lia |]. apply Z.shiftl_nonneg. lia.
Qed.

(** On a grid of side [2^n], the keys of the cells are below [4^n]. *)
Lemma bkey_encode_level n x y :
  0 <= n <= 32 -> 0 <= x < 2 ^ n -> 0 <= y < 2 ^ n ->
  0 <= bkey_encode x y < 4 ^ n.
Proof.
  intros Hn Hx Hy.
  assert (Hp : 2 ^ n <= 2 ^ 32) by (apply Z.pow_le_mono_r; lia).
  split; [apply bkey_encode_nonneg; lia |].
  rewrite pow4_pow2 by lia.
  apply below_pow2; [apply bkey_encode_nonneg; lia | lia |].
  intros m Hm.
  destruct (Z.even m) eqn:Em.
  - apply Z.even_spec in Em. destruct Em as [k ->].
    destruct (bkey_encode_bits x y k) as [-> _]; try lia.
    apply (testbit_above x n); lia.
  - assert (Ho : Z.odd m = true) by (rewrite <- Z.negb_even, Em; reflexivity).
    apply Z.odd_spec in Ho. destruct Ho as [k ->].
    destruct (bkey_encode_bits x y k) as [_ ->]; try lia.
    apply (testbit_above y n); lia.
Qed.

(** The cells of the keys below [4^n] lie on the grid of side [2^n]. *)
Lemma bkey_decode_level n d :
  0 <= n <= 32 -> 0 <= d < 4 ^ n ->
  0 <= fst (bkey_decode d) < 2 ^ n /\ 0 <= snd (bkey_decode d) < 2 ^ n.
Proof.
  intros Hn Hd.
  assert (Hp : 4 ^ n <= 2 ^ 64).
  { rewrite pow4_pow2 by lia. apply Z.pow_le_mono_r; lia. }
  pose proof (morton_decode_then_encode d ltac:(lia)) as E.
  unfold bkey_decode in *. cbn [fst snd] in *.
  pose proof (deinterleave_range d) as Hx.
  pose proof (deinterleave_range (Z.shiftr d 1)) as Hy.
  rewrite !Number_exact in * by (rewrite Z.abs_eq; lia).
  set (x := deinterleave d) in *. set (y := deinterleave (Z.shiftr d 1)) in *.
  rewrite pow4_pow2 in Hd by lia.
  split; (split; [lia |]); (apply below_pow2; [lia | lia |]); intros m Hm.
  - destruct (bkey_encode_bits x y m) as [<- _]; try lia.
    rewrite E. apply (testbit_above d (2 * n)); lia.
  - destruct (bkey_encode_bits x y m) as [_ <-]; try lia.
    rewrite E. apply (testbit_above d (2 * n)); lia.
Qed.

End MortonLevels.

(** ** Keys and cells, at integer and half levels *)

Section KeysAndCells.
Import GSfc4q.

Lemma Morton_exact_on g :
  nBKeys g = 4 ^ blevel g -> nRefRows g = 2 ^ blevel g ->
  0 <= blevel g <= 32 ->
  exact_on Morton g.
Proof.
  intros HnB HnR Hb.
  assert (Hp : 2 ^ blevel g <= 2 ^ 32) by (apply Z.pow_le_mono_r; lia).
  split.
  - intros b Hk. rewrite HnB in Hk.
    exists (GSfc4qLbl_Morton.bkey_decode b).
    split; [reflexivity |]. split.
    + unfold in_grid. rewrite HnR.
      apply bkey_decode_level; assumption.
    + cbn [bkey_encode Morton]. f_equal.
      apply morton_decode_then_encode.
      assert (4 ^ blevel g <= 2 ^ 64)
        by (rewrite pow4_pow2 by lia; apply Z.pow_le_mono_r; lia).
      lia.
  - intros [i j] [Hi Hj]. cbn [fst snd] in *. rewrite HnR in Hi, Hj.
    exists (GSfc4qLbl_Morton.bkey_encode i j).
    split; [reflexivity |]. split.
    + rewrite HnB. apply bkey_encode_level; assumption.
    + cbn [bkey_decode Morton]. f_equal.
      apply morton_encode_then_decode; lia.
Qed.

Lemma Hilbert_exact_on g :
  nBKeys g = 4 ^ blevel g -> nRefRows g = 2 ^ blevel g ->
  0 <= blevel g <= 53 ->
  exact_on Hilbert g.
Proof.
  intros HnB HnR Hb.
  unfold exact_on, in_grid. rewrite HnB, HnR.
  rewrite <- (Z2Nat.id (blevel g)) by lia.
  set (m := Z.to_nat (blevel g)).
  assert (Hm : 2 ^ Z.of_nat m <= 2 ^ 53) by (apply Z.pow_le_mono_r; lia).
  split.
  - intros b Hk.
    destruct (hencode_hdecode m b (proj1 Hk)) as [[Hi Hj] Henc].
    exists (hdecode m b).
    rewrite Hilbert_bkey_decode, Hilbert_bkey_encode, HnR.
    rewrite <- (Z2Nat.id (blevel g)) by lia. fold m.
    rewrite _bkey_decode_pow2, _bkey_encode_pow2.
    rewrite !Number_exact by (rewrite Z.abs_eq; lia).
    rewrite <- !surjective_pairing, Henc, Z.mod_small by lia.
    repeat split; lia.
  - intros [i j] [Hi Hj]. cbn [fst snd] in *.
    exists (hencode m (i, j)).
    rewrite Hilbert_bkey_decode, Hilbert_bkey_encode, HnR.
    rewrite <- (Z2Nat.id (blevel g)) by lia. fold m.
    rewrite _bkey_decode_pow2, _bkey_encode_pow2.
    pose proof (hdecode_hencode m i j 0 (Z.le_refl 0)) as Hdec.
    rewrite Z.mul_0_l, Z.add_0_l in Hdec.
    rewrite Hdec. cbn [fst snd].
    rewrite !Z.mod_small by lia.
    rewrite !Number_exact by (rewrite Z.abs_eq; lia).
    pose proof (hencode_range m (i, j)).
    repeat split; lia.
Qed.

Lemma half_keys_bkeys g key :
  0 <= blevel g -> 0 <= key < Z.quot (4 ^ blevel g) 2 ->
  1 <= blevel g /\ 0 <= 2 * key /\ 2 * key + 1 < 4 ^ blevel g.
Proof.
  intros Hb Hk.
  assert (H1 : 1 <= blevel g).
  { destruct (Z.eq_dec (blevel g) 0) as [E | ]; [| lia].
    rewrite E in Hk. change (Z.quot (4 ^ 0) 2) with 0 in Hk. lia. }
  split; [exact H1 |].
  replace (blevel g) with (Z.succ (blevel g - 1)) in * by lia.
  rewrite Z.pow_succ_r in * by lia.
  replace (4 * 4 ^ (blevel g - 1)) with (2 * 4 ^ (blevel g - 1) * 2) in * by ring.
  rewrite Z.quot_mul in Hk by lia. lia.
Qed.

Lemma shift_even k : Z.shiftl (Z.shiftr (2 * k) 1) 1 = 2 * k.
Proof.
  rewrite Z.shiftr_div_pow2, Z.shiftl_mul_pow2 by lia.
  change (2 ^ 1) with 2.
  replace (2 * k / 2) with k by (apply Z.div_unique_exact; lia). lia.
Qed.

Lemma shift_odd k : Z.shiftl (Z.shiftr (2 * k + 1) 1) 1 = 2 * k.
Proof.
  rewrite Z.shiftr_div_pow2, Z.shiftl_mul_pow2 by lia.
  change (2 ^ 1) with 2.
  replace ((2 * k + 1) / 2) with k by (apply (Z.div_unique _ _ _ 1); lia).
  lia.
Qed.

Lemma key_round_trip_exact (curve : Curve) this lvl g key :
  refresh this lvl = Return g ->
  exact_on curve g ->
  0 <= key < nKeys g ->
  key_round_trip curve g key.
Proof.
  intros Hr [Hdec _] Hk. apply refresh_fields in Hr.
  destruct Hr as (Hb & HnB & HnR & HnK & _).
  unfold key_round_trip, key_decode, key_encode, bkeys_of.
  destruct (isHalf g) eqn:Eh.
  - rewrite HnK in Hk. destruct (half_keys_bkeys g key Hb Hk) as (_ & H0 & H1).
    destruct (Hdec (2 * key)) as (ij0 & E0 & G0 & C0); [lia |].
    destruct (Hdec (2 * key + 1)) as (ij1 & E1 & G1 & C1); [lia |].
    exists ij0, (Some ij1). rewrite E0, E1, C0, C1. cbn [bind].
    rewrite shift_even, shift_odd.
    split; [reflexivity |]. split; [exact G0 |]. split; [reflexivity |].
    split; [reflexivity |]. split; [exact G1 |]. split; [| reflexivity].
    intros ->. rewrite C0 in C1. injection C1. lia.
  - rewrite HnK in Hk.
    destruct (Hdec key) as (ij0 & E0 & G0 & C0); [lia |].
    exists ij0, None. rewrite E0, C0. cbn [bind].
    split; [reflexivity |]. split; [exact G0 |]. split; reflexivity.
Qed.

Lemma cell_round_trip_exact (curve : Curve) this lvl g ij :
  refresh this lvl = Return g ->
  exact_on curve g ->
  1 <= blevel g ->
  in_grid g ij ->
  cell_round_trip curve g ij.
Proof.
  intros Hr [Hdec Henc] H1 Hij. apply refresh_fields in Hr.
  destruct Hr as (Hb & HnB & HnR & HnK & _).
  destruct (Henc ij Hij) as (b & Eb & Rb & Db).
  unfold cell_round_trip, key_decode, key_encode, key_of, cell_of.
  rewrite Eb. cbn [bind]. rewrite HnK.
  destruct (isHalf g) eqn:Eh.
  - assert (Hq : 4 ^ blevel g = 2 * Z.quot (4 ^ blevel g) 2).
    { replace (blevel g) with (Z.succ (blevel g - 1)) by lia.
      rewrite Z.pow_succ_r by lia.
      replace (4 * 4 ^ (blevel g - 1)) with (2 * 4 ^ (blevel g - 1) * 2) by ring.
      rewrite Z.quot_mul by lia. ring. }
    rewrite HnB in Rb.
    set (k := b / 2).
    assert (Hk : b = 2 * k \/ b = 2 * k + 1).
    { unfold k. pose proof (Z.div_mod b 2 ltac:(lia)).
      pose proof (Z.mod_pos_bound b 2 ltac:(lia)). lia. }
    clearbody k.
    assert (Es : Z.shiftl (Z.shiftr b 1) 1 = 2 * k).
    { destruct Hk as [-> | ->]; [apply shift_even | apply shift_odd]. }
    destruct (Hdec (2 * k)) as (ij0 & E0 & _); [lia |].
    destruct (Hdec (2 * k + 1)) as (ij1 & E1 & _); [lia |].
    exists (2 * k, Some (2 * k + 1)), (ij0, Some ij1).
    rewrite Es. cbn [fst snd].
    replace (Z.quot (2 * k) 2) with k by (rewrite Z.mul_comm, Z.quot_mul; lia).
    rewrite E0, E1. cbn [bind].
    split; [reflexivity |]. split; [lia |]. split; [reflexivity |].
    destruct Hk as [E | E]; rewrite <- E in *.
    + left. rewrite Db in E0. now injection E0.
    + right. rewrite Db in E1. now injection E1 as <-.
  - exists (b, None), (ij, None). cbn [fst snd]. rewrite Db. cbn [bind].
    rewrite HnB in Rb.
    split; [reflexivity |]. split; [lia |]. split; [reflexivity |].
    now left.
Qed.

End KeysAndCells.

Section KeyRoundTrips.
Import GSfc4q.

(** [X4] [key_decode] then [key_encode], on a grid that [refresh] has
    configured, for every key of the grid (from 0 below [nKeys]):
    [key_decode] returns one cell of the grid at an integer level and
    two distinct cells at a half level, and [key_encode] of each cell
    returned gives [[key, null]] at an integer level and
    [[2*key, 2*key+1]] at a half level.  This holds for the Morton
    curve up to [blevel] 32 and for the Hilbert curve up to [blevel]
    53. *)
Theorem key_decode_then_encode
        (this : option state) (lvl : option Q) (g : state) (key : Z) :
  refresh this lvl = Return g ->
  0 <= key < nKeys g ->
  (blevel g <= 32 -> key_round_trip Morton g key)
  /\ (blevel g <= 53 -> key_round_trip Hilbert g key).
Proof.
  intros Hr Hk. pose proof (refresh_fields _ _ _ Hr) as (Hb & HnB & HnR & _).
  split; intros Hl.
  - apply (key_round_trip_exact Morton this lvl); try assumption.
    apply Morton_exact_on; try assumption. lia.
  - apply (key_round_trip_exact Hilbert this lvl); try assumption.
    apply Hilbert_exact_on; try assumption. lia.
Qed.

Lemma key_decode_then_encode_witness :
  refresh None (Some (3 # 2)%Q) = Return level_one_and_half
  /\ key_round_trip Morton level_one_and_half 5
  /\ key_round_trip Hilbert level_one_and_half 5.
Proof.
  pose proof (key_decode_then_encode None (Some (3 # 2)%Q)
                level_one_and_half 5 eq_refl
                ltac:(cbn; lia)) as H.
  split; [reflexivity |].
  split; [apply (proj1 H); cbn; lia | apply (proj2 H); cbn; lia].
Defined.

(** [X5] [key_encode] then [key_decode], on a grid of integer level 1
    or more that [refresh] has configured, for every cell [(i,j)] of the
    grid: the key taken from the result of [key_encode] (its first
    component, halved at a half level) is a key of the grid, and
    [key_decode] of that key returns the cell, alone at an integer
    level and as one of the two cells at a half level.  This holds for
    the Morton curve up to [blevel] 32 and for the Hilbert curve up to
    [blevel] 53. *)
Theorem key_encode_then_decode
        (this : option state) (lvl : option Q) (g : state) (i j : Z) :
  refresh this lvl = Return g ->
  1 <= blevel g ->
  in_grid g (i, j) ->
  (blevel g <= 32 -> cell_round_trip Morton g (i, j))
  /\ (blevel g <= 53 -> cell_round_trip Hilbert g (i, j)).
Proof.
  intros Hr H1 Hij.
  pose proof (refresh_fields _ _ _ Hr) as (Hb & HnB & HnR & _).
  split; intros Hl.
  - apply (cell_round_trip_exact Morton this lvl); try assumption.
    apply Morton_exact_on; try assumption. lia.
  - apply (cell_round_trip_exact Hilbert this lvl); try assumption.
    apply Hilbert_exact_on; try assumption. lia.
Qed.

Lemma key_encode_then_decode_witness :
  refresh None (Some (3 # 2)%Q) = Return level_one_and_half
  /\ cell_round_trip Morton level_one_and_half (3, 1)
  /\ cell_round_trip Hilbert level_one_and_half (3, 1).
Proof.
  pose proof (key_encode_then_decode None (Some (3 # 2)%Q)
                level_one_and_half 3 1 eq_refl
                ltac:(cbn; lia) ltac:(unfold in_grid; cbn; lia)) as H.
  split; [reflexivity |].
  split; [apply (proj1 H); cbn; lia | apply (proj2 H); cbn; lia].
Defined.

End KeyRoundTrips.

Section MortonHierarchy.
Import GSfc4qLbl_Morton.

Lemma shiftr_range x k n : 0 <= k -> 0 <= x < 2 ^ n -> 0 <= Z.shiftr x k < 2 ^ n.
Proof.
  intros Hk Hx. rewrite Z.shiftr_div_pow2 by lia.
  assert (0 < 2 ^ k) by (apply Z.pow_pos_nonneg; lia).
  split; [apply Z.div_pos; lia |].
  apply Z.le_lt_trans with x; [| lia].
  apply Z.div_le_upper_bound; [lia |]. nia.
Qed.

(** [X6] The Morton key is hierarchical: for 32-bit coordinates, the
    key of the cell [(x >> k, y >> k)], which is the cell [k] levels
    up that contains [(x,y)], is the key of [(x,y)] without its last
    [2k] bits. *)
Theorem morton_ancestor_key (x y k : Z) :
  0 <= x < 2 ^ 32 -> 0 <= y < 2 ^ 32 -> 0 <= k ->
  bkey_encode (Z.shiftr x k) (Z.shiftr y k)
  = Z.shiftr (bkey_encode x y) (2 * k).
Proof.
  intros Hx Hy Hk.
  pose proof (shiftr_range x k 32 Hk Hx) as Hx'.
  pose proof (shiftr_range y k 32 Hk Hy) as Hy'.
  apply Z.bits_inj'. intros m Hm.
  rewrite Z.shiftr_spec by lia.
  destruct (Z.even m) eqn:Em.
  - apply Z.even_spec in Em. destruct Em as [b ->].
    replace (2 * b + 2 * k) with (2 * (b + k)) by ring.
    destruct (bkey_encode_bits (Z.shiftr x k) (Z.shiftr y k) b) as [-> _];
      try lia.
    destruct (bkey_encode_bits x y (b + k)) as [-> _]; try lia.
    apply Z.shiftr_spec. lia.
  - assert (Ho : Z.odd m = true) by (rewrite <- Z.negb_even, Em; reflexivity).
    apply Z.odd_spec in Ho. destruct Ho as [b ->].
    replace (2 * b + 1 + 2 * k) with (2 * (b + k) + 1) by ring.
    destruct (bkey_encode_bits (Z.shiftr x k) (Z.shiftr y k) b) as [_ ->];
      try lia.
    destruct (bkey_encode_bits x y (b + k)) as [_ ->]; try lia.
    apply Z.shiftr_spec. lia.
Qed.

Lemma morton_ancestor_key_witness :
  bkey_encode (Z.shiftr 5 1) (Z.shiftr 3 1) = Z.shiftr (bkey_encode 5 3) (2 * 1)
  /\ bkey_encode 5 3 = 27 /\ bkey_encode 2 1 = 6.
Proof.
  split; [apply (morton_ancestor_key 5 3 1); lia |].
  split; reflexivity.
Defined.

Lemma deinterleave_low d : deinterleave (d mod 2 ^ 64) = deinterleave d.
Proof.
  unfold deinterleave. cbv zeta.
  rewrite <- Z.land_ones by lia. rewrite <- Z.land_assoc.
  reflexivity.
Qed.

Lemma deinterleave_shifted_low d :
  deinterleave (Z.shiftr (d mod 2 ^ 64) 1) = deinterleave (Z.shiftr d 1).
Proof.
  unfold deinterleave. cbv zeta.
  rewrite <- Z.land_ones by lia. rewrite Z.shiftr_land, <- Z.land_assoc.
  reflexivity.
Qed.

(** [X7] The Morton [bkey_decode] reads the 64 low bits of its
    argument and nothing else: any BigInt, negative or beyond 64 bits,
    is decoded as its residue modulo [2^64], and the coordinates
    returned are always 32-bit numbers.  The level of the grid plays no
    part. *)
Theorem morton_decode_low_bits (d : Z) :
  bkey_decode d = bkey_decode (d mod 2 ^ 64)
  /\ 0 <= fst (bkey_decode d) < 2 ^ 32
  /\ 0 <= snd (bkey_decode d) < 2 ^ 32.
Proof.
  unfold bkey_decode. cbn [fst snd].
  rewrite deinterleave_low, deinterleave_shifted_low.
  pose proof (deinterleave_range d).
  pose proof (deinterleave_range (Z.shiftr d 1)).
  rewrite !Number_exact by (rewrite Z.abs_eq; lia).
  split; [reflexivity | split; assumption].
Qed.

End MortonHierarchy.

(** ** The Morton key preserves the order of the coordinates *)

Section MortonOrder.
Import GSfc4qLbl_Morton.

Lemma _bkey_interleave_half x :
  0 <= x < 2 ^ 32 ->
  _bkey_interleave x = 4 * _bkey_interleave (x / 2) + x mod 2.
Proof.
  intros Hx.
  assert (Hq : forall v, 0 <= v < 2 ^ 32 ->
            _bkey_interleave (Z.shiftr v 1) = Z.shiftr (_bkey_interleave v) 2).
  { apply (lor_hom_ext (fun v => _bkey_interleave (Z.shiftr v 1))
             (fun v => Z.shiftr (_bkey_interleave v) 2) 32).
    - apply (lor_hom_compose _bkey_interleave);
        [apply _bkey_interleave_hom | apply lor_hom_shiftr].
    - apply (lor_hom_compose (fun v => Z.shiftr v 2));
        [apply lor_hom_shiftr | apply _bkey_interleave_hom].
    - intros i Hi. apply Z.eqb_eq.
      apply (forallb_below
               (fun i => _bkey_interleave (Z.shiftr (2 ^ i) 1)
                         =? Z.shiftr (_bkey_interleave (2 ^ i)) 2) 32);
        [vm_compute; reflexivity | exact Hi]. }
  assert (Hr : forall v, 0 <= v < 2 ^ 32 ->
            Z.land (_bkey_interleave v) 3 = Z.land v 1).
  { apply (lor_hom_ext (fun v => Z.land (_bkey_interleave v) 3)
             (fun v => Z.land v 1) 32).
    - apply (lor_hom_compose (fun v => Z.land v 3));
        [apply lor_hom_land | apply _bkey_interleave_hom].
    - apply lor_hom_land.
    - intros i Hi. apply Z.eqb_eq.
      apply (forallb_below
               (fun i => Z.land (_bkey_interleave (2 ^ i)) 3
                         =? Z.land (2 ^ i) 1) 32);
        [vm_compute; reflexivity | exact Hi]. }
  specialize (Hq x Hx). specialize (Hr x Hx).
  rewrite !Z.shiftr_div_pow2 in Hq by lia.
  change (2 ^ 1) with 2 in Hq. change (2 ^ 2) with 4 in Hq.
  change 3 with (Z.ones 2) in Hr. change 1 with (Z.ones 1) in Hr.
  rewrite !Z.land_ones in Hr by lia.
  change (2 ^ 2) with 4 in Hr. change (2 ^ 1) with 2 in Hr.
  rewrite Hq, <- Hr. apply Z.div_mod. lia.
Qed.

Lemma _bkey_interleave_increasing (n : nat) : forall x x',
    (n <= 32)%nat -> 0 <= x -> x < x' -> x' < 2 ^ Z.of_nat n ->
    _bkey_interleave x < _bkey_interleave x'.
Proof.
  induction n as [| n IH]; intros x x' Hn Hx Hlt Hx'.
  - change (2 ^ Z.of_nat 0) with 1 in Hx'. lia.
  - assert (Hp : 2 ^ Z.of_nat (S n) <= 2 ^ 32)
      by (apply Z.pow_le_mono_r; lia).
    rewrite pow2_S in Hx', Hp.
    rewrite (_bkey_interleave_half x), (_bkey_interleave_half x') by lia.
    pose proof (Z.div_mod x 2 ltac:(lia)) as Ex.
    pose proof (Z.div_mod x' 2 ltac:(lia)) as Ex'.
    pose proof (Z.mod_pos_bound x 2 ltac:(lia)).
    pose proof (Z.mod_pos_bound x' 2 ltac:(lia)).
    destruct (Z.eq_dec (x / 2) (x' / 2)) as [E | Hne].
    + rewrite E. lia.
    + specialize (IH (x / 2) (x' / 2) ltac:(lia) ltac:(lia) ltac:(lia)
                    ltac:(lia)). lia.
Qed.

Lemma bkey_encode_sum x y :
  0 <= x < 2 ^ 32 -> 0 <= y < 2 ^ 32 ->
  bkey_encode x y = _bkey_interleave x + 2 * _bkey_interleave y.
Proof.
  intros Hx Hy. unfold bkey_encode. cbv zeta.
  pose proof (Z.add_lor_land (_bkey_interleave x)
                (Z.shiftl (_bkey_interleave y) 1)) as H.
  assert (H0 : Z.land (_bkey_interleave x) (Z.shiftl (_bkey_interleave y) 1)
               = 0).
  { apply Z.bits_inj'. intros m Hm.
    rewrite Z.bits_0, Z.land_spec, Z.shiftl_spec by lia.
    rewrite !_bkey_interleave_bits by assumption.
    destruct (Z.even m) eqn:Em; [| reflexivity].
    replace (Z.even (m - 1)) with false; [apply andb_false_r |].
    apply Z.even_spec in Em. destruct Em as [k ->].
    replace (2 * k - 1) with (1 + 2 * (k - 1)) by lia.
    now rewrite Z.even_add_mul_2. }
  rewrite H0 in H. rewrite Z.shiftl_mul_pow2 in * by lia.
  change (2 ^ 1) with 2 in *. lia.
Qed.

(** [X8] The Morton key preserves the order of the coordinates: for
    32-bit coordinates, if [x <= x'] and [y <= y'] then
    [bkey_encode(x,y) <= bkey_encode(x',y')], and the two keys are
    equal only for the same cell.  The cells of a rectangle have their
    keys between the keys of its two corners. *)
Theorem morton_monotone (x y x' y' : Z) :
  0 <= x -> x <= x' -> x' < 2 ^ 32 ->
  0 <= y -> y <= y' -> y' < 2 ^ 32 ->
  bkey_encode x y <= bkey_encode x' y'
  /\ (bkey_encode x y = bkey_encode x' y' -> x = x' /\ y = y').
Proof.
  intros Hx Hxx Hx' Hy Hyy Hy'.
  rewrite !bkey_encode_sum by lia.
  assert (Hix : x < x' -> _bkey_interleave x < _bkey_interleave x')
    by (intros H; apply (_bkey_interleave_increasing 32); lia).
  assert (Hiy : y < y' -> _bkey_interleave y < _bkey_interleave y')
    by (intros H; apply (_bkey_interleave_increasing 32); lia).
  destruct (Z.eq_dec x x') as [<- | Nx], (Z.eq_dec y y') as [<- | Ny].
  - split; [lia | auto].
  - specialize (Hiy ltac:(lia)). split; lia.
  - specialize (Hix ltac:(lia)). split; lia.
  - specialize (Hix ltac:(lia)). specialize (Hiy ltac:(lia)). split; lia.
Qed.

Lemma morton_monotone_witness :
  bkey_encode 2 5 <= bkey_encode 3 5
  /\ (bkey_encode 2 5 = bkey_encode 3 5 -> 2 = 3 /\ 5 = 5).
Proof.
  apply (morton_monotone 2 5 3 5); lia.
Defined.

End MortonOrder.

(** ** The Hilbert curve as a path *)

Section HilbertPath.
Import GSfc4qLbl_Hilbert.

(** A round of the decoding loop, by the quadrant digit it reads. *)
Lemma decode_round_cases s t ij :
  0 <= t ->
  decode_round s t ij
  = if t mod 4 =? 0 then (snd ij, fst ij)
    else if t mod 4 =? 1 then (fst ij, snd ij + s)
    else if t mod 4 =? 2 then (fst ij + s, snd ij + s)
    else (s - 1 - snd ij + s, s - 1 - fst ij).
Proof.
  intros Ht. pose proof (decode_bits t Ht) as H. cbv zeta in H.
  unfold decode_round. cbv zeta.
  set (rx := Z.land 1 (Z.quot t 2)) in *.
  set (ry := Z.land 1 (Z.lxor t rx)) in *.
  destruct ij as [i j]. cbn [fst snd].
  clearbody rx ry.
  destruct H as ([-> | ->] & [-> | ->] & Hd);
    [change (Z.lxor (3 * 0) 0) with 0 in Hd
    |change (Z.lxor (3 * 0) 1) with 1 in Hd
    |change (Z.lxor (3 * 1) 0) with 3 in Hd
    |change (Z.lxor (3 * 1) 1) with 2 in Hd];
    rewrite <- Hd; unfold _rot; cbn [Z.eqb Pos.eqb fst snd]; f_equal; lia.
Qed.

Lemma divmod_unique N t r key :
  key = N * t + r -> 0 <= r < N -> key / N = t /\ key mod N = r.
Proof.
  intros E Hr. split.
  - symmetry. apply (Z.div_unique key N t r); [lia | exact E].
  - symmetry. apply (Z.mod_unique key N t r); [lia | exact E].
Qed.

(** The digits of a key: the quotient by [4^m], the rest, and the
    rest by [4^(m+1)]. *)
Lemma key_digits (m : nat) key :
  0 <= key ->
  exists t r,
    key = 4 ^ Z.of_nat m * t + r
    /\ 0 <= r < 4 ^ Z.of_nat m /\ 0 <= t
    /\ Z.quot key (4 ^ Z.of_nat m) = t
    /\ key mod 4 ^ Z.of_nat m = r
    /\ key mod 4 ^ Z.of_nat (S m) = r + 4 ^ Z.of_nat m * (t mod 4).
Proof.
  intros Hk. pose proof (pow4_pos m) as HN.
  set (N := 4 ^ Z.of_nat m) in *.
  exists (key / N), (key mod N).
  pose proof (Z.div_mod key N ltac:(lia)) as E.
  pose proof (Z.mod_pos_bound key N HN) as Hr.
  assert (Ht : 0 <= key / N) by (apply Z.div_pos; lia).
  repeat split; try lia.
  - apply Z.quot_div_nonneg; lia.
  - rewrite pow4_S. fold N.
    pose proof (Z.div_mod (key / N) 4 ltac:(lia)) as E4.
    pose proof (Z.mod_pos_bound (key / N) 4 ltac:(lia)) as H4.
    symmetry.
    apply (Z.mod_unique key (N * 4) (key / N / 4)); [nia |].
    rewrite E at 1. rewrite E4 at 1. ring.
Qed.

(** The curve of [m] rounds enters its square at [(0,0)], leaves it
    at [(2^m - 1, 0)], and moves by one cell at each key. *)
Lemma hdecode_path (m : nat) : forall key,
  0 <= key ->
  (key mod 4 ^ Z.of_nat m = 0 -> hdecode m key = (0, 0))
  /\ (key mod 4 ^ Z.of_nat m = 4 ^ Z.of_nat m - 1 ->
      hdecode m key = (2 ^ Z.of_nat m - 1, 0))
  /\ (key mod 4 ^ Z.of_nat m <> 4 ^ Z.of_nat m - 1 ->
      adjacent (hdecode m key) (hdecode m (key + 1))).
Proof.
  induction m as [| m IH]; intros key Hk.
  - change (4 ^ Z.of_nat 0) with 1. rewrite Z.mod_1_r.
    repeat split; try reflexivity. intros H. now contradiction H.
  - rewrite !hdecode_S.
    destruct (key_digits m key Hk) as (t & r & E & Hr & Ht & Eq & Em & ES).
    destruct (IH key Hk) as (IH0 & IH1 & IHa).
    pose proof (pow4_pos m) as HN. pose proof (pow2_pos m) as Hs.
    pose proof (pow2_square m) as Hsq.
    rewrite ES, Eq, Em in *.
    rewrite (decode_round_cases _ t) by exact Ht.
    pose proof (Z.mod_pos_bound t 4 ltac:(lia)) as H4.
    rewrite pow4_S, pow2_S.
    set (N := 4 ^ Z.of_nat m) in *. set (s := 2 ^ Z.of_nat m) in *.
    split; [| split].
    + intros H. assert (r = 0 /\ t mod 4 = 0) as [Hr0 Ht0] by nia.
      rewrite IH0 by exact Hr0. rewrite Ht0. reflexivity.
    + intros H. assert (r = N - 1 /\ t mod 4 = 3) as [Hr1 Ht3] by nia.
      rewrite IH1 by exact Hr1. rewrite Ht3. cbn [Z.eqb Pos.eqb fst snd].
      f_equal; lia.
    + intros H.
      assert (Hk1 : 0 <= key + 1) by lia.
      destruct (Z.eq_dec r (N - 1)) as [Hr1 | Hr1].
      * assert (Ht3 : t mod 4 <> 3) by nia.
        destruct (divmod_unique N (t + 1) 0 (key + 1)) as [Ed Emod];
          [lia | lia |].
        rewrite (Z.quot_div_nonneg (key + 1) N) by lia. rewrite Ed.
        rewrite (decode_round_cases _ (t + 1)) by lia.
        destruct (IH (key + 1) Hk1) as (IH0' & _). fold N in IH0'.
        rewrite IH0' by exact Emod. rewrite IH1 by exact Hr1.
        assert (Hm : (t + 1) mod 4 = t mod 4 + 1).
        { pose proof (Z.div_mod t 4 ltac:(lia)).
          symmetry. apply (Z.mod_unique _ 4 (t / 4)); lia. }
        rewrite Hm. unfold adjacent.
        destruct (Z.eqb_spec (t mod 4) 0) as [-> | ];
          [cbn [Z.eqb Z.add fst snd Pos.eqb]; lia |].
        destruct (Z.eqb_spec (t mod 4) 1) as [-> | ];
          [cbn [Z.eqb Z.add fst snd Pos.eqb Pos.add Pos.succ]; lia |].
        destruct (Z.eqb_spec (t mod 4) 2) as [-> | ];
          [cbn [Z.eqb Z.add fst snd Pos.eqb Pos.add Pos.succ]; lia | lia].
      * destruct (divmod_unique N t (r + 1) (key + 1)) as [Ed Emod];
          [lia | lia |].
        rewrite (Z.quot_div_nonneg (key + 1) N) by lia. rewrite Ed.
        rewrite (decode_round_cases _ t) by lia.
        specialize (IHa Hr1). unfold adjacent in *.
        destruct (hdecode m key) as [i j], (hdecode m (key + 1)) as [i' j'].
        cbn [fst snd] in *.
        destruct (t mod 4 =? 0); [cbn [fst snd]; lia |].
        destruct (t mod 4 =? 1); [cbn [fst snd]; lia |].
        destruct (t mod 4 =? 2); cbn [fst snd]; lia.
Qed.

End HilbertPath.

Section HilbertKeys.
Import GSfc4qLbl_Hilbert.

Lemma hdecode_mod (m : nat) key :
  0 <= key -> hdecode m (key mod 4 ^ Z.of_nat m) = hdecode m key.
Proof.
  intros Hk. pose proof (pow4_pos m) as HN.
  pose proof (Z.mod_pos_bound key (4 ^ Z.of_nat m) HN) as Hr.
  set (r := key mod 4 ^ Z.of_nat m) in *.
  destruct (hencode_hdecode m r (proj1 Hr)) as [[Hi Hj] Henc].
  rewrite Z.mod_small in Henc by exact Hr.
  assert (Hq : 0 <= key / 4 ^ Z.of_nat m) by (apply Z.div_pos; lia).
  pose proof (hdecode_hencode m (fst (hdecode m r)) (snd (hdecode m r)) _ Hq)
    as H.
  rewrite <- surjective_pairing, Henc in H.
  rewrite !Z.mod_small in H by assumption.
  rewrite <- surjective_pairing in H. rewrite <- H. f_equal.
  pose proof (Z.div_mod key (4 ^ Z.of_nat m) ltac:(lia)). unfold r. lia.
Qed.

Lemma hdecode_Number (m : nat) key :
  (m <= 53)%nat -> 0 <= key ->
  _bkey_decode key (2 ^ Z.of_nat m) = Some (hdecode m key).
Proof.
  intros Hm Hk. rewrite _bkey_decode_pow2.
  destruct (hencode_hdecode m key Hk) as [[Hi Hj] _].
  assert (2 ^ Z.of_nat m <= 2 ^ 53) by (apply Z.pow_le_mono_r; lia).
  rewrite !Number_exact by (rewrite Z.abs_eq; lia).
  now rewrite <- surjective_pairing.
Qed.

Lemma hilbert_path_pair (blevel key : Z) :
  0 <= blevel <= 53 -> 0 <= key -> key + 1 < 4 ^ blevel ->
  exists a b,
    _bkey_decode key (2 ^ blevel) = Some a
    /\ _bkey_decode (key + 1) (2 ^ blevel) = Some b
    /\ adjacent a b.
Proof.
  intros Hb. rewrite <- (Z2Nat.id blevel) by lia.
  set (m := Z.to_nat blevel). assert (Hm : (m <= 53)%nat) by lia.
  intros Hk Hk1. exists (hdecode m key), (hdecode m (key + 1)).
  rewrite !hdecode_Number by lia.
  split; [reflexivity |]. split; [reflexivity |].
  apply (hdecode_path m); [lia |]. rewrite Z.mod_small; lia.
Qed.

(** [X9] The Hilbert curve is a path through the grid: on a grid of
    side [2^blevel], with [blevel] from 0 to 53, key 0 is the cell
    [(0,0)], the last key [4^blevel - 1] is the cell [(2^blevel - 1, 0)],
    and the cells of two consecutive keys share an edge. *)
Theorem hilbert_consecutive_keys (blevel : Z) :
  0 <= blevel <= 53 ->
  _bkey_decode 0 (2 ^ blevel) = Some (0, 0)
  /\ _bkey_decode (4 ^ blevel - 1) (2 ^ blevel) = Some (2 ^ blevel - 1, 0)
  /\ (forall key,
         0 <= key -> key + 1 < 4 ^ blevel ->
         exists a b,
           _bkey_decode key (2 ^ blevel) = Some a
           /\ _bkey_decode (key + 1) (2 ^ blevel) = Some b
           /\ adjacent a b).
Proof.
  intros Hb. split; [| split].
  - rewrite <- (Z2Nat.id blevel) by lia.
    rewrite hdecode_Number by lia. f_equal.
    apply (hdecode_path (Z.to_nat blevel) 0); [lia |].
    apply Z.mod_0_l. pose proof (pow4_pos (Z.to_nat blevel)). lia.
  - rewrite <- (Z2Nat.id blevel) by lia.
    pose proof (pow4_pos (Z.to_nat blevel)).
    rewrite hdecode_Number by lia. f_equal.
    apply (hdecode_path (Z.to_nat blevel)); [lia |]. apply Z.mod_small. lia.
  - intros key Hk Hk1. apply hilbert_path_pair; assumption.
Qed.

Lemma hilbert_consecutive_keys_witness :
  _bkey_decode 0 (2 ^ 2) = Some (0, 0)
  /\ _bkey_decode (4 ^ 2 - 1) (2 ^ 2) = Some (2 ^ 2 - 1, 0)
  /\ exists a b,
       _bkey_decode 7 (2 ^ 2) = Some a
       /\ _bkey_decode (7 + 1) (2 ^ 2) = Some b
       /\ adjacent a b.
Proof.
  pose proof (hilbert_consecutive_keys 2 ltac:(lia)) as (H0 & H1 & H).
  split; [exact H0 |]. split; [exact H1 |].
  apply (H 7); [lia | reflexivity].
Defined.

(** [X10] Outside the grid the Hilbert curve wraps around: on a grid of
    side [2^blevel], [_bkey_decode] gives a key from [4^blevel] on the
    cell of its residue modulo [4^blevel], and [_bkey_encode] gives any
    pair of integers, negative ones too, the key of the cell of their
    residues modulo [2^blevel]. *)
Theorem hilbert_wraps_around (blevel : Z) :
  0 <= blevel ->
  (forall key, 0 <= key ->
     _bkey_decode key (2 ^ blevel)
     = _bkey_decode (key mod 4 ^ blevel) (2 ^ blevel))
  /\ (forall i j,
        _bkey_encode i j (2 ^ blevel)
        = _bkey_encode (i mod 2 ^ blevel) (j mod 2 ^ blevel) (2 ^ blevel)).
Proof.
  intros Hb. rewrite <- (Z2Nat.id blevel) by lia.
  set (m := Z.to_nat blevel). split.
  - intros key Hk. rewrite !_bkey_decode_pow2, hdecode_mod by exact Hk.
    reflexivity.
  - intros i j. rewrite !_bkey_encode_pow2. f_equal.
    apply hencode_congr; symmetry; apply Z.mod_mod;
      pose proof (pow2_pos m); lia.
Qed.

Lemma hilbert_wraps_around_witness :
  _bkey_decode 21 (2 ^ 2) = _bkey_decode (21 mod 4 ^ 2) (2 ^ 2)
  /\ _bkey_encode (-1) 6 (2 ^ 2)
     = _bkey_encode (-1 mod 2 ^ 2) (6 mod 2 ^ 2) (2 ^ 2).
Proof.
  pose proof (hilbert_wraps_around 2 ltac:(lia)) as [Hd He].
  split; [apply (Hd 21); lia | apply (He (-1) 6)].
Defined.

End HilbertKeys.

(** ** The Hilbert key across levels *)

Section HilbertHierarchy.
Import GSfc4qLbl_Hilbert.

Ltac half_of :=
  match goal with
  | |- ?X / 2 = ?Y => symmetry; apply (Z.div_unique X 2 Y (X - 2 * Y)); lia
  end.

(** A round on a square of side [2s] and the same round on the square
    of side [s], on the halved coordinates. *)
Lemma decode_round_half s t i j :
  0 < s -> 0 <= t -> 0 <= i < 2 * s -> 0 <= j < 2 * s ->
  fst (decode_round (2 * s) t (i, j)) / 2
  = fst (decode_round s t (i / 2, j / 2))
  /\ snd (decode_round (2 * s) t (i, j)) / 2
     = snd (decode_round s t (i / 2, j / 2)).
Proof.
  intros Hs Ht Hi Hj.
  rewrite !decode_round_cases by exact Ht. cbn [fst snd].
  pose proof (Z.div_mod i 2 ltac:(lia)).
  pose proof (Z.mod_pos_bound i 2 ltac:(lia)).
  pose proof (Z.div_mod j 2 ltac:(lia)).
  pose proof (Z.mod_pos_bound j 2 ltac:(lia)).
  destruct (t mod 4 =? 0); [cbn [fst snd]; split; reflexivity |].
  destruct (t mod 4 =? 1); [cbn [fst snd]; split; [reflexivity | half_of] |].
  destruct (t mod 4 =? 2); cbn [fst snd]; split; half_of.
Qed.

Lemma hdecode_parent (m : nat) : forall key,
    0 <= key ->
    fst (hdecode (S m) key) / 2 = fst (hdecode m (key / 4))
    /\ snd (hdecode (S m) key) / 2 = snd (hdecode m (key / 4)).
Proof.
  induction m as [| m IH]; intros key Hk.
  - rewrite hdecode_S. cbn [hdecode fst snd].
    rewrite decode_round_cases by (apply Z.quot_pos; cbn; lia).
    change (2 ^ Z.of_nat 0) with 1.
    destruct (_ =? 0); [cbn [fst snd]; split; reflexivity |].
    destruct (_ =? 1); [cbn [fst snd]; split; reflexivity |].
    destruct (_ =? 2); cbn [fst snd]; split; reflexivity.
  - rewrite (hdecode_S (S m) key), (hdecode_S m (key / 4)).
    pose proof (pow4_pos m) as HN. pose proof (pow2_pos m) as Hs.
    assert (Hq : 0 <= key / 4) by (apply Z.div_pos; lia).
    assert (Et : Z.quot key (4 ^ Z.of_nat (S m))
                 = Z.quot (key / 4) (4 ^ Z.of_nat m)).
    { rewrite !Z.quot_div_nonneg by (try apply pow4_pos; lia).
      rewrite pow4_S, Z.mul_comm. symmetry. apply Z.div_div; lia. }
    rewrite Et, pow2_S.
    destruct (IH key Hk) as [E1 E2].
    destruct (hencode_hdecode (S m) key Hk) as [[Hi Hj] _].
    rewrite pow2_S in Hi, Hj.
    remember (hdecode (S m) key) as p eqn:Ep. destruct p as [i j].
    cbn [fst snd] in Hi, Hj, E1, E2.
    rewrite (surjective_pairing (hdecode m (key / 4))), <- E1, <- E2.
    apply decode_round_half; try assumption.
    apply Z.quot_pos; lia.
Qed.

(** [X11] The Hilbert key is hierarchical, like the Morton key: with
    [blevel] from 0 to 52, the cell of a key on the grid of side
    [2^(blevel+1)], with its coordinates halved, is the cell of
    [key >> 2] on the grid of side [2^blevel]; and the key of the cell
    [(i >> 1, j >> 1)] on the coarser grid is the key of [(i,j)]
    without its last 2 bits. *)
Theorem hilbert_parent_key (blevel : Z) :
  0 <= blevel <= 52 ->
  (forall key,
      0 <= key ->
      exists i j,
        _bkey_decode key (2 ^ (blevel + 1)) = Some (i, j)
        /\ _bkey_decode (Z.shiftr key 2) (2 ^ blevel)
           = Some (Z.shiftr i 1, Z.shiftr j 1))
  /\ (forall i j,
         0 <= i < 2 ^ (blevel + 1) -> 0 <= j < 2 ^ (blevel + 1) ->
         exists key,
           _bkey_encode i j (2 ^ (blevel + 1)) = Some key
           /\ _bkey_encode (Z.shiftr i 1) (Z.shiftr j 1) (2 ^ blevel)
              = Some (Z.shiftr key 2)).
Proof.
  intros Hb.
  assert (Em : blevel = Z.of_nat (Z.to_nat blevel)) by lia.
  set (m := Z.to_nat blevel) in *. assert (Hm : (m <= 52)%nat) by lia.
  clearbody m. subst blevel.
  replace (Z.of_nat m + 1) with (Z.of_nat (S m)) by lia.
  split.
  - intros key Hk.
    exists (fst (hdecode (S m) key)), (snd (hdecode (S m) key)).
    assert (Hq : 0 <= Z.shiftr key 2) by (apply Z.shiftr_nonneg; lia).
    rewrite !hdecode_Number by lia.
    rewrite <- surjective_pairing. split; [reflexivity |]. f_equal.
    rewrite !Z.shiftr_div_pow2 by lia.
    change (2 ^ 2) with 4. change (2 ^ 1) with 2.
    destruct (hdecode_parent m key Hk) as [-> ->].
    apply surjective_pairing.
  - intros i j Hi Hj. exists (hencode (S m) (i, j)).
    rewrite !_bkey_encode_pow2. split; [reflexivity |]. f_equal.
    pose proof (hencode_range (S m) (i, j)) as Hr.
    pose proof (hdecode_hencode (S m) i j 0 (Z.le_refl 0)) as Hdec.
    rewrite Z.mul_0_l, Z.add_0_l, !Z.mod_small in Hdec by assumption.
    destruct (hdecode_parent m (hencode (S m) (i, j)) (proj1 Hr)) as [E1 E2].
    rewrite Hdec in E1, E2. cbn [fst snd] in E1, E2.
    rewrite !Z.shiftr_div_pow2 by lia.
    change (2 ^ 2) with 4. change (2 ^ 1) with 2.
    rewrite E1, E2, <- surjective_pairing.
    assert (Hq : 0 <= hencode (S m) (i, j) / 4) by (apply Z.div_pos; lia).
    destruct (hencode_hdecode m _ Hq) as [_ ->].
    apply Z.mod_small. split; [exact Hq |].
    apply Z.div_lt_upper_bound; [lia |]. rewrite pow4_S in Hr. lia.
Qed.

Lemma hilbert_parent_key_witness :
  (exists i j,
      _bkey_decode 13 (2 ^ (1 + 1)) = Some (i, j)
      /\ _bkey_decode (Z.shiftr 13 2) (2 ^ 1)
         = Some (Z.shiftr i 1, Z.shiftr j 1))
  /\ (exists key,
         _bkey_encode 3 1 (2 ^ (1 + 1)) = Some key
         /\ _bkey_encode (Z.shiftr 3 1) (Z.shiftr 1 1) (2 ^ 1)
            = Some (Z.shiftr key 2)).
Proof.
  pose proof (hilbert_parent_key 1 ltac:(lia)) as [Hd He].
  split; [apply (Hd 13); lia | apply (He 3 1); cbn; lia].
Defined.

End HilbertHierarchy.

(** ** The two cells of a key at a half level *)

Section HalfLevelCells.
Import GSfc4q.

Lemma succ_even_lor k : 2 * k + 1 = Z.lor (2 * k) 1.
Proof.
  rewrite <- Z.add_lor_land.
  replace (Z.land (2 * k) 1) with 0; [lia |].
  change 1 with (Z.ones 1). rewrite Z.land_ones by lia.
  change (2 ^ 1) with 2.
  rewrite Z.mul_comm, Z.mod_mul by lia. reflexivity.
Qed.

Lemma deinterleave_bit0 d :
  Z.testbit (GSfc4qLbl_Morton.deinterleave d) 0 = Z.testbit d 0.
Proof.
  rewrite <- deinterleave_low.
  rewrite <- (Z.mod_pow2_bits_low d 64 0) by lia.
  pose proof (Z.mod_pos_bound d (2 ^ 64) ltac:(lia)) as Hr.
  set (r := d mod 2 ^ 64) in *. clearbody r.
  assert (H : Z.b2z (Z.testbit (GSfc4qLbl_Morton.deinterleave r) 0)
              = Z.b2z (Z.testbit r 0)).
  { revert r Hr.
    apply (lor_hom_ext
             (fun v => Z.b2z (Z.testbit (GSfc4qLbl_Morton.deinterleave v) 0))
             (fun v => Z.b2z (Z.testbit v 0)) 64).
    - apply lor_hom_testbit, deinterleave_hom.
    - apply (lor_hom_testbit (fun v => v)), lor_hom_id.
    - intros i Hi. apply Z.eqb_eq.
      apply (forallb_below
               (fun i => Z.b2z (Z.testbit
                                  (GSfc4qLbl_Morton.deinterleave (2 ^ i)) 0)
                         =? Z.b2z (Z.testbit (2 ^ i) 0)) 64);
        [vm_compute; reflexivity | exact Hi]. }
  destruct (Z.testbit (GSfc4qLbl_Morton.deinterleave r) 0), (Z.testbit r 0);
    reflexivity || discriminate.
Qed.

(** [X12] With the Morton curve, the two cells of a key at a half
    level lie side by side in a row: [key_decode(key)] returns
    [(x, y)] and [(x+1, y)], with [x] even, for any integer key. *)
Theorem morton_half_level_cells (this : state) (key : Z) :
  isHalf this = true ->
  exists x y,
    key_decode (curve := Morton) this key = Return ((x, y), Some (x + 1, y))
    /\ Z.even x = true
    /\ 0 <= x < 2 ^ 32 /\ 0 <= y < 2 ^ 32.
Proof.
  intros Hh. unfold key_decode. rewrite Hh.
  cbn [bkey_decode Morton JS.bind].
  unfold GSfc4qLbl_Morton.bkey_decode.
  pose proof (deinterleave_range (2 * key)) as Hx.
  pose proof (deinterleave_range (Z.shiftr (2 * key) 1)) as Hy.
  pose proof (deinterleave_range (2 * key + 1)) as Hx1.
  assert (Es : Z.shiftr (2 * key + 1) 1 = Z.shiftr (2 * key) 1).
  { rewrite !Z.shiftr_div_pow2 by lia. change (2 ^ 1) with 2.
    rewrite (Z.mul_comm 2 key), Z.div_mul by lia.
    symmetry. apply (Z.div_unique _ 2 key 1); lia. }
  rewrite Es.
  assert (Ev : Z.even (GSfc4qLbl_Morton.deinterleave (2 * key)) = true).
  { rewrite <- Z.negb_odd, <- Z.bit0_odd, deinterleave_bit0.
    rewrite Z.testbit_even_0. reflexivity. }
  assert (E1 : GSfc4qLbl_Morton.deinterleave (2 * key + 1)
               = GSfc4qLbl_Morton.deinterleave (2 * key) + 1).
  { destruct deinterleave_hom as [_ Hd].
    rewrite succ_even_lor, Hd.
    change (GSfc4qLbl_Morton.deinterleave 1) with 1.
    apply Z.even_spec in Ev. destruct Ev as [x' ->].
    symmetry. apply succ_even_lor. }
  rewrite E1 in *.
  rewrite !Number_exact by (rewrite Z.abs_eq; lia).
  eexists. eexists. split; [reflexivity |].
  split; [exact Ev |]. lia.
Qed.

Lemma morton_half_level_cells_witness :
  exists x y,
    key_decode (curve := Morton) level_one_and_half 5
    = Return ((x, y), Some (x + 1, y))
    /\ Z.even x = true /\ 0 <= x < 2 ^ 32 /\ 0 <= y < 2 ^ 32.
Proof.
  apply (morton_half_level_cells level_one_and_half 5). reflexivity.
Defined.

(** [X13] With the Hilbert curve, the two cells of a key at a half
    level share an edge: on a grid that [refresh] has configured at a
    half level, with [blevel] up to 53, [key_decode(key)] returns two
    adjacent cells for every key of the grid. *)
Theorem hilbert_half_level_cells
        (this : option state) (lvl : option Q) (g : state) (key : Z) :
  refresh this lvl = Return g ->
  isHalf g = true ->
  blevel g <= 53 ->
  0 <= key < nKeys g ->
  exists a b,
    key_decode (curve := Hilbert) g key = Return (a, Some b)
    /\ adjacent a b.
Proof.
  intros Hr Hh Hl Hk. apply refresh_fields in Hr.
  destruct Hr as (Hb & HnB & HnR & HnK & _).
  rewrite Hh in HnK. rewrite HnK in Hk.
  destruct (half_keys_bkeys g key Hb Hk) as (H1 & H0 & H2).
  unfold key_decode. rewrite Hh, !Hilbert_bkey_decode, HnR.
  destruct (hilbert_path_pair (blevel g) (2 * key)) as (a & b & Ea & Eb & Hab);
    try lia.
  rewrite Ea, Eb. exists a, b. split; [reflexivity | exact Hab].
Qed.

Lemma hilbert_half_level_cells_witness :
  refresh None (Some (3 # 2)%Q) = Return level_one_and_half
  /\ exists a b,
       key_decode (curve := Hilbert) level_one_and_half 5 = Return (a, Some b)
       /\ adjacent a b.
Proof.
  split; [reflexivity |].
  apply (hilbert_half_level_cells None (Some (3 # 2)%Q) level_one_and_half 5);
    [reflexivity | reflexivity | cbn; lia | cbn; lia].
Defined.

End HalfLevelCells.

(** ** BigInt utilities of [SizedBigInt] *)

Section Utilities.
Import SizedBigInt.

(** [X14] [ilog2(n)] is the floor of the binary logarithm of [|n|]
    (the number of bits less one), not its ceiling:
    [2^ilog2(n) <= n < 2^(ilog2(n)+1)] for a positive [n], the sign of
    a negative [n] is discarded, and [ilog2(0n)] is 0. *)
Theorem ilog2_floor (n : Z) :
  ilog2 n = Z.log2 (Z.abs n)
  /\ (0 < n -> 2 ^ ilog2 n <= n < 2 ^ (ilog2 n + 1))
  /\ ilog2 (- n) = ilog2 n.
Proof.
  assert (H : forall z, ilog2 z = Z.log2 (Z.abs z)).
  { intros z. unfold ilog2. destruct z as [| p | p].
    - reflexivity.
    - rewrite toString2_length by lia. cbn [Z.ltb Z.compare Z.abs]. lia.
    - pose proof (toString2_length (Z.pos p) ltac:(lia)) as E.
      unfold toString2, strlen in *. cbn [String.length].
      cbn [Z.ltb Z.compare Z.abs]. lia. }
  split; [apply H |]. split.
  - intros Hn. rewrite H, Z.abs_eq by lia.
    replace (Z.log2 n + 1) with (Z.succ (Z.log2 n)) by lia.
    apply Z.log2_spec. exact Hn.
  - rewrite !H, Z.abs_opp. reflexivity.
Qed.

(** [X15] [bigint_divrest(N, D)] is the division that truncates
    towards zero: for a non-zero [D] it returns [[I, R]] with
    [N = I*D + R], [|R| < |D|] and [R] of the sign of [N]; for
    non-negative [N] and positive [D] these are the quotient and the
    rest of the Euclidean division.  [D = 0n] raises a [RangeError]. *)
Theorem bigint_divrest_truncates (N D : Z) :
  (D = 0 -> bigint_divrest N D = Throw RangeError)
  /\ (D <> 0 ->
      exists I R,
        bigint_divrest N D = Return (I, R)
        /\ N = I * D + R
        /\ Z.abs R < Z.abs D
        /\ 0 <= R * N
        /\ (0 <= N -> 0 < D -> I = N / D /\ R = N mod D)).
Proof.
  unfold bigint_divrest. split.
  - intros ->. reflexivity.
  - intros HD. destruct (Z.eqb_spec D 0) as [| _]; [contradiction |].
    exists (Z.quot N D), (N - Z.quot N D * D).
    pose proof (Z.quot_rem' N D) as E.
    assert (ER : N - Z.quot N D * D = Z.rem N D) by lia.
    rewrite ER.
    split; [reflexivity |]. split; [lia |].
    split; [apply Z.rem_bound_abs; exact HD |].
    split; [apply Z.rem_sign_mul; exact HD |].
    intros HN HD'. split.
    + apply Z.quot_div_nonneg; lia.
    + apply Z.rem_mod_nonneg; lia.
Qed.

(** [X16] [bigint_div(N, D, P)], for a non-negative [N], a positive
    [D] and a non-negative [P]: the first component is the quotient,
    and the second, [F = (2^P / D) * R] with [R] the rest, is the
    fraction [R/D] scaled by [2^P] and rounded down, short of
    [2^P * R / D] by exactly [(2^P mod D) * R / D].  So [F] is not
    always the integer part of [2^P * R / D].  [P] omitted is 64. *)
Theorem bigint_div_fraction (N D P : Z) :
  0 <= N -> 0 < D -> 0 <= P ->
  exists F,
    bigint_div N D (Some P) = Return (N / D, F)
    /\ F * D + (2 ^ P mod D) * (N mod D) = 2 ^ P * (N mod D)
    /\ 0 <= F <= 2 ^ P * (N mod D) / D
    /\ bigint_div N D None = bigint_div N D (Some 64).
Proof.
  intros HN HD HP. unfold bigint_div.
  destruct (Z.eqb_spec D 0) as [| _]; [lia |].
  destruct (Z.ltb_spec P 0) as [| _]; [lia |].
  assert (H2 : 0 < 2 ^ P) by (apply Z.pow_pos_nonneg; lia).
  rewrite (Z.quot_div_nonneg N D), (Z.quot_div_nonneg (2 ^ P) D) by lia.
  pose proof (Z.div_mod N D ltac:(lia)) as EN.
  pose proof (Z.mod_pos_bound N D HD) as HR.
  pose proof (Z.div_mod (2 ^ P) D ltac:(lia)) as EP.
  pose proof (Z.mod_pos_bound (2 ^ P) D HD) as He.
  assert (Hq : 0 <= 2 ^ P / D) by (apply Z.div_pos; lia).
  assert (ER : N - N / D * D = N mod D) by lia.
  rewrite ER.
  exists (2 ^ P / D * (N mod D)).
  split; [reflexivity |]. split; [nia |]. split; [| reflexivity].
  split; [nia |].
  apply Z.div_le_lower_bound; [lia |]. nia.
Qed.

Lemma bigint_div_fraction_witness :
  exists F,
    bigint_div 5 3 (Some 3) = Return (5 / 3, F)
    /\ F * 3 + (2 ^ 3 mod 3) * (5 mod 3) = 2 ^ 3 * (5 mod 3)
    /\ 0 <= F <= 2 ^ 3 * (5 mod 3) / 3
    /\ bigint_div 5 3 None = bigint_div 5 3 (Some 64).
Proof.
  apply (bigint_div_fraction 5 3 3); lia.
Defined.

(** [X17] [fixbits_next] is the successor on the integers of a fixed
    number of bits: for a value [v] that fits its [bits], with
    [cycle] the result is [(v+1) mod 2^bits], and without it [v+1],
    which still fits, or [null] when [v] is the last value
    [2^bits - 1].  On an instance without a value ([val] null) it
    raises a [TypeError]. *)
Theorem fixbits_next_successor (x : t) (v : Z) :
  val x = Some v -> 0 <= bits x -> 0 <= v < 2 ^ bits x ->
  fixbits_next x (Some true) = Return (Some ((v + 1) mod 2 ^ bits x))
  /\ (v < 2 ^ bits x - 1 ->
      fixbits_next x None = Return (Some (v + 1))
      /\ fixbits_next x (Some false) = Return (Some (v + 1)))
  /\ (v = 2 ^ bits x - 1 ->
      fixbits_next x None = Return None
      /\ fixbits_next x (Some false) = Return None)
  /\ (forall c, fixbits_next fromNull c = Throw TypeError).
Proof.
  intros Hv Hb Hr. unfold fixbits_next, fixbits_last. rewrite Hv.
  destruct (Z.ltb_spec (bits x) 0) as [| _]; [lia |]. cbn [JS.bind].
  split; [| split; [| split]].
  - destruct (Z.eqb_spec v (2 ^ bits x - 1)) as [E | E]; cbn [negb].
    + rewrite E. replace (2 ^ bits x - 1 + 1) with (2 ^ bits x) by lia.
      rewrite Z.mod_same by lia. reflexivity.
    + rewrite Z.mod_small by lia. reflexivity.
  - intros H. destruct (Z.eqb_spec v (2 ^ bits x - 1)); [lia |].
    split; reflexivity.
  - intros H. destruct (Z.eqb_spec v (2 ^ bits x - 1)); [| lia].
    split; reflexivity.
  - intros c. reflexivity.
Qed.

Lemma fixbits_next_successor_witness :
  fixbits_next {| val := Some 7; bits := 3 |} (Some true)
  = Return (Some ((7 + 1) mod 2 ^ 3))
  /\ fixbits_next {| val := Some 7; bits := 3 |} None = Return None.
Proof.
  pose proof (fixbits_next_successor {| val := Some 7; bits := 3 |} 7
                eq_refl ltac:(cbn; lia) ltac:(cbn; lia)) as (H1 & _ & H3 & _).
  split; [exact H1 | apply H3; reflexivity].
Defined.

End Utilities.

(** ** Values that fit their number of bits *)

Section WellSized.
Import SizedBigInt.

Lemma toString2_fits z : 0 <= z -> 1 <= strlen (toString2 z) /\ z < 2 ^ strlen (toString2 z).
Proof.
  intros Hz. destruct (Z.eq_dec z 0) as [-> | Hnz].
  - split; [cbn; lia | reflexivity].
  - rewrite toString2_length by lia.
    pose proof (Z.log2_nonneg z).
    split; [lia |].
    replace (Z.log2 z + 1) with (Z.succ (Z.log2 z)) by lia.
    apply Z.log2_spec. lia.
Qed.

Lemma toString2_within z n :
  0 <= z < 2 ^ n -> 1 <= n -> strlen (toString2 z) <= n.
Proof.
  intros Hz Hn. destruct (Z.eq_dec z 0) as [-> | Hnz]; [cbn; lia |].
  rewrite toString2_length by lia.
  assert (Z.log2 z < n) by (apply Z.log2_lt_pow2; lia). lia.
Qed.

Lemma shiftr_top z len m :
  0 <= z < 2 ^ len -> 0 <= m <= len -> 0 <= Z.shiftr z (len - m) < 2 ^ m.
Proof.
  intros Hz Hm. rewrite Z.shiftr_div_pow2 by lia.
  assert (0 < 2 ^ (len - m)) by (apply Z.pow_pos_nonneg; lia).
  split; [apply Z.div_pos; lia |].
  apply Z.div_lt_upper_bound; [lia |].
  rewrite <- Z.pow_add_r by lia.
  replace (len - m + m) with len by lia. lia.
Qed.

Lemma toBitString_length x v :
  val x = Some v -> 1 <= bits x -> 0 <= v < 2 ^ bits x ->
  toBitString x = render (Z.to_nat (bits x)) v.
Proof.
  intros Hv Hb Hr. unfold toBitString. rewrite Hv.
  rewrite <- (Z2Nat.id (bits x)) at 1 by lia.
  apply padStart_toString2; [lia |]. rewrite Z2Nat.id by lia. exact Hr.
Qed.

(** The sized integer [fromInt] makes of a non-negative BigInt whose
    binary text is at most [n] digits long, for a width [n] to
    enforce. *)
Lemma fromInt_fits z n cut :
  1 <= n -> 0 <= z < 2 ^ n ->
  fromInt (ABigInt z) (Some n) cut = Return {| val := Some z; bits := n |}.
Proof.
  intros Hn Hz. pose proof (toString2_within z n Hz Hn) as Hl.
  unfold fromInt, setBits_byMax.
  destruct (Z.eqb_spec n 0); [lia |].
  destruct (Z.ltb_spec n 0); [lia |].
  cbn [Z.eqb]. rewrite Z.abs_eq by lia.
  destruct (Z.eqb_spec n 0); [lia |].
  destruct (Z.gtb_spec (strlen (toString2 z)) n); [lia |].
  destruct (Z.ltb_spec (strlen (toString2 z)) n); cbn [JS.bind fst snd].
  - reflexivity.
  - replace (strlen (toString2 z)) with n by lia. reflexivity.
Qed.

(** [X18] [fromInt] of a non-negative BigInt, with truncation allowed
    (the default), always gives a value that fits its number of bits:
    [0 <= val < 2^bits], with [bits >= 1].  A positive [maxBits] is the
    width ([bits = maxBits]), a negative one only a maximum
    ([bits <= -maxBits]), none or 0 keeps the length of the binary
    text; the value is the number given, or its leading [bits] bits when
    the text is longer.  [toBitString()] then has exactly [bits]
    digits. *)
Theorem fromInt_well_sized (z : Z) (maxBits : option Z) :
  0 <= z ->
  exists x v,
    fromInt (ABigInt z) maxBits true = Return x
    /\ val x = Some v
    /\ 1 <= bits x /\ 0 <= v < 2 ^ bits x
    /\ v = Z.shiftr z (Z.max 0 (strlen (toString2 z) - bits x))
    /\ bits x = match maxBits with
                | Some mb =>
                    if mb =? 0 then strlen (toString2 z)
                    else if 0 <? mb then mb
                    else Z.min (strlen (toString2 z)) (- mb)
                | None => strlen (toString2 z)
                end
    /\ strlen (toBitString x) = bits x.
Proof.
  intros Hz. destruct (toString2_fits z Hz) as [Hl Hf].
  set (len := strlen (toString2 z)) in *.
  assert (Hlen : forall v n, 1 <= n -> 0 <= v < 2 ^ n ->
            strlen (toBitString {| val := Some v; bits := n |}) = n).
  { intros v n Hb Hr.
    rewrite (toBitString_length {| val := Some v; bits := n |} v eq_refl Hb Hr).
    unfold strlen. rewrite render_length. cbn [bits]. lia. }
  assert (Hkeep : forall n, len <= n ->
            Z.shiftr z (Z.max 0 (len - n)) = z).
  { intros n Hn. rewrite Z.max_l by lia. apply Z.shiftr_0_r. }
  unfold fromInt, setBits_byMax. fold len.
  destruct maxBits as [mb |].
  - destruct (Z.eqb_spec mb 0) as [-> | Hnz].
    + cbn [JS.bind fst snd]. exists {| val := Some z; bits := len |}, z.
      cbn [val bits]. rewrite Hkeep by lia.
      repeat split; try lia. apply Hlen; lia.
    + destruct (Z.ltb_spec mb 0) as [Hneg | Hpos]; cbn [Z.eqb].
      * rewrite Z.abs_neq by lia.
        destruct (Z.ltb_spec 0 mb); [lia |].
        destruct (Z.gtb_spec len (- mb)) as [Hgt | Hle].
        -- cbn [JS.bind fst snd].
           exists {| val := Some (Z.shiftr z (len - - mb)); bits := - mb |},
             (Z.shiftr z (len - - mb)).
           cbn [val bits].
           pose proof (shiftr_top z len (- mb) ltac:(lia) ltac:(lia)).
           rewrite Z.max_r by lia. rewrite Z.min_r by lia.
           repeat split; try lia.
           apply Hlen; lia.
        -- destruct (Z.ltb_spec len 0); [lia |].
           cbn [JS.bind fst snd]. exists {| val := Some z; bits := len |}, z.
           cbn [val bits]. rewrite Hkeep, Z.min_l by lia.
           repeat split; try lia. apply Hlen; lia.
      * rewrite Z.abs_eq by lia.
        destruct (Z.eqb_spec 1 0); [lia |].
        destruct (Z.ltb_spec 0 mb); [| lia].
        destruct (Z.gtb_spec len mb) as [Hgt | Hle].
        -- cbn [JS.bind fst snd].
           exists {| val := Some (Z.shiftr z (len - mb)); bits := mb |},
             (Z.shiftr z (len - mb)).
           cbn [val bits].
           pose proof (shiftr_top z len mb ltac:(lia) ltac:(lia)).
           rewrite Z.max_r by lia.
           repeat split; try lia.
           apply Hlen; lia.
        -- assert (Hp : 2 ^ len <= 2 ^ mb) by (apply Z.pow_le_mono_r; lia).
           destruct (Z.ltb_spec len mb); cbn [JS.bind fst snd].
           ++ exists {| val := Some z; bits := mb |}, z.
              cbn [val bits]. rewrite Hkeep by lia.
              repeat split; try lia.
              apply Hlen; lia.
           ++ exists {| val := Some z; bits := len |}, z.
              cbn [val bits]. rewrite Hkeep by lia.
              repeat split; try lia.
              apply Hlen; lia.
  - cbn [JS.bind fst snd]. exists {| val := Some z; bits := len |}, z.
    cbn [val bits]. rewrite Hkeep by lia.
    repeat split; try lia. apply Hlen; lia.
Qed.

Lemma fromInt_well_sized_witness :
  exists x v,
    fromInt (ABigInt 22) (Some 3) true = Return x
    /\ val x = Some v
    /\ 1 <= bits x /\ 0 <= v < 2 ^ bits x
    /\ v = Z.shiftr 22 (Z.max 0 (strlen (toString2 22) - bits x))
    /\ bits x = 3
    /\ strlen (toBitString x) = bits x.
Proof.
  apply (fromInt_well_sized 22 (Some 3)). lia.
Defined.

End WellSized.

(** ** Copies *)

Section Copies.
Import SizedBigInt.



End Copies.

(** ** Labels of keys and cells *)

Section Labels.
Import SizedBigInt GSfc4qLbl.

Lemma fromAny_bigint_fits z radix n cut st :
  1 <= n -> 0 <= z < 2 ^ n ->
  fromAny (VBigInt z) radix (Some n) cut st
  = (Return {| val := Some z; bits := n |}, st).
Proof.
  intros Hn Hz. unfold fromAny, lift. now rewrite fromInt_fits.
Qed.

Lemma setKey_fits this key cut st :
  1 <= GSfc4q.keyBits (grid this) ->
  0 <= key < 2 ^ GSfc4q.keyBits (grid this) ->
  setKey this (VBigInt key) cut st
  = (Return (with_sbiID this
               {| val := Some key; bits := GSfc4q.keyBits (grid this) |}), st).
Proof.
  intros Hn Hk. unfold setKey, sbind.
  rewrite fromAny_bigint_fits by assumption. reflexivity.
Qed.

Lemma Number_side (b : Z) : 0 <= b <= 53 -> Number (Number (2 ^ b) - 1) = 2 ^ b - 1.
Proof.
  intros Hb. assert (0 < 2 ^ b) by (apply Z.pow_pos_nonneg; lia).
  destruct (Z.eq_dec b 53) as [-> | Hne]; [vm_compute; reflexivity |].
  assert (2 ^ b <= 2 ^ 52) by (apply Z.pow_le_mono_r; lia).
  rewrite (Number_exact (2 ^ b)) by (rewrite Z.abs_eq; lia).
  apply Number_exact. rewrite Z.abs_eq; lia.
Qed.

Lemma labels_cell_exact (curve : GSfc4q.Curve) this t0 lvl i j st :
  GSfc4q.refresh t0 lvl = Return (grid this) ->
  exact_on curve (grid this) ->
  1 <= GSfc4q.blevel (grid this) <= 53 ->
  in_grid (grid this) (i, j) ->
  labels_cell curve this i j st.
Proof.
  intros Hr Hex Hb Hij.
  destruct (cell_round_trip_exact curve t0 lvl (grid this) (i, j) Hr Hex
              (proj1 Hb) Hij) as (r & c & He & Hk & Hd & Hc).
  destruct (refresh_widths _ _ _ Hr (proj1 Hb)) as (_ & _ & HnK & Hkb).
  pose proof (refresh_fields _ _ _ Hr) as (_ & _ & HnR & _).
  exists (key_of (grid this) r), c.
  split; [| split; [exact Hk | split; [exact Hd | exact Hc]]].
  unfold setBkey_byIJ. rewrite HnR, Number_side by lia.
  destruct Hij as [Hi Hj]. cbn [fst snd] in Hi, Hj, He. rewrite HnR in Hi, Hj.
  destruct (Z.gtb_spec i (2 ^ GSfc4q.blevel (grid this) - 1)); [lia |].
  destruct (Z.gtb_spec j (2 ^ GSfc4q.blevel (grid this) - 1)); [lia |].
  cbn [orb]. unfold sbind, lift. rewrite He.
  fold (key_of (grid this) r).
  apply setKey_fits; [exact Hkb |]. rewrite <- HnK. exact Hk.
Qed.

(** [X20] [setBkey_byIJ(i,j)] for a cell of the grid, on a labelled
    curve whose grid [refresh] has configured at integer level 1 or
    more: the ID becomes a key of the grid on exactly [keyBits] bits,
    and [key_decode] of that key returns the cell [(i,j)], alone at an
    integer level and as one of the two cells at a half level.  This
    holds for the Morton curve up to [blevel] 32 and for the Hilbert
    curve up to [blevel] 53. *)
Theorem setBkey_byIJ_labels_cell
        (this : state) (t0 : option GSfc4q.state) (lvl : option Q)
        (i j : Z) (st : option statics) :
  GSfc4q.refresh t0 lvl = Return (grid this) ->
  1 <= GSfc4q.blevel (grid this) ->
  in_grid (grid this) (i, j) ->
  (GSfc4q.blevel (grid this) <= 32 -> labels_cell Morton this i j st)
  /\ (GSfc4q.blevel (grid this) <= 53 -> labels_cell Hilbert this i j st).
Proof.
  intros Hr H1 Hij.
  pose proof (refresh_fields _ _ _ Hr) as (Hb & HnB & HnR & _).
  split; intros Hl.
  - apply (labels_cell_exact Morton this t0 lvl); try assumption; [| lia].
    apply Morton_exact_on; try assumption. lia.
  - apply (labels_cell_exact Hilbert this t0 lvl); try assumption; [| lia].
    apply Hilbert_exact_on; try assumption. lia.
Qed.

Lemma setBkey_byIJ_labels_cell_witness :
  let this := {| grid := level_one_and_half; base := "4h"; sbiID := fromNull;
                 id0 := None; id0_maxBits := None |} in
  GSfc4q.refresh None (Some (3 # 2)%Q) = Return (grid this)
  /\ labels_cell Morton this 3 1 None
  /\ labels_cell Hilbert this 3 1 None.
Proof.
  intros this.
  pose proof (setBkey_byIJ_labels_cell this None (Some (3 # 2)%Q) 3 1 None
                eq_refl ltac:(cbn; lia) ltac:(unfold in_grid; cbn; lia)) as H.
  split; [reflexivity |].
  split; [apply (proj1 H); cbn; lia | apply (proj2 H); cbn; lia].
Defined.

End Labels.

Section LabelTexts.
Import SizedBigInt GSfc4qLbl.

Lemma keys_need_level t0 lvl g key :
  GSfc4q.refresh t0 lvl = Return g -> 0 <= key < GSfc4q.nKeys g ->
  1 <= GSfc4q.keyBits g /\ GSfc4q.nKeys g = 2 ^ GSfc4q.keyBits g.
Proof.
  intros Hr Hk.
  destruct (Z.le_gt_cases 1 (GSfc4q.blevel g)) as [H1 | H1].
  - destruct (refresh_widths _ _ _ Hr H1) as (_ & _ & HnK & Hkb). now split.
  - pose proof (refresh_fields _ _ _ Hr) as (Hb & _ & _ & HnK & _ & _ & Hz).
    assert (E : GSfc4q.blevel g = 0) by lia.
    rewrite (Hz E), E in HnK. change (Z.quot (4 ^ 0) 2) with 0 in HnK. lia.
Qed.

Lemma toString_base2 s x v :
  kx_baseLabel s = kx_baseLabel defaults ->
  val x = Some v ->
  toString x "2" (Some s) = (Return (toBitString x), Some s).
Proof.
  intros Hs Hv.
  set (r2 := {| SizedBigInt.base := 2; alphabet := "01"; isDefault := true;
                isHierar := true; bitsPerDigit := 1; label := "2h" |}).
  assert (Hl : baseLabel "2" (Some s) = (Return ("2h"%string, r2), Some s)).
  { destruct s as [lbls tr]. cbn [kx_baseLabel] in Hs. subst lbls.
    vm_compute. reflexivity. }
  unfold toString, sbind. rewrite Hl. cbn [snd SizedBigInt.base r2]. rewrite Hv.
  cbn [Z.eqb Pos.eqb]. reflexivity.
Qed.

(** [setKey] of a Number stores the Number modulo [2^32]. *)
Lemma setKey_number_fits this key cut st :
  1 <= GSfc4q.keyBits (grid this) ->
  0 <= key mod 2 ^ 32 < 2 ^ GSfc4q.keyBits (grid this) ->
  setKey this (VNumber key) cut st
  = (Return (with_sbiID this
               {| val := Some (key mod 2 ^ 32);
                  bits := GSfc4q.keyBits (grid this) |}), st).
Proof.
  intros Hn Hk. unfold setKey, sbind, fromAny, lift.
  change (fromInt (ANumber key) ?m ?c)
    with (fromInt (ABigInt (key mod 2 ^ 32)) m c).
  rewrite fromInt_fits by assumption. reflexivity.
Qed.

Lemma setKey_key_arg_fits this number key cut st :
  1 <= GSfc4q.keyBits (grid this) ->
  0 <= key < 2 ^ GSfc4q.keyBits (grid this) ->
  (number = true -> key < 2 ^ 32) ->
  setKey this (key_arg number key) cut st
  = (Return (with_sbiID this
               {| val := Some key; bits := GSfc4q.keyBits (grid this) |}), st).
Proof.
  intros Hn Hk Hnum. destruct number; cbn [key_arg].
  - specialize (Hnum eq_refl).
    rewrite setKey_number_fits; rewrite ?Z.mod_small by lia;
      [reflexivity | assumption | assumption].
  - now apply setKey_fits.
Qed.

(** The keys of a grid [refresh] has configured, with a level of any
    type, fit [keyBits] bits, and there is at least one bit. *)
Lemma keys_fit_any t0 lvl g key :
  GSfc4q.refresh_any t0 lvl = Return g -> 0 <= key < GSfc4q.nKeys g ->
  1 <= GSfc4q.keyBits g /\ key < 2 ^ GSfc4q.keyBits g.
Proof.
  intros Hr Hk.
  destruct (refresh_any_chosen _ _ _ Hr)
    as (l0 & _ & Hb0 & Eb & _ & _ & _ & _ & HnK & HbB & HkB).
  assert (Hb : 0 <= GSfc4q.blevel g) by lia.
  destruct (Z.le_gt_cases 1 (GSfc4q.blevel g)) as [H1 | H1].
  - rewrite toString2_pow4_pred in HbB by lia.
    rewrite HbB in HkB. rewrite pow4_pow2 in HnK by lia.
    destruct (GSfc4q.isHalf g).
    + replace (2 * GSfc4q.blevel g)
        with (Z.succ (2 * GSfc4q.blevel g - 1)) in HnK by lia.
      rewrite Z.pow_succ_r in HnK by lia.
      rewrite Z.mul_comm, Z.quot_mul in HnK by lia.
      rewrite HkB, <- HnK. lia.
    + rewrite HkB, <- HnK. lia.
  - assert (E : GSfc4q.blevel g = 0) by lia.
    rewrite E in HnK, HbB. change (4 ^ 0) with 1 in HnK, HbB.
    change (strlen (toString2 (1 - 1))) with 1 in HbB.
    rewrite HbB in HkB.
    destruct (GSfc4q.isHalf g).
    + change (Z.quot 1 2) with 0 in HnK. lia.
    + rewrite HkB. change (2 ^ 1) with 2. lia.
Qed.

(** [X21] The label in base 2 of a key of the grid, on any grid
    [refresh] has configured (with a level of any type) and with the
    tables of bases as the class builds them.  After [setKey(key)]
    with a BigInt key, [id_toString('2')] is the binary text of the key
    with leading zeros, of exactly [keyBits] digits.  With a Number
    key it is the binary text of the key modulo [2^32], which is what
    [fromInt] keeps of a Number: the same label for a key below
    [2^32], the label of another key from [2^32] on. *)
Theorem binary_label_of_key
        (this : state) (t0 : option GSfc4q.state) (lvl : GSfc4q.level_arg)
        (key : Z) (s : statics) :
  GSfc4q.refresh_any t0 lvl = Return (grid this) ->
  0 <= key < GSfc4q.nKeys (grid this) ->
  kx_baseLabel s = kx_baseLabel defaults ->
  let n := Z.to_nat (GSfc4q.keyBits (grid this)) in
  let label_of (k : anyArg) :=
    sbind (setKey this k None) (fun this' => id_toString this' "2") (Some s) in
  label_of (VBigInt key) = (Return (render n key), Some s)
  /\ label_of (VNumber key) = (Return (render n (key mod 2 ^ 32)), Some s)
  /\ (key < 2 ^ 32 -> label_of (VNumber key) = label_of (VBigInt key))
  /\ (2 ^ 32 <= key -> label_of (VNumber key) <> label_of (VBigInt key))
  /\ String.length (render n key) = n
  /\ bits_value (render n key) 0 = key.
Proof.
  intros Hr Hk Hs n label_of.
  destruct (keys_fit_any _ _ _ _ Hr Hk) as [Hkb Hfit].
  assert (Hm : 0 <= key mod 2 ^ 32 <= key).
  { split; [apply Z.mod_pos_bound; lia |].
    apply Z.mod_le; lia. }
  assert (Hlabel : forall v, 0 <= v < 2 ^ GSfc4q.keyBits (grid this) ->
            sbind (fun st => (Return (with_sbiID this
                      {| val := Some v; bits := GSfc4q.keyBits (grid this) |}),
                              st))
                  (fun this' => id_toString this' "2") (Some s)
            = (Return (render n v), Some s)).
  { intros v Hv. unfold sbind, id_toString.
    cbn [String.eqb Ascii.eqb Bool.eqb sbiID with_sbiID].
    set (x := {| val := Some v; bits := GSfc4q.keyBits (grid this) |}).
    rewrite (toString_base2 s x v Hs eq_refl).
    rewrite (toBitString_length x v eq_refl); cbn [bits x]; try assumption.
    reflexivity. }
  assert (Hvalue : forall v, 0 <= v < 2 ^ GSfc4q.keyBits (grid this) ->
            bits_value (render n v) 0 = v).
  { intros v Hv. rewrite bits_value_render. unfold n.
    rewrite Z2Nat.id by lia. rewrite Z.mod_small by lia. lia. }
  assert (Hbig : label_of (VBigInt key) = (Return (render n key), Some s)).
  { unfold label_of, sbind. rewrite setKey_fits by lia.
    apply (Hlabel key). lia. }
  assert (Hnum : label_of (VNumber key)
                 = (Return (render n (key mod 2 ^ 32)), Some s)).
  { unfold label_of, sbind. rewrite setKey_number_fits by lia.
    apply (Hlabel (key mod 2 ^ 32)). lia. }
  split; [exact Hbig |]. split; [exact Hnum |].
  split; [| split; [| split]].
  - intros Hlt. rewrite Hbig, Hnum, Z.mod_small by lia. reflexivity.
  - intros Hge. rewrite Hbig, Hnum. intros E.
    injection E as E. apply (f_equal (fun b => bits_value b 0)) in E.
    rewrite !Hvalue in E by lia.
    assert (key mod 2 ^ 32 < 2 ^ 32) by (apply Z.mod_pos_bound; lia). lia.
  - apply render_length.
  - apply Hvalue. lia.
Qed.

Lemma binary_label_of_key_witness :
  let this := {| grid := level_one_and_half; base := "4h"; sbiID := fromNull;
                 id0 := None; id0_maxBits := None |} in
  sbind (setKey this (VBigInt 2) None) (fun this' => id_toString this' "2")
        (Some defaults)
  = (Return "010"%string, Some defaults)
  /\ sbind (setKey this (VNumber 2) None) (fun this' => id_toString this' "2")
           (Some defaults)
     = (Return "010"%string, Some defaults).
Proof.
  intros this.
  pose proof (binary_label_of_key this None (GSfc4q.LNumber (3 # 2)%Q) 2
                defaults eq_refl ltac:(cbn; lia) eq_refl) as H.
  split; [exact (proj1 H) | exact (proj1 (proj2 H))].
Defined.



End LabelTexts.

Section GridPrefix.
Import SizedBigInt GSfc4qLbl.

Lemma constructor_bigint_fits s z radix n cut :
  1 <= n -> 0 <= z < 2 ^ n ->
  SizedBigInt.constructor (VBigInt z) radix (Some n) cut (Some s)
  = (Return {| val := Some z; bits := n |}, Some s).
Proof.
  intros Hn Hz. unfold SizedBigInt.constructor, sbind.
  rewrite kx_RefreshDefaults_again.
  apply fromAny_bigint_fits; assumption.
Qed.

(** [X23] [setId0(id0, id0_maxBits)] on a labelled curve that has a
    base, for a prefix [id0] that fits a positive [id0_maxBits]: when
    [id0] differs from the prefix kept, it is stored with its width and
    the ID is emptied, so that [setId] then takes IDs of
    [keyBits + id0_maxBits] bits; when it is the prefix kept already,
    nothing changes, the width given included. *)
Theorem setId0_sets_prefix (this : state) (z m : Z) (s : statics) :
  base this <> ""%string ->
  1 <= m ->
  0 <= z < 2 ^ m ->
  (id0 this <> Some z ->
   exists this',
     setId0 this (Some z) (Some m) (Some s) = (Return this', Some s)
     /\ this' = {| grid := grid this; base := base this; sbiID := fromNull;
                   id0 := Some z; id0_maxBits := Some m |}
     /\ id_bits this' = GSfc4q.keyBits (grid this) + m)
  /\ (id0 this = Some z ->
      setId0 this (Some z) (Some m) (Some s) = (Return this, Some s)).
Proof.
  intros Hbase Hm Hz.
  assert (E : setId0 this (Some z) (Some m) (Some s)
              = (if match id0 this with
                    | Some z' => negb (z =? z')
                    | None => true
                    end
                 then Return {| grid := grid this; base := base this;
                                sbiID := fromNull; id0 := Some z;
                                id0_maxBits := Some m |}
                 else Return this, Some s)).
  { unfold setId0, lblRefresh.
    destruct (Z.eqb_spec m 0) as [| _]; [lia |].
    destruct (String.eqb_spec (base this) "") as [| _]; [contradiction |].
    cbn [String.eqb negb orb]. unfold sbind at 1. unfold ret at 1.
    unfold sbind. rewrite constructor_bigint_fits by assumption.
    cbn [val bits]. unfold ret.
    destruct (match id0 this with
              | Some z' => negb (z =? z')
              | None => true
              end); reflexivity. }
  rewrite E. split.
  - intros Hne. eexists. split; [| split; [reflexivity |]].
    + destruct (id0 this) as [z' |]; [| reflexivity].
      destruct (Z.eqb_spec z z') as [-> | _]; [congruence | reflexivity].
    + reflexivity.
  - intros ->. rewrite Z.eqb_refl. reflexivity.
Qed.

Lemma setId0_sets_prefix_witness :
  let this := {| grid := level_one_and_half; base := "4h"; sbiID := fromNull;
                 id0 := None; id0_maxBits := None |} in
  exists this',
    setId0 this (Some 5) (Some 4) (Some defaults) = (Return this', Some defaults)
    /\ this' = {| grid := grid this; base := base this; sbiID := fromNull;
                  id0 := Some 5; id0_maxBits := Some 4 |}
    /\ id_bits this' = GSfc4q.keyBits (grid this) + 4.
Proof.
  intros this.
  apply (setId0_sets_prefix this 5 4 defaults);
    [discriminate | lia | lia | discriminate].
Defined.

End GridPrefix.

(** ** Texts and values *)

Section Texts.
Import SizedBigInt.

(** [X24] Bit-strings and sized integers correspond one to one
    through [fromBitString] and [toBitString]: a non-empty text of
    binary digits gives the value it denotes on as many bits as it has
    digits, leading zeros included, and is printed back unchanged; a
    value that fits its [bits >= 1] is printed on [bits] digits and read
    back unchanged. *)
Theorem bit_strings_and_values :
  (forall b,
      is_bitstring b = true -> b <> ""%string ->
      exists x,
        fromBitString b None true = Return x
        /\ val x = Some (bits_value b 0)
        /\ bits x = strlen b
        /\ 0 <= bits_value b 0 < 2 ^ bits x
        /\ toBitString x = b)
  /\ (forall x v,
         val x = Some v -> 1 <= bits x -> 0 <= v < 2 ^ bits x ->
         is_bitstring (toBitString x) = true
         /\ strlen (toBitString x) = bits x
         /\ fromBitString (toBitString x) None true = Return x).
Proof.
  split.
  - intros b Hb Hne.
    destruct (toBitString_fromBitString b Hb Hne) as (x & Hx & Hv & Hn & Ht).
    exists x. repeat split; try assumption.
    + apply bits_value_range.
    + rewrite Hn. apply bits_value_range.
  - intros x v Hv Hn Hr.
    rewrite (toBitString_length x v Hv Hn Hr).
    set (n := Z.to_nat (bits x)).
    assert (Hne : render n v <> ""%string).
    { destruct n eqn:E; [lia | discriminate]. }
    split; [apply render_is_bitstring |].
    split; [unfold strlen; rewrite render_length; lia |].
    unfold fromBitString.
    destruct (String.eqb_spec (render n v) "") as [| _]; [contradiction |].
    cbn [setBits_byMax JS.bind fst snd].
    rewrite BigInt_prefixed_bits by (apply render_is_bitstring || assumption).
    cbn [JS.bind]. rewrite bits_value_render. unfold strlen.
    rewrite render_length, Z.mul_0_l, Z.add_0_l.
    unfold n. rewrite Z2Nat.id by lia. rewrite Z.mod_small by lia.
    destruct x as [xv xb]. cbn [val bits] in *. now subst xv.
Qed.

(** [X25] In base 2 ([2] or [2h]), [toString] then [fromString] gives
    the sized integer back, value and number of bits, for every value
    that fits its [bits >= 1]; the tables of the class, once built, are
    left as they are. *)
Theorem base2_text_round_trip (s : statics) (radix : string) (x : t) (v : Z) :
  kx_baseLabel s = kx_baseLabel defaults ->
  radix = "2h"%string \/ radix = "2"%string ->
  val x = Some v -> 1 <= bits x -> 0 <= v < 2 ^ bits x ->
  sbind (toString x radix) (fun txt => fromString txt radix None true) (Some s)
  = (Return x, Some s).
Proof.
  intros Hs Hr Hv Hn Hfit.
  exact (fromString_toString_binary s radix x v Hs Hr Hv Hn Hfit).
Qed.

Lemma base2_text_round_trip_witness :
  sbind (toString {| val := Some 5; bits := 4 |} "2")
        (fun txt => fromString txt "2" None true) (Some defaults)
  = (Return {| val := Some 5; bits := 4 |}, Some defaults).
Proof.
  apply (base2_text_round_trip defaults "2" {| val := Some 5; bits := 4 |} 5);
    [reflexivity | right; reflexivity | reflexivity | cbn; lia | cbn; lia].
Defined.

End Texts.

(** ** Labels in the hierarchical bases are unique *)

Section UniqueLabels.
Import SizedBigInt.
Local Open Scope string_scope.

Lemma In_bitstrings c : is_bitstring c = true -> In c (bitstrings (String.length c)).
Proof.
  induction c as [| a c IH]; intros H; [now left |].
  cbn [is_bitstring] in H. apply andb_prop in H as [Ha Hc].
  cbn [String.length bitstrings]. apply in_flat_map.
  exists c. split; [apply IH, Hc |].
  apply orb_prop in Ha as [E | E]; apply Ascii.eqb_eq in E; subst a;
    [left | right; left]; reflexivity.
Qed.

Lemma In_chunks_upto c n :
  is_bitstring c = true -> (1 <= String.length c <= n)%nat ->
  In c (chunks_upto n).
Proof.
  intros Hc Hl. unfold chunks_upto. apply in_flat_map.
  exists (String.length c). split; [apply in_seq; lia | now apply In_bitstrings].
Qed.

Lemma one_char_each_spec tr n :
  one_char_each tr n = true ->
  forall c1, is_bitstring c1 = true -> (1 <= String.length c1 <= n)%nat ->
    (exists a, tr_text tr c1 = String a "")
    /\ forall c2, is_bitstring c2 = true -> (1 <= String.length c2 <= n)%nat ->
         tr_text tr c1 = tr_text tr c2 -> c1 = c2.
Proof.
  unfold one_char_each. cbv zeta. intros H c1 Hc1 Hl1.
  apply andb_prop in H as [H1 H2].
  pose proof (In_chunks_upto c1 n Hc1 Hl1) as Hin1.
  split.
  - rewrite forallb_forall in H1. specialize (H1 c1 Hin1).
    destruct (tr_text tr c1) as [| a [| ? ?]]; try discriminate. now exists a.
  - intros c2 Hc2 Hl2 E.
    rewrite forallb_forall in H2. specialize (H2 c1 Hin1).
    rewrite forallb_forall in H2.
    specialize (H2 c2 (In_chunks_upto c2 n Hc2 Hl2)).
    rewrite E, String.eqb_refl in H2. cbn [implb] in H2.
    now apply String.eqb_eq.
Qed.

Lemma substring_skip p : forall b n m,
    substring (String.length p + n) m (p ++ b) = substring n m b.
Proof.
  induction p as [| a p IH]; intros b n m; [reflexivity |].
  cbn [String.length Nat.add append substring]. apply IH.
Qed.

Lemma slice_skip p b i k :
  0 <= i -> 0 <= k ->
  slice (p ++ b) (strlen p + i) (strlen p + i + k) = slice b i (i + k).
Proof.
  intros Hi Hk. unfold slice. rewrite strlen_app.
  pose proof (strlen_nonneg p). pose proof (strlen_nonneg b).
  destruct (Z.ltb_spec (strlen p + i) 0); [lia |].
  destruct (Z.ltb_spec (strlen p + i + k) 0); [lia |].
  destruct (Z.ltb_spec i 0); [lia |].
  destruct (Z.ltb_spec (i + k) 0); [lia |].
  replace (Z.to_nat (Z.min (strlen p + i) (strlen p + strlen b)))
    with (String.length p + Z.to_nat (Z.min i (strlen b)))%nat
    by (unfold strlen in *; lia).
  rewrite substring_skip. f_equal. lia.
Qed.

Lemma toString_loop_skip tr bpd p b fuel : forall i r,
    0 <= i -> 0 <= bpd ->
    toString_loop fuel tr bpd (p ++ b) (strlen p + i) r
    = toString_loop fuel tr bpd b i r.
Proof.
  induction fuel as [| fuel IH]; intros i r Hi Hb.
  - cbn [toString_loop]. rewrite strlen_app.
    destruct (Z.ltb_spec (strlen p + i) (strlen p + strlen b)),
      (Z.ltb_spec i (strlen b)); reflexivity || lia.
  - rewrite !toString_loop_S, strlen_app.
    destruct (Z.ltb_spec (strlen p + i) (strlen p + strlen b)),
      (Z.ltb_spec i (strlen b)); try reflexivity; try lia.
    rewrite slice_skip by lia.
    replace (strlen p + i + bpd) with (strlen p + (i + bpd)) by lia.
    apply IH; lia.
Qed.

Lemma toString_loop_done tr bpd b fuel i r :
  strlen b <= i -> toString_loop fuel tr bpd b i r = Return r.
Proof.
  intros H. destruct fuel; cbn [toString_loop];
    destruct (Z.ltb_spec i (strlen b)); reflexivity || lia.
Qed.

(** The first digit of the loop: the chunk it reads, and the loop on
    the rest of the bit-string. *)
Lemma toString_loop_head tr (n : nat) b fuel :
  (1 <= n)%nat -> b <> "" -> is_bitstring b = true ->
  exists c rest,
    b = c ++ rest
    /\ is_bitstring c = true /\ is_bitstring rest = true
    /\ (1 <= String.length c <= n)%nat
    /\ (String.length c < n -> rest = "")%nat
    /\ toString_loop (S fuel) tr (Z.of_nat n) b 0 ""
       = with_prefix (tr_text tr c) (toString_loop fuel tr (Z.of_nat n) rest 0 "").
Proof.
  intros Hn Hne Hb.
  assert (Hlen : (1 <= String.length b)%nat).
  { destruct b; [contradiction | cbn; lia]. }
  set (m := Nat.min n (String.length b)).
  destruct (substring_head b m ltac:(lia)) as (rest & E & Hc & Hr).
  set (c := substring 0 m b) in *.
  assert (Hbits : is_bitstring c = true /\ is_bitstring rest = true).
  { rewrite E, is_bitstring_app in Hb. now apply andb_prop in Hb. }
  exists c, rest. split; [exact E |].
  split; [apply Hbits |]. split; [apply Hbits |].
  split; [lia |]. split.
  { intros Hlt. destruct rest; [reflexivity | cbn in Hr; lia]. }
  rewrite toString_loop_S.
  destruct (Z.ltb_spec 0 (strlen b)) as [_ | H]; [| unfold strlen in H; lia].
  rewrite toString_loop_acc. cbn [append]. f_equal.
  - unfold slice, strlen. cbn [Z.ltb Z.compare].
    destruct (Z.ltb_spec (0 + Z.of_nat n) 0); [lia |].
    rewrite Z.min_l by lia.
    replace (Z.to_nat (Z.min (0 + Z.of_nat n) (Z.of_nat (String.length b)) - 0))
      with m by lia.
    reflexivity.
  - destruct (Nat.eq_dec (String.length c) n) as [En | Hlt].
    + rewrite E at 1.
      replace (0 + Z.of_nat n) with (strlen c + 0) by (unfold strlen; lia).
      apply toString_loop_skip; lia.
    + assert (rest = "") as -> by (destruct rest; [reflexivity | cbn in Hr; lia]).
      rewrite !toString_loop_done; [reflexivity | cbn; lia |].
      unfold strlen. lia.
Qed.

Lemma toString_loop_unique tr (n : nat) :
  (1 <= n)%nat -> one_char_each tr n = true ->
  forall fuel1 b1 fuel2 b2 out,
    is_bitstring b1 = true -> is_bitstring b2 = true ->
    (String.length b1 <= fuel1)%nat -> (String.length b2 <= fuel2)%nat ->
    toString_loop fuel1 tr (Z.of_nat n) b1 0 "" = Return out ->
    toString_loop fuel2 tr (Z.of_nat n) b2 0 "" = Return out ->
    b1 = b2.
Proof.
  intros Hn Hgood.
  pose proof (one_char_each_spec tr n Hgood) as Hspec.
  assert (Hstep : forall fuel b o,
             b <> "" -> is_bitstring b = true ->
             toString_loop (S fuel) tr (Z.of_nat n) b 0 "" = Return o ->
             exists c rest a o',
               b = c ++ rest /\ is_bitstring c = true
               /\ is_bitstring rest = true
               /\ (1 <= String.length c <= n)%nat
               /\ (String.length c < n -> rest = "")%nat
               /\ tr_text tr c = String a ""
               /\ o = String a o'
               /\ toString_loop fuel tr (Z.of_nat n) rest 0 "" = Return o').
  { intros fuel b o Hne Hb Ho.
    destruct (toString_loop_head tr n b fuel Hn Hne Hb)
      as (c & rest & E & Hc & Hr & Hl & Hlast & Hrun).
    destruct (proj1 (Hspec c Hc Hl)) as [a Ha].
    rewrite Hrun, Ha in Ho.
    destruct (toString_loop fuel tr (Z.of_nat n) rest 0 "") as [o' | |] eqn:El;
      try discriminate.
    cbn [with_prefix append] in Ho. injection Ho as <-.
    exists c, rest, a, o'.
    split; [exact E |]. split; [exact Hc |]. split; [exact Hr |].
    split; [exact Hl |]. split; [exact Hlast |]. split; [exact Ha |].
    split; [reflexivity | exact El]. }
  induction fuel1 as [| fuel1 IH]; intros b1 fuel2 b2 out Hb1 Hb2 Hf1 Hf2 H1 H2.
  - destruct b1; [| cbn in Hf1; lia].
    cbn in H1. injection H1 as <-.
    destruct b2 as [| a2 b2]; [reflexivity |].
    destruct fuel2 as [| fuel2]; [cbn in Hf2; lia |].
    destruct (Hstep fuel2 (String a2 b2) "" ltac:(discriminate) Hb2 H2)
      as (? & ? & ? & ? & _ & _ & _ & _ & _ & _ & Hcontra & _).
    discriminate.
  - destruct b1 as [| a1 b1].
    + cbn in H1. injection H1 as <-.
      destruct b2 as [| a2 b2]; [reflexivity |].
      destruct fuel2 as [| fuel2]; [cbn in Hf2; lia |].
      destruct (Hstep fuel2 (String a2 b2) "" ltac:(discriminate) Hb2 H2)
        as (? & ? & ? & ? & _ & _ & _ & _ & _ & _ & Hcontra & _).
      discriminate.
    + destruct (Hstep fuel1 (String a1 b1) out ltac:(discriminate) Hb1 H1)
        as (c1 & r1 & x1 & o1 & E1 & Hc1 & Hr1 & Hl1 & Hlast1 & Ht1 & Eo1 & Hrun1).
      destruct b2 as [| a2 b2].
      { rewrite toString_loop_done in H2 by (cbn; lia).
        injection H2 as <-. discriminate. }
      destruct fuel2 as [| fuel2]; [cbn in Hf2; lia |].
      destruct (Hstep fuel2 (String a2 b2) out ltac:(discriminate) Hb2 H2)
        as (c2 & r2 & x2 & o2 & E2 & Hc2 & Hr2 & Hl2 & Hlast2 & Ht2 & Eo2 & Hrun2).
      rewrite Eo1 in Eo2. injection Eo2 as Ex Eo. subst x2 o2.
      assert (Ec : c1 = c2).
      { apply (proj2 (Hspec c1 Hc1 Hl1) c2 Hc2 Hl2). congruence. }
      subst c2. rewrite E1, E2. f_equal.
      destruct (Nat.eq_dec (String.length c1) n) as [En | Hlt].
      * apply (IH r1 fuel2 r2 o1); try assumption.
        -- rewrite E1, slength_app in Hf1. lia.
        -- rewrite E2, slength_app in Hf2. lia.
      * rewrite Hlast1, Hlast2 by lia. reflexivity.
Qed.

End UniqueLabels.

Section UniqueLabelsOfTheClass.
Import SizedBigInt.
Local Open Scope string_scope.

Lemma hier_entry_cases radix r :
  hier_entry radix r ->
  base r = 2
  \/ (In radix ["4h"; "8h"; "16h"]
      /\ one_char_each (table_from_bits radix) (Z.to_nat (bitsPerDigit r)) = true
      /\ bitsPerDigit r = Z.of_nat (Z.to_nat (bitsPerDigit r))
      /\ (1 <= Z.to_nat (bitsPerDigit r))%nat).
Proof.
  intros [H Hh]. unfold defaults in H. cbn [kx_baseLabel obj_get] in H.
  repeat match type of H with
         | context [if String.eqb radix ?k then _ else _] =>
             destruct (String.eqb_spec radix k) as [-> | _];
             [ first
                 [ discriminate H
                 | injection H as <-; first
                     [ discriminate Hh
                     | left; reflexivity
                     | right; split; [simpl; tauto |];
                       split; [vm_compute; reflexivity |];
                       split; [reflexivity | cbn; lia] ] ]
             | ]
         end.
  discriminate H.
Qed.

(** [toString] on the tables of a class that has built no translation
    table yet, and on the tables it leaves. *)
Lemma toString_fresh radix r x v :
  hier_entry radix r -> In radix ["4h"; "8h"; "16h"] ->
  val x = Some v ->
  exists s',
    kx_trConfig radix (Some defaults) = (Return tt, Some s')
    /\ toString x radix (Some defaults)
       = (toString_loop (String.length (toBitString x)) (table_from_bits radix)
            (bitsPerDigit r) (toBitString x) 0 "", Some s')
    /\ toString x radix (Some s')
       = (toString_loop (String.length (toBitString x)) (table_from_bits radix)
            (bitsPerDigit r) (toBitString x) 0 "", Some s')
    /\ kx_baseLabel s' = kx_baseLabel defaults.
Proof.
  intros Hh Hin Hv. destruct x as [xv n]. cbn [val] in Hv. subst xv.
  destruct Hh as [Hg _].
  destruct Hin as [<- | [<- | [<- | []]]];
    vm_compute in Hg; injection Hg as <-;
    (eexists; split; [vm_compute; reflexivity |]);
    (split; [reflexivity |]); (split; [reflexivity |]);
    reflexivity.
Qed.

End UniqueLabelsOfTheClass.

Section UniqueLabelsTheorem.
Import SizedBigInt.
Local Open Scope string_scope.

Lemma constructor_null_on s :
  kx_baseLabel s = kx_baseLabel defaults ->
  constructor VNull "" None None (Some s) = (Return fromNull, Some s).
Proof.
  intros Hs. destruct (constructor_null (Some s) Hs) as (s0 & Hc & _ & Hsame).
  now rewrite (Hsame s eq_refl) in Hc.
Qed.

(** What [render_bits] computes on the tables the class has at its
    first uses: the bit-string itself in base 2, and elsewhere the loop
    of [toString] over the table of the base. *)
Lemma render_bits_known radix r b st :
  hier_entry radix r -> is_bitstring b = true ->
  st = None \/ st = Some defaults
  \/ (exists s', st = Some s'
                 /\ kx_trConfig radix (Some defaults) = (Return tt, Some s')) ->
  exists st',
    render_bits radix b st
    = (if (base r =? 2)%Z then Return b
       else toString_loop (String.length b) (table_from_bits radix)
              (bitsPerDigit r) b 0 "", st')
    /\ (st' = Some defaults
        \/ exists s', st' = Some s'
                      /\ kx_trConfig radix (Some defaults) = (Return tt, Some s')).
Proof.
  intros Hh Hb Hst.
  destruct (hier_entry_props radix r Hh) as (_ & Hlabel & H64 & Hbpd & Hbase).
  assert (Hstart : exists s,
             constructor VNull "" None None st = (Return fromNull, Some s)
             /\ (s = defaults
                 \/ kx_trConfig radix (Some defaults) = (Return tt, Some s))).
  { destruct Hst as [-> | [-> | (s' & -> & Hcfg)]].
    - exists defaults. split; [vm_compute; reflexivity | now left].
    - exists defaults. split; [now apply constructor_null_on | now left].
    - exists s'. split; [| now right].
      apply constructor_null_on.
      destruct (hier_entry_cases radix r Hh) as [E2 | (Hin & _)].
      + assert (kx_trConfig radix (Some defaults) = (Return tt, Some defaults)).
        { destruct Hh as [Hg _]. unfold kx_trConfig, sbind, tables.
          rewrite Hg. apply Z.eqb_eq in E2. rewrite E2. reflexivity. }
        congruence.
      + destruct (toString_fresh radix r {| val := Some 0; bits := 1 |} 0 Hh Hin
                    eq_refl) as (s2 & Hcfg2 & _ & _ & Hl2).
        congruence. }
  destruct Hstart as (s & Hc & Hs).
  assert (Hl : kx_baseLabel s = kx_baseLabel defaults).
  { destruct Hs as [-> | Hcfg]; [reflexivity |].
    destruct (hier_entry_cases radix r Hh) as [E2 | (Hin & _)].
    - assert (kx_trConfig radix (Some defaults) = (Return tt, Some defaults)).
      { destruct Hh as [Hg _]. unfold kx_trConfig, sbind, tables.
        rewrite Hg. apply Z.eqb_eq in E2. rewrite E2. reflexivity. }
      congruence.
    - destruct (toString_fresh radix r {| val := Some 0; bits := 1 |} 0 Hh Hin
                  eq_refl) as (s2 & Hcfg2 & _ & _ & Hl2).
      congruence. }
  assert (Hout : forall s0, s0 = s ->
             Some s0 = Some defaults
             \/ exists s', Some s0 = Some s'
                   /\ kx_trConfig radix (Some defaults) = (Return tt, Some s')).
  { intros s0 ->. destruct Hs as [-> | Hcfg]; [now left | right; eauto]. }
  rewrite (render_bits_unfold radix b _ _ Hc).
  destruct (String.eqb_spec b "") as [-> | Hne].
  - cbn [fromBitString String.eqb]. change (toString fromNull radix (Some s))
      with (toString {| val := None; bits := 0 |} radix (Some s)).
    rewrite (toString_null radix r s 0 (Hbase s Hl)).
    exists (Some s). split; [| now apply Hout].
    destruct (base r =? 2)%Z; reflexivity.
  - destruct (toBitString_fromBitString b Hb Hne) as (x & Hx & Hv & _ & Hbits).
    rewrite Hx.
    destruct (hier_entry_cases radix r Hh) as [E2 | (Hin & _)].
    + rewrite (toString_binary radix r s x _ (Hbase s Hl) E2 Hv), Hbits.
      apply Z.eqb_eq in E2. rewrite E2.
      exists (Some s). split; [reflexivity | now apply Hout].
    + destruct (toString_fresh radix r x _ Hh Hin Hv)
        as (s' & Hcfg & Hfresh & Hagain & _).
      assert (N2 : (base r =? 2)%Z = false).
      { destruct Hh as [Hg _].
        destruct Hin as [<- | [<- | [<- | []]]]; vm_compute in Hg;
          injection Hg as <-; reflexivity. }
      rewrite N2. exists (Some s'). split; [| right; eauto].
      destruct Hs as [-> | Hcfg'].
      * rewrite Hfresh, Hbits. reflexivity.
      * assert (s = s') by congruence. subst s.
        rewrite Hagain, Hbits. reflexivity.
Qed.

(** [X26] Labels in the hierarchical bases ([2h], [4h], [8h], [16h])
    are unique: on a class that has built no translation table yet,
    two bit-strings of any lengths that [toString] renders to the same
    text are the same bit-string, whether the second is rendered on the
    same tables as the first or on the tables the first rendering
    leaves. *)
Theorem hierarchical_labels_unique
        (st : option statics) (radix : string) (r : baseDef)
        (b1 b2 out : string) (st1 st2 : option statics) :
  fresh_tables st ->
  hier_entry radix r ->
  is_bitstring b1 = true -> is_bitstring b2 = true ->
  render_bits radix b1 st = (Return out, st1) ->
  render_bits radix b2 st = (Return out, st2)
  \/ render_bits radix b2 st1 = (Return out, st2) ->
  b1 = b2.
Proof.
  intros Hst Hh Hb1 Hb2 H1 H2.
  assert (Hst' : st = None \/ st = Some defaults
                 \/ (exists s', st = Some s'
                      /\ kx_trConfig radix (Some defaults) = (Return tt, Some s')))
    by (destruct Hst; tauto).
  destruct (render_bits_known radix r b1 st Hh Hb1 Hst') as (st1' & E1 & Hk1).
  rewrite E1 in H1. injection H1 as Hout1 <-.
  assert (Hout2 : (if (base r =? 2)%Z then Return b2
                   else toString_loop (String.length b2) (table_from_bits radix)
                          (bitsPerDigit r) b2 0 "") = Return out).
  { destruct H2 as [H2 | H2].
    - destruct (render_bits_known radix r b2 st Hh Hb2 Hst') as (? & E2 & _).
      rewrite E2 in H2. now injection H2.
    - destruct (render_bits_known radix r b2 st1' Hh Hb2 ltac:(tauto))
        as (? & E2 & _).
      rewrite E2 in H2. now injection H2. }
  destruct (hier_entry_cases radix r Hh) as [E2 | (_ & Hgood & Hbpd & Hn)].
  - apply Z.eqb_eq in E2. rewrite E2 in *. congruence.
  - assert (N2 : (base r =? 2)%Z = false).
    { destruct (Z.eqb_spec (base r) 2) as [E |]; [| reflexivity].
      destruct Hh as [Hg _]. exfalso.
      clear - Hg E Hgood. unfold defaults in Hg. cbn [kx_baseLabel obj_get] in Hg.
      repeat match type of Hg with
             | context [if String.eqb radix ?k then _ else _] =>
                 destruct (String.eqb_spec radix k) as [-> | _];
                 [ first [ discriminate Hg
                         | injection Hg as <-;
                           first [discriminate E
                                 | vm_compute in Hgood; discriminate Hgood] ]
                 | ]
             end.
      discriminate Hg. }
    rewrite N2 in Hout1, Hout2. rewrite Hbpd in Hout1, Hout2.
    apply (toString_loop_unique (table_from_bits radix)
             (Z.to_nat (bitsPerDigit r)) Hn Hgood
             (String.length b1) b1 (String.length b2) b2 out);
      auto.
Qed.

Lemma hierarchical_labels_unique_witness :
  fst (render_bits "4h" "010" None) = Return "1G"
  /\ "010" = "010".
Proof.
  split; [reflexivity |].
  apply (hierarchical_labels_unique None "4h"
           {| base := 4; alphabet := "0123GQ"; isDefault := false;
              isHierar := true; bitsPerDigit := 2; label := "4h" |}
           "010" "010" "1G" (snd (render_bits "4h" "010" None))
           (snd (render_bits "4h" "010" None)));
    [left; reflexivity | split; reflexivity | reflexivity | reflexivity
    | vm_compute; reflexivity | left; vm_compute; reflexivity].
Defined.

End UniqueLabelsTheorem.

Section LabelLength.
Import SizedBigInt.
Local Open Scope string_scope.

Lemma toString_loop_length tr (n : nat) :
  (1 <= n)%nat -> one_char_each tr n = true ->
  forall fuel b,
    is_bitstring b = true -> (String.length b <= fuel)%nat ->
    exists out,
      toString_loop fuel tr (Z.of_nat n) b 0 "" = Return out
      /\ (strlen out = (strlen b + Z.of_nat n - 1) / Z.of_nat n)%Z.
Proof.
  intros Hn Hgood.
  pose proof (one_char_each_spec tr n Hgood) as Hspec.
  induction fuel as [| fuel IH]; intros b Hb Hf.
  - destruct b; [| cbn in Hf; lia]. exists "". split; [reflexivity |].
    change (strlen "") with 0%Z. symmetry. apply Z.div_small. lia.
  - destruct (String.eqb_spec b "") as [-> | Hne].
    + exists "". split; [reflexivity |].
      change (strlen "") with 0%Z. symmetry. apply Z.div_small. lia.
    + destruct (toString_loop_head tr n b fuel Hn Hne Hb)
        as (c & rest & E & Hc & Hr & Hl & Hlast & Hrun).
      destruct (proj1 (Hspec c Hc Hl)) as [a Ha].
      assert (Hlen : String.length b
                     = (String.length c + String.length rest)%nat)
        by (rewrite E at 1; apply slength_app).
      destruct (IH rest Hr ltac:(lia)) as (o & Ho & Hlo).
      rewrite Hrun, Ha, Ho. cbn [with_prefix append].
      exists (String a o). split; [reflexivity |].
      unfold strlen in *. cbn [String.length]. rewrite Hlen.
      destruct (Nat.eq_dec (String.length c) n) as [En | Hlt].
      * rewrite En. rewrite Nat2Z.inj_succ, Hlo.
        replace (Z.of_nat (n + String.length rest) + Z.of_nat n - 1)%Z
          with (Z.of_nat (String.length rest) + Z.of_nat n - 1
                + 1 * Z.of_nat n)%Z by lia.
        rewrite Z.div_add by lia. lia.
      * rewrite Hlast in * by lia. cbn [String.length] in *.
        rewrite Nat2Z.inj_succ, Hlo.
        replace ((Z.of_nat 0 + Z.of_nat n - 1) / Z.of_nat n)%Z with 0%Z
          by (symmetry; apply Z.div_small; lia).
        apply (Z.div_unique _ (Z.of_nat n) 1 (Z.of_nat (String.length c) - 1));
          lia.
Qed.

(** [X27] The length of a label in a hierarchical base ([2h], [4h],
    [8h], [16h]): a bit-string of [n] bits is rendered with one
    character per digit, a last digit cut short included, that is with
    [ceil(n / bitsPerDigit)] characters (on a class that has built no
    translation table yet). *)
Theorem hierarchical_label_length
        (st : option statics) (radix : string) (r : baseDef) (b : string) :
  fresh_tables st ->
  hier_entry radix r ->
  is_bitstring b = true ->
  exists out st',
    render_bits radix b st = (Return out, st')
    /\ (strlen out = (strlen b + bitsPerDigit r - 1) / bitsPerDigit r)%Z.
Proof.
  intros Hst Hh Hb.
  destruct (render_bits_known radix r b st Hh Hb ltac:(destruct Hst; tauto))
    as (st' & E & _).
  rewrite E.
  destruct (hier_entry_cases radix r Hh) as [E2 | (Hin & Hgood & Hbpd & Hn)].
  - assert (Eb : bitsPerDigit r = 1%Z).
    { destruct Hh as [Hg Hi]. unfold defaults in Hg.
      cbn [kx_baseLabel obj_get] in Hg.
      repeat match type of Hg with
             | context [if String.eqb radix ?k then _ else _] =>
                 destruct (String.eqb_spec radix k) as [-> | _];
                 [ first [ discriminate Hg
                         | injection Hg as <-;
                           first [discriminate E2 | discriminate Hi
                                 | reflexivity] ]
                 | ]
             end.
      discriminate Hg. }
    apply Z.eqb_eq in E2. rewrite E2, Eb.
    exists b, st'. split; [reflexivity |].
    rewrite Z.div_1_r. lia.
  - assert (N2 : (base r =? 2)%Z = false).
    { destruct Hh as [Hg _].
      destruct Hin as [<- | [<- | [<- | []]]]; vm_compute in Hg;
        injection Hg as <-; reflexivity. }
    rewrite N2, Hbpd.
    destruct (toString_loop_length (table_from_bits radix)
                (Z.to_nat (bitsPerDigit r)) Hn Hgood (String.length b) b Hb
                (Nat.le_refl _)) as (out & Ho & Hl).
    rewrite Ho. exists out, st'. split; [reflexivity | exact Hl].
Qed.

Lemma hierarchical_label_length_witness :
  exists out st',
    render_bits "16h" "0100111" None = (Return out, st')
    /\ (strlen out = (strlen "0100111" + 4 - 1) / 4)%Z.
Proof.
  apply (hierarchical_label_length None "16h"
           {| base := 16; alphabet := "0123456789abcdefGHJKMNPQRSTVZY";
              isDefault := false; isHierar := true; bitsPerDigit := 4;
              label := "16h" |} "0100111");
    [left; reflexivity | split; reflexivity | reflexivity].
Defined.

End LabelLength.

(** ** Labels across levels *)

Section HierarchicalLabels.
Import SizedBigInt GSfc4qLbl.
Local Open Scope string_scope.

Lemma render_split (a b : nat) v :
  render (a + b) v = render a (Z.shiftr v (Z.of_nat b)) ++ render b v.
Proof.
  induction a as [| a IH]; [reflexivity |].
  cbn [Nat.add render append]. rewrite IH. f_equal. f_equal.
  rewrite Z.shiftr_spec by lia. f_equal. lia.
Qed.

(** [toString] of a value on the tables that [kx_trConfig] leaves for
    a hierarchical base: the bit-string in base 2, the loop over the
    table of the base elsewhere. *)
Lemma toString_configured radix r s' x v :
  hier_entry radix r ->
  kx_trConfig radix (Some defaults) = (Return tt, Some s') ->
  val x = Some v ->
  toString x radix (Some s')
  = (if (SizedBigInt.base r =? 2)%Z then Return (toBitString x)
     else toString_loop (String.length (toBitString x)) (table_from_bits radix)
            (bitsPerDigit r) (toBitString x) 0 "", Some s').
Proof.
  intros Hh Hcfg Hv.
  destruct (hier_entry_props radix r Hh) as (_ & Hlabel & H64 & Hbpd & Hbase).
  destruct (hier_entry_cases radix r Hh) as [E2 | (Hin & _)].
  - assert (kx_trConfig radix (Some defaults) = (Return tt, Some defaults)).
    { destruct Hh as [Hg _]. unfold kx_trConfig, sbind, tables.
      rewrite Hg. apply Z.eqb_eq in E2. rewrite E2. reflexivity. }
    assert (s' = defaults) by congruence. subst s'.
    rewrite (toString_binary radix r defaults x v (Hbase defaults eq_refl) E2 Hv).
    apply Z.eqb_eq in E2. now rewrite E2.
  - destruct (toString_fresh radix r x v Hh Hin Hv)
      as (s2 & Hcfg2 & _ & Hagain & _).
    assert (s2 = s') by congruence. subst s2.
    assert (N2 : (SizedBigInt.base r =? 2)%Z = false).
    { destruct Hh as [Hg _].
      destruct Hin as [<- | [<- | [<- | []]]]; vm_compute in Hg;
        injection Hg as <-; reflexivity. }
    now rewrite N2.
Qed.

Lemma hier_radix_named radix r : hier_entry radix r -> radix <> "".
Proof.
  intros Hh ->. destruct Hh as [Hg _]. vm_compute in Hg. discriminate.
Qed.

(** [X28] Labels are hierarchical across grids: in a hierarchical base
    ([2h], [4h], [8h], [16h]), on the tables a labelled curve of that
    base leaves, let two labelled curves have [keyBits] of [n1 <= n2]
    bits, with [n1] a whole number of digits of the base.  For every
    key of [n2] bits, the label of the key without its last [n2 - n1]
    bits, set on the first curve, is a prefix of the label of the key
    set on the second.  Each of the two keys is given to [setKey] as a
    BigInt, or as a Number when it is below [2^32] (of a Number from
    [2^32] on [setKey] stores only the remainder modulo [2^32], and
    nothing is said here).  (The cell of a key without its last 2 bits
    is the parent cell, for the Morton and the Hilbert curve.) *)
Theorem labels_are_hierarchical
        (this1 this2 : state) (radix : string) (r : baseDef)
        (s' : statics) (key : Z) (number1 number2 : bool) :
  hier_entry radix r ->
  kx_trConfig radix (Some defaults) = (Return tt, Some s') ->
  (1 <= GSfc4q.keyBits (grid this1) <= GSfc4q.keyBits (grid this2))%Z ->
  (exists k : nat,
      GSfc4q.keyBits (grid this1) = Z.of_nat k * bitsPerDigit r)%Z ->
  (0 <= key < 2 ^ GSfc4q.keyBits (grid this2))%Z ->
  (number1 = true ->
   Z.shiftr key (GSfc4q.keyBits (grid this2) - GSfc4q.keyBits (grid this1))
   < 2 ^ 32)%Z ->
  (number2 = true -> key < 2 ^ 32)%Z ->
  exists l1 l2,
    sbind (setKey this1
             (key_arg number1
                (Z.shiftr key (GSfc4q.keyBits (grid this2)
                               - GSfc4q.keyBits (grid this1))))
             None)
          (fun t => id_toString t radix) (Some s')
    = (Return l1, Some s')
    /\ sbind (setKey this2 (key_arg number2 key) None)
             (fun t => id_toString t radix) (Some s')
       = (Return l2, Some s')
    /\ String.prefix l1 l2 = true.
Proof.
  intros Hh Hcfg Hn [k Hk] Hkey Hnum1 Hnum2.
  destruct (hier_entry_props radix r Hh) as (_ & _ & _ & Hbpd & _).
  pose proof (hier_radix_named radix r Hh) as Hne.
  set (n1 := GSfc4q.keyBits (grid this1)) in *.
  set (n2 := GSfc4q.keyBits (grid this2)) in *.
  assert (Hp : (0 <= Z.shiftr key (n2 - n1) < 2 ^ n1)%Z)
    by (apply shiftr_top; lia).
  unfold sbind.
  rewrite (setKey_key_arg_fits this1 number1 (Z.shiftr key (n2 - n1)) None
             (Some s') (proj1 Hn) Hp Hnum1).
  rewrite (setKey_key_arg_fits this2 number2 key None (Some s')
             ltac:(fold n2; lia) Hkey Hnum2).
  fold n1 n2.
  unfold id_toString.
  destruct (String.eqb_spec radix "") as [| _]; [contradiction |].
  cbn [sbiID with_sbiID].
  set (x1 := {| val := Some (Z.shiftr key (n2 - n1)); bits := n1 |}).
  set (x2 := {| val := Some key; bits := n2 |}).
  rewrite (toString_configured radix r s' x1 _ Hh Hcfg eq_refl).
  rewrite (toString_configured radix r s' x2 _ Hh Hcfg eq_refl).
  rewrite (toBitString_length x1 _ eq_refl) by (cbn [bits x1]; lia).
  rewrite (toBitString_length x2 _ eq_refl) by (cbn [bits x2]; lia).
  cbn [bits x1 x2].
  assert (Es : render (Z.to_nat n2) key
               = render (Z.to_nat n1) (Z.shiftr key (n2 - n1))
                 ++ render (Z.to_nat (n2 - n1)) key).
  { replace (Z.to_nat n2) with (Z.to_nat n1 + Z.to_nat (n2 - n1))%nat by lia.
    rewrite render_split. f_equal. f_equal. f_equal. lia. }
  rewrite Es.
  set (b1 := render (Z.to_nat n1) (Z.shiftr key (n2 - n1))).
  set (b2 := render (Z.to_nat (n2 - n1)) key).
  destruct (SizedBigInt.base r =? 2)%Z.
  - exists b1, (b1 ++ b2). repeat split. apply prefix_app.
  - destruct (toString_loop_prefix (table_from_bits radix) (bitsPerDigit r)
                b1 b2 k 0 (String.length b1) (String.length (b1 ++ b2)) Hbpd)
      as (out & ext & Hout & Hout2);
      [lia | | unfold strlen; lia | unfold strlen; lia |].
    + unfold strlen, b1. rewrite render_length. lia.
    + rewrite Hout, Hout2. exists out, (out ++ ext).
      repeat split. apply prefix_app.
Qed.

Lemma labels_are_hierarchical_witness :
  let this1 := {| grid := level_one; base := "4h"; sbiID := fromNull;
                  id0 := None; id0_maxBits := None |} in
  let this2 := {| grid := level_one_and_half; base := "4h"; sbiID := fromNull;
                  id0 := None; id0_maxBits := None |} in
  exists l1 l2,
    sbind (setKey this1 (VNumber (Z.shiftr 5 (3 - 2))) None)
          (fun t => id_toString t "4h")
          (snd (kx_trConfig "4h" (Some defaults)))
    = (Return l1, snd (kx_trConfig "4h" (Some defaults)))
    /\ sbind (setKey this2 (VBigInt 5) None) (fun t => id_toString t "4h")
             (snd (kx_trConfig "4h" (Some defaults)))
       = (Return l2, snd (kx_trConfig "4h" (Some defaults)))
    /\ String.prefix l1 l2 = true.
Proof.
  intros this1 this2.
  refine (labels_are_hierarchical this1 this2 "4h"
            {| SizedBigInt.base := 4; alphabet := "0123GQ"; isDefault := false;
               isHierar := true; bitsPerDigit := 2; label := "4h" |}
            _ 5 true false _ _ _ _ _ _ _).
  - split; reflexivity.
  - vm_compute. reflexivity.
  - cbn. lia.
  - exists 1%nat. reflexivity.
  - cbn. lia.
  - intros _. reflexivity.
  - intros H. discriminate H.
Defined.

End HierarchicalLabels.

(** ** Digits cut short in the bases that are not hierarchical *)

Section PartialDigits.
Import SizedBigInt.
Local Open Scope string_scope.

Lemma keys_of_length_miss tr n c :
  keys_of_length tr n = true -> String.length c <> n -> obj_get c tr = None.
Proof.
  unfold keys_of_length. induction tr as [| [k v] tr IH]; intros H Hc.
  - reflexivity.
  - cbn [forallb fst] in H. apply andb_prop in H as [Hk Ht].
    cbn [obj_get]. destruct (String.eqb_spec c k) as [-> | _].
    + apply Nat.eqb_eq in Hk. contradiction.
    + now apply IH.
Qed.

Lemma toString_loop_partial tr (n : nat) :
  (1 <= n)%nat -> keys_of_length tr n = true ->
  forall fuel b,
    is_bitstring b = true -> (String.length b <= fuel)%nat ->
    (String.length b mod n <> 0)%nat ->
    exists pre,
      toString_loop fuel tr (Z.of_nat n) b 0 "" = Return (pre ++ "undefined").
Proof.
  intros Hn Hkeys.
  induction fuel as [| fuel IH]; intros b Hb Hf Hm.
  - destruct b; [| cbn in Hf; lia].
    cbn [String.length] in Hm. rewrite Nat.Div0.mod_0_l in Hm. contradiction.
  - assert (Hne : b <> "").
    { intros ->. cbn [String.length] in Hm.
      rewrite Nat.Div0.mod_0_l in Hm. contradiction. }
    destruct (toString_loop_head tr n b fuel Hn Hne Hb)
      as (c & rest & E & Hc & Hr & Hl & Hlast & Hrun).
    rewrite Hrun.
    assert (Hlen : String.length b = (String.length c + String.length rest)%nat)
      by (rewrite E at 1; apply slength_app).
    destruct (Nat.eq_dec (String.length c) n) as [En | Hlt].
    + destruct (IH rest Hr) as [pre Hpre]; [lia | |].
      * rewrite Hlen, En in Hm.
        replace (n + String.length rest)%nat
          with (String.length rest + 1 * n)%nat in Hm by lia.
        now rewrite Nat.Div0.mod_add in Hm.
      * rewrite Hpre. cbn [with_prefix].
        exists (tr_text tr c ++ pre). now rewrite sapp_assoc.
    + rewrite Hlast by lia. rewrite toString_loop_done by (cbn; lia).
      cbn [with_prefix]. unfold tr_text.
      rewrite (keys_of_length_miss tr n c Hkeys Hlt).
      exists "". reflexivity.
Qed.

Lemma plain_entry_cases radix r :
  plain_entry radix r ->
  In radix ["4js"; "8js"; "16js"; "32hex"; "32nvu"; "32rfc"; "32ghs"; "64url"]
  /\ keys_of_length (table_from_bits radix) (Z.to_nat (bitsPerDigit r)) = true
  /\ bitsPerDigit r = Z.of_nat (Z.to_nat (bitsPerDigit r))
  /\ (1 <= Z.to_nat (bitsPerDigit r))%nat.
Proof.
  intros [H Hh]. unfold defaults in H. cbn [kx_baseLabel obj_get] in H.
  repeat match type of H with
         | context [if String.eqb radix ?k then _ else _] =>
             destruct (String.eqb_spec radix k) as [-> | _];
             [ first
                 [ discriminate H
                 | injection H as <-; first
                     [ discriminate Hh
                     | split; [simpl; tauto |];
                       split; [vm_compute; reflexivity |];
                       split; [reflexivity | cbn; lia] ] ]
             | ]
         end.
  discriminate H.
Qed.

Lemma toString_plain_fresh radix r x v :
  plain_entry radix r -> val x = Some v ->
  exists s',
    kx_trConfig radix (Some defaults) = (Return tt, Some s')
    /\ toString x radix (Some defaults)
       = (toString_loop (String.length (toBitString x)) (table_from_bits radix)
            (bitsPerDigit r) (toBitString x) 0 "", Some s').
Proof.
  intros Hp Hv. destruct (plain_entry_cases radix r Hp) as (Hin & _).
  destruct x as [xv n]. cbn [val] in Hv. subst xv.
  destruct Hp as [Hg _].
  destruct Hin as [<- | [<- | [<- | [<- | [<- | [<- | [<- | [<- | []]]]]]]]];
    vm_compute in Hg; injection Hg as <-;
    (eexists; split; [vm_compute; reflexivity |]); reflexivity.
Qed.

(** [X29] In a base that is not hierarchical ([4js], [8js], [16js],
    [32hex], [32nvu], [32rfc], [32ghs], [64url]), a bit-string whose
    length is not a multiple of the bits per digit is rendered with the
    text [undefined] at its end: the last digit is cut short, the table
    has no entry for it, and [toString] appends what the lookup
    gives.  (On a class that has built no translation table yet.) *)
Theorem plain_base_partial_digit
        (st : option statics) (radix : string) (r : baseDef) (b : string) :
  fresh_tables st ->
  plain_entry radix r ->
  is_bitstring b = true ->
  strlen b mod bitsPerDigit r <> 0 ->
  exists pre st',
    render_bits radix b st = (Return (pre ++ "undefined"), st').
Proof.
  intros Hst Hp Hb Hm.
  destruct (plain_entry_cases radix r Hp) as (_ & Hkeys & Hbpd & Hn).
  assert (Hc : constructor VNull "" None None st
               = (Return fromNull, Some defaults)).
  { destruct Hst as [-> | ->]; [vm_compute; reflexivity |].
    now apply constructor_null_on. }
  rewrite (render_bits_unfold radix b _ _ Hc).
  assert (Hne : b <> "").
  { intros ->. apply Hm. apply Z.mod_0_l.
    rewrite Hbpd. lia. }
  destruct (toBitString_fromBitString b Hb Hne) as (x & Hx & Hv & _ & Hbits).
  rewrite Hx.
  destruct (toString_plain_fresh radix r x _ Hp Hv) as (s' & _ & Hrun).
  rewrite Hrun, Hbits, Hbpd.
  destruct (toString_loop_partial (table_from_bits radix)
              (Z.to_nat (bitsPerDigit r)) Hn Hkeys (String.length b) b Hb
              (Nat.le_refl _)) as [pre Hpre].
  - intros E. apply Hm. rewrite Hbpd. unfold strlen.
    rewrite <- Nat2Z.inj_mod, E. reflexivity.
  - rewrite Hpre. eauto.
Qed.

Lemma plain_base_partial_digit_witness :
  exists pre st',
    render_bits "32ghs" "0100111" None = (Return (pre ++ "undefined"), st').
Proof.
  apply (plain_base_partial_digit None "32ghs"
           {| base := 32; alphabet := "0123456789bcdefghjkmnpqrstuvwxyz";
              isDefault := false; isHierar := false; bitsPerDigit := 5;
              label := "32ghs" |} "0100111");
    [left; reflexivity | split; reflexivity | reflexivity
    | vm_compute; discriminate].
Defined.

End PartialDigits.

(** ** Resolution of base labels *)

Section BaseLabels.
Import SizedBigInt.
Local Open Scope string_scope.

Lemma substring_length_le s : forall n m,
    (String.length (substring n m s) <= m)%nat.
Proof.
  induction s as [| a s IH]; intros n m.
  - destruct n, m; cbn; lia.
  - destruct n as [| n].
    + destruct m as [| m]; cbn; [lia |]. specialize (IH 0%nat m). lia.
    + cbn. apply IH.
Qed.

(** The test [label.slice(0,3)=='base'] compares at most three
    characters with four: it never holds. *)
Lemma slice3_not_base l : String.eqb (slice l 0 3) "base" = false.
Proof.
  destruct (String.eqb_spec (slice l 0 3) "base") as [E |]; [| reflexivity].
  exfalso. assert (H : (String.length (slice l 0 3) <= 3)%nat).
  { unfold slice.
    eapply Nat.le_trans; [apply substring_length_le |].
    pose proof (strlen_nonneg l). cbn [Z.ltb Z.compare]. lia. }
  rewrite E in H. cbn in H. lia.
Qed.

Lemma baseLabel_lookup lbl s :
  baseLabel lbl (Some s)
  = let key := toLowerCase (if String.eqb lbl "" then "2" else lbl) in
    match obj_get key (kx_baseLabel s) with
    | None => (Throw (Error "label not exists, must be registered"), Some s)
    | Some (Def r) => (Return (key, r), Some s)
    | Some (Alias a) =>
        match obj_get a (kx_baseLabel s) with
        | Some (Def r) => (Return (a, r), Some s)
        | _ => (Throw TypeError, Some s)
        end
    end.
Proof.
  unfold baseLabel, sbind, tables. cbv zeta. rewrite slice3_not_base.
  destruct (obj_get _ (kx_baseLabel s)) as [[r | a] |]; try reflexivity.
  destruct (obj_get a (kx_baseLabel s)) as [[r | a'] |]; reflexivity.
Qed.

Lemma lower_ascii_again (c : ascii) : lower_ascii (lower_ascii c) = lower_ascii c.
Proof.
  destruct c as [[] [] [] [] [] [] [] []]; reflexivity.
Qed.

Lemma toLowerCase_again (l : string) : toLowerCase (toLowerCase l) = toLowerCase l.
Proof.
  induction l as [| c l IH]; [reflexivity |].
  cbn [toLowerCase]. now rewrite lower_ascii_again, IH.
Qed.

(** In lower case, two names are inherited. *)
Lemma inherited_lower (l : string) :
  inherited (toLowerCase l) = true ->
  toLowerCase l = "constructor" \/ toLowerCase l = "__proto__".
Proof.
  pose proof (toLowerCase_again l) as Hl.
  set (k := toLowerCase l) in *. clearbody k.
  unfold inherited, Object_prototype. cbn [existsb].
  repeat match goal with
         | |- context [String.eqb k ?name] =>
             destruct (String.eqb_spec k name) as [E | _];
             [ first [ left; exact E
                     | right; exact E
                     | exfalso; rewrite E in Hl; vm_compute in Hl;
                       discriminate Hl ]
             | cbn [orb] ]
         end.
  discriminate.
Qed.

Lemma baseLabel_any_lookup lbl s :
  baseLabel_any lbl (Some s)
  = let key := toLowerCase (if String.eqb lbl "" then "2" else lbl) in
    match obj_get key (kx_baseLabel s) with
    | None =>
        if inherited key then (Return (Inherited key), Some s)
        else (Throw (Error "label not exists, must be registered"), Some s)
    | Some (Def r) => (Return (Base key r), Some s)
    | Some (Alias a) =>
        match obj_get a (kx_baseLabel s) with
        | Some (Def r) => (Return (Base a r), Some s)
        | _ => (Throw TypeError, Some s)
        end
    end.
Proof.
  unfold baseLabel_any, sbind, tables. cbv zeta. rewrite slice3_not_base.
  destruct (obj_get _ (kx_baseLabel s)) as [[r | a] |]; try reflexivity.
  - destruct (obj_get a (kx_baseLabel s)) as [[r | a'] |]; reflexivity.
  - destruct (inherited _); reflexivity.
Qed.

(** Away from the inherited names, [baseLabel_any] is [baseLabel]. *)
Lemma baseLabel_any_registered lbl s :
  inherited (toLowerCase (if String.eqb lbl "" then "2" else lbl)) = false ->
  baseLabel_any lbl (Some s)
  = match baseLabel lbl (Some s) with
    | (Return (k, r), st) => (Return (Base k r), st)
    | (Throw e, st) => (Throw e, st)
    | (Unfinished, st) => (Unfinished, st)
    end.
Proof.
  intros Hi. rewrite baseLabel_any_lookup, baseLabel_lookup. cbv zeta.
  rewrite Hi.
  destruct (obj_get _ (kx_baseLabel s)) as [[r | a] |]; try reflexivity.
  destruct (obj_get a (kx_baseLabel s)) as [[r | a'] |]; reflexivity.
Qed.

(** [X30] [baseLabel] over the table of bases the class builds, for
    any label: the label is taken in lower case (an empty one as [2]).
    The call returns a registered base, never an alias and never the
    [TypeError] of a dangling alias, and the label of the base
    returned resolves to that same base; or it raises the error of an
    unregistered label; or, for the two labels [constructor] and
    [__proto__] and for no other, it raises no error and returns what
    the table inherits under that name, which is no base.  A prefix
    [base] is never removed, because the test compares three
    characters with four, so that every label beginning with [base] is
    unregistered. *)
Theorem baseLabel_resolution (lbl : string) (s : statics) :
  kx_baseLabel s = kx_baseLabel defaults ->
  let key := toLowerCase (if String.eqb lbl "" then "2" else lbl) in
  ((exists k r,
       baseLabel_any lbl (Some s) = (Return (Base k r), Some s)
       /\ obj_get k (kx_baseLabel s) = Some (Def r)
       /\ label r = k
       /\ baseLabel_any k (Some s) = (Return (Base k r), Some s))
   \/ (baseLabel_any lbl (Some s) = (Return (Inherited key), Some s)
       /\ (key = "constructor" \/ key = "__proto__"))
   \/ (baseLabel_any lbl (Some s)
       = (Throw (Error "label not exists, must be registered"), Some s)
       /\ key <> "constructor" /\ key <> "__proto__"))
  /\ (key = "constructor" \/ key = "__proto__" ->
      baseLabel_any lbl (Some s) = (Return (Inherited key), Some s))
  /\ (String.prefix "base" (toLowerCase lbl) = true ->
      baseLabel_any lbl (Some s)
      = (Throw (Error "label not exists, must be registered"), Some s)).
Proof.
  intros Hs key. split; [| split].
  - rewrite baseLabel_any_lookup. cbv zeta. fold key.
    pose proof (inherited_lower (if String.eqb lbl "" then "2" else lbl)) as Hi.
    fold key in Hi. clearbody key.
    destruct (obj_get key (kx_baseLabel s)) as [e |] eqn:H.
    + left. rewrite Hs in H. unfold defaults in H.
      cbn [kx_baseLabel obj_get] in H.
      destruct s as [lbls tr]. cbn [kx_baseLabel] in Hs. subst lbls.
      repeat match type of H with
             | context [if String.eqb key ?k then _ else _] =>
                 destruct (String.eqb_spec key k) as [-> | _];
                 [ injection H as <-;
                   eexists; eexists;
                   (split; [vm_compute; reflexivity |]);
                   (split; [vm_compute; reflexivity |]);
                   (split; [reflexivity |]);
                   vm_compute; reflexivity
                 | ]
             end.
      discriminate H.
    + right. destruct (inherited key) eqn:Ei.
      * left. split; [reflexivity | now apply Hi].
      * right. split; [reflexivity |].
        split; intros ->; vm_compute in Ei; discriminate Ei.
  - intros Hk. rewrite baseLabel_any_lookup. cbv zeta. fold key.
    clearbody key. rewrite Hs.
    destruct Hk as [-> | ->]; reflexivity.
  - intros Hp. rewrite baseLabel_any_lookup. cbv zeta.
    destruct (String.eqb_spec lbl "") as [-> | _]; [discriminate Hp |].
    destruct (toLowerCase lbl) as [| a0 rest]; [discriminate Hp |].
    cbn [String.prefix] in Hp.
    destruct (Ascii.eqb_spec "b" a0) as [<- |];
      [| destruct (Ascii.ascii_dec "b" a0); [contradiction | discriminate Hp]].
    rewrite Hs. reflexivity.
Qed.

Lemma baseLabel_resolution_witness :
  baseLabel_any "16" (Some defaults)
  = (Return
       (Base "16js"
          {| base := 16; alphabet := "0123456789abcdef"; isDefault := true;
             isHierar := false; bitsPerDigit := 4; label := "16js" |}),
     Some defaults)
  /\ baseLabel_any "Constructor" (Some defaults)
     = (Return (Inherited "constructor"), Some defaults)
  /\ baseLabel_any "base16" (Some defaults)
     = (Throw (Error "label not exists, must be registered"), Some defaults).
Proof.
  pose proof (baseLabel_resolution "Constructor" defaults eq_refl) as Hc.
  pose proof (baseLabel_resolution "base16" defaults eq_refl) as Hb.
  split; [vm_compute; reflexivity |]. split.
  - apply (proj1 (proj2 Hc)). left. reflexivity.
  - apply (proj2 (proj2 Hb)). reflexivity.
Defined.

End BaseLabels.
